(** * ngsxfem-jupyter: the notebooks' drivers over the unfitted-FEM core

    The repository holds three notebooks (CutFEM.ipynb, intlset.ipynb, whose
    file also carries the space-time notebook, and MoL_TraceFEM.ipynb).
    They are drivers: they build level sets, classify elements, mark
    degrees of freedom, assemble, solve and step in time, by calling the
    ngsolve / xfem libraries.

    This development embeds the drivers as they are written (state passing
    over the notebooks' variables; BitArrays as [list bool], updated in
    place in a store where a notebook aliases them) and the library
    primitives they call as the specification describes them.

    Numbers: the clocks of the two time loops ([told], [tend], [delta_t],
    [dt], [T]) are IEEE binary64 floats with their rounding.  The values
    the libraries compute (fields, forms, integrals, vectors) are taken as
    exact rationals ([Q]). *)

From Stdlib Require Import QArith Qabs Lqa Lia ZArith List Bool SpecFloat.
From stdpp Require Import base list gmap.

Open Scope Q_scope.

(* ================================================================== *)
(** * Part I: definitions *)
(* ================================================================== *)

(** ** Control flow shared by the notebooks *)

(** How a run ends: normally, by a raised exception, or cut off by the
    fuel of the model. *)
Inductive Outcome (S : Type) :=
| Finished (s : S)
| Raised
| OutOfFuel.
Arguments Finished {S} s.
Arguments Raised {S}.
Arguments OutOfFuel {S}.

(** A Python [while cond: body] loop over a state; the body may raise. *)
Fixpoint while_loop {S : Type} (fuel : nat) (cond : S -> bool)
    (body : S -> option S) (s : S) : Outcome S :=
  match fuel with
  | O => OutOfFuel
  | Datatypes.S fuel' =>
      if cond s then
        match body s with
        | Some s' => while_loop fuel' cond body s'
        | None => Raised
        end
      else Finished s
  end.

(** [x < y] on exact numbers. *)
Definition Qlt_bool (x y : Q) : bool := negb (Qle_bool y x).

(** A Python [for x in xs: body] loop over a state. *)
Definition for_each {A S : Type} (xs : list A) (body : A -> S -> S) (s : S) : S :=
  fold_left (fun st x => body x st) xs s.

(* ------------------------------------------------------------------ *)
(** ** The library primitives the notebooks call *)
(* ------------------------------------------------------------------ *)

(** The code of ngsolve and xfem is not part of the repository; what the
    notebooks use of it is modelled here from its description in the
    specification. *)
Module Xfem.

(** *** BitArray *)

(** An ngsolve BitArray: a fixed-length vector of bits. *)
Abbreviation BitArray := (list bool).

(** [ba[i]]; a bit outside the array reads as unset. *)
Definition ba_get (ba : BitArray) (i : nat) : bool := default false (ba !! i).

(** [ba.Clear()]: every bit unset, the length kept. *)
Definition ba_clear (ba : BitArray) : BitArray := map (fun _ => false) ba.

(** The bitwise operators behind [|=] and [&=]. *)
Definition ba_or (a b : BitArray) : BitArray := zip_with orb a b.
Definition ba_and (a b : BitArray) : BitArray := zip_with andb a b.

(** [CompoundBitArray([b0, b1, ...])]: the blocks one after the other, as
    the dofs of a product space are numbered. *)
Definition CompoundBitArray (blocks : list BitArray) : BitArray := concat blocks.

(** Set inclusion of the marked indices. *)
Definition ba_subset (a b : BitArray) : Prop :=
  forall i, ba_get a i = true -> ba_get b i = true.

(** *** Mesh and finite element spaces *)

(** What the drivers read of a mesh: the vertices of every element and the
    elements adjacent to every facet (two for an interior facet, one on the
    boundary). *)
Record Mesh := {
  nv : nat;
  elements : list (list nat);
  facets : list (list nat)
}.

Definition ne (m : Mesh) : nat := length (elements m).

(** A finite element space: its dofs per element and the dofs its
    Dirichlet boundary conditions fix. *)
Record FESpace := {
  ndof : nat;
  el_dofs : list (list nat);
  dirichlet : nat -> bool
}.

(** [fes.FreeDofs()] as the space is built: the dofs no boundary condition
    fixes. *)
Definition FreeDofs (fes : FESpace) : BitArray :=
  map (fun d => negb (dirichlet fes d)) (seq 0 (ndof fes)).

(** *** Level sets and their classification *)

(** A P1 GridFunction: one value per mesh vertex. *)
Abbreviation GridFunction := (list Q).

Definition gf_at (gf : GridFunction) (v : nat) : Q := default 0 (gf !! v).

(** Modelled from the spec: the node-wise piecewise-linear interpolant of
    4.1 ([InterpolateToP1(f, gf)]), [f] sampled at the vertices. *)
Definition InterpolateToP1 (m : Mesh) (f : nat -> Q) : GridFunction :=
  map f (seq 0 (nv m)).

Inductive Sign := Negative | Positive.

(** The three tags of an element ([IF] is the cut tag). *)
Inductive DOMAIN_TYPE := NEG | POS | IF.

(** The queries of [GetElementsOfType]. *)
Inductive COMBINED_DOMAIN_TYPE :=
  CDOM_NEG | CDOM_POS | CDOM_IF | HASNEG | HASPOS.

Definition is_neg (s : Sign) : bool :=
  match s with Negative => true | Positive => false end.
Definition is_pos (s : Sign) : bool :=
  match s with Negative => false | Positive => true end.

(** Modelled from the spec: the sign of a nodal value, an exact zero
    taking the configured sign [zero_sign] (the tie-break of 4.3 and of the
    classifier invariant of section 8; the classifier itself is library
    code). *)
Definition sign_of (zero_sign : Sign) (x : Q) : Sign :=
  if Qlt_bool x 0 then Negative
  else if Qlt_bool 0 x then Positive
  else zero_sign.

(** What CutInfo caches per element: the tag and the two derived
    predicates. *)
Record ElementClass := {
  dt : DOMAIN_TYPE;
  has_neg : bool;
  has_pos : bool
}.

(** Modelled from the spec: the classifier of 4.2, a sign-vector check on
    the nodal values of one element: NEG when all are negative, POS when all
    are positive, cut otherwise; HASNEG / HASPOS true if any vertex
    evaluates with that sign (section 3). *)
Definition classify (zero_sign : Sign) (vals : list Q) : ElementClass :=
  let signs := map (sign_of zero_sign) vals in
  {| dt := if forallb is_neg signs then NEG
           else if forallb is_pos signs then POS
           else IF;
     has_neg := existsb is_neg signs;
     has_pos := existsb is_pos signs |}.

Record CutInfo := { classes : list ElementClass }.

(** All, resp. some, of the nodal values have the sign [s]. *)
Definition all_sign (zero_sign s : Sign) (vals : list Q) : Prop :=
  Forall (fun x => sign_of zero_sign x = s) vals.
Definition some_sign (zero_sign s : Sign) (vals : list Q) : Prop :=
  Exists (fun x => sign_of zero_sign x = s) vals.

(** The classifier invariant for one element, in terms of its nodal
    values [vals] and of its five bits: exactly one of NEG, POS, IF; NEG
    and POS iff all values have that sign, IF iff they are not all of the
    same sign; HASNEG and HASPOS iff some value has that sign; IF implies
    both. *)
Definition classified_by (zero_sign : Sign) (vals : list Q)
    (neg pos cut hasneg haspos : bool) : Prop :=
  ((neg = true /\ pos = false /\ cut = false)
   \/ (neg = false /\ pos = true /\ cut = false)
   \/ (neg = false /\ pos = false /\ cut = true))
  /\ (neg = true <-> all_sign zero_sign Negative vals)
  /\ (pos = true <-> all_sign zero_sign Positive vals)
  /\ (cut = true <-> ~ all_sign zero_sign Negative vals
                     /\ ~ all_sign zero_sign Positive vals)
  /\ (hasneg = true <-> some_sign zero_sign Negative vals)
  /\ (haspos = true <-> some_sign zero_sign Positive vals)
  /\ (cut = true -> hasneg = true /\ haspos = true).

(** The nodal values of a P1 field on one element. *)
Definition el_values (gf : GridFunction) (el : list nat) : list Q :=
  map (gf_at gf) el.

(** Modelled from the spec: [CutInfo(mesh, lset)] and [ci.Update(lset)]
    for a spatial P1 field, the classifier of 4.2 element by element. *)
Definition CutInfo_of (zero_sign : Sign) (m : Mesh) (lset : GridFunction) : CutInfo :=
  {| classes := map (fun el => classify zero_sign (el_values lset el)) (elements m) |}.

Definition in_type (t : COMBINED_DOMAIN_TYPE) (c : ElementClass) : bool :=
  match t with
  | CDOM_NEG => match dt c with NEG => true | _ => false end
  | CDOM_POS => match dt c with POS => true | _ => false end
  | CDOM_IF => match dt c with IF => true | _ => false end
  | HASNEG => has_neg c
  | HASPOS => has_pos c
  end.

(** Modelled from the spec: the queryable element sets of 4.2
    ([ci.GetElementsOfType(t)]), one bit per element. *)
Definition GetElementsOfType (ci : CutInfo) (t : COMBINED_DOMAIN_TYPE) : BitArray :=
  map (in_type t) (classes ci).

(** Modelled from the spec: the activity mask of 4.4; a dof is active iff
    at least one element that contains it lies in the subset. *)
Definition GetDofsOfElements (fes : FESpace) (els : BitArray) : BitArray :=
  map (fun d =>
         existsb (fun i => ba_get els i
                           && existsb (Nat.eqb d) (default [] (el_dofs fes !! i)))
                 (seq 0 (length (el_dofs fes))))
      (seq 0 (ndof fes)).

(** Modelled from the spec: the facet derivation of 4.2; an interior facet
    is marked when one adjacent element lies in [a] and the other in [b],
    or vice versa. *)
Definition GetFacetsWithNeighborTypes (m : Mesh) (a b : BitArray) : BitArray :=
  map (fun adj =>
         match adj with
         | [e1; e2] => (ba_get a e1 && ba_get b e2) || (ba_get a e2 && ba_get b e1)
         | _ => false
         end)
      (facets m).

End Xfem.

(* ------------------------------------------------------------------ *)
(** ** A store of BitArrays *)
(* ------------------------------------------------------------------ *)

(** BitArrays are Python objects: [x |= y] and [x &= y] change the object
    [x] names, and every other name of that object sees the change.  The
    store maps object identities to contents. *)
Module Store.
Import Xfem.

Definition loc := nat.

Record Store := {
  cells : gmap nat BitArray;
  fresh : nat
}.

Definition empty : Store := {| cells := ∅; fresh := 0 |}.

Definition load (l : loc) (st : Store) : BitArray := default [] (cells st !! l).

Definition store (l : loc) (ba : BitArray) (st : Store) : Store :=
  {| cells := <[l := ba]> (cells st); fresh := fresh st |}.

(** A new object holding [ba]. *)
Definition alloc (ba : BitArray) (st : Store) : loc * Store :=
  (fresh st, {| cells := <[fresh st := ba]> (cells st); fresh := S (fresh st) |}).

(** [BitArray(other)]: a copy, a new object. *)
Definition copy (l : loc) (st : Store) : loc * Store := alloc (load l st) st.

(** [x.Clear()], [x |= y], [x &= y]: in place. *)
Definition Clear (l : loc) (st : Store) : Store := store l (ba_clear (load l st)) st.
Definition ior (l : loc) (ba : BitArray) (st : Store) : Store :=
  store l (ba_or (load l st) ba) st.
Definition iand (l : loc) (ba : BitArray) (st : Store) : Store :=
  store l (ba_and (load l st) ba) st.

End Store.

(* ------------------------------------------------------------------ *)
(** ** Mesh deformation events *)
(* ------------------------------------------------------------------ *)

(** The calls of a notebook that touch the mesh geometry, in the order
    they run.  [curved] on an integration or assembly records where its
    result goes: [true] for the calls whose result the notebook stores as
    the curved (deformed-geometry) one. *)
Module Deformation.
Import Xfem.

Inductive Event :=
| NewMesh
| CalcDeformation
| SetDeformation
| UnsetDeformation
| Refine
| RefineAtLevelSet
| Integrate (key : DOMAIN_TYPE) (curved : bool)
| Assemble (curved : bool).

(** Whether the mesh carries a deformation after one more call. *)
Definition step (active : bool) (e : Event) : bool :=
  match e with
  | SetDeformation => true
  | UnsetDeformation => false
  | NewMesh => false
  | _ => active
  end.

Definition active_after (tr : list Event) : bool := fold_left step tr false.

Definition changes_topology (e : Event) : bool :=
  match e with
  | Refine | RefineAtLevelSet => true
  | _ => false
  end.

Definition is_curved (e : Event) : bool :=
  match e with
  | Integrate _ c => c
  | Assemble c => c
  | _ => false
  end.

(** The set / unset discipline of a sequence of calls:
    - no call that changes the mesh topology runs while a deformation is
      set;
    - every curved integration or assembly runs while a deformation is set;
    - every [SetDeformation] is followed by an [UnsetDeformation], with no
      topology change and no second [SetDeformation] in between. *)
Definition disciplined (tr : list Event) : Prop :=
  (forall pre e post, tr = pre ++ e :: post ->
                      changes_topology e = true -> active_after pre = false)
  /\ (forall pre e post, tr = pre ++ e :: post ->
                         is_curved e = true -> active_after pre = true)
  /\ (forall pre post, tr = pre ++ SetDeformation :: post ->
        exists mid post',
          post = mid ++ UnsetDeformation :: post'
          /\ Forall (fun e => changes_topology e = false /\ e <> SetDeformation)
                    mid).

(** A monitor for it: which call may run in which state of the mesh. *)
Definition allowed (active : bool) (e : Event) : bool :=
  match e with
  | NewMesh | SetDeformation | Refine | RefineAtLevelSet => negb active
  | UnsetDeformation => active
  | Integrate _ c | Assemble c => Bool.eqb c active
  | CalcDeformation => true
  end.

(** The state of the mesh after the calls, if all were allowed. *)
Fixpoint monitor (active : bool) (tr : list Event) : option bool :=
  match tr with
  | [] => Some active
  | e :: tr' => if allowed active e then monitor (step active e) tr' else None
  end.

End Deformation.

(* ------------------------------------------------------------------ *)
(** ** CutFEM.ipynb *)
(* ------------------------------------------------------------------ *)

Module CutFEM.
Import Xfem Store Deformation.

Abbreviation Vector := (list Q).
Abbreviation Matrix := (list (list Q)).

Definition vec_at (v : Vector) (i : nat) : Q := default 0 (v !! i).

Definition dot (r x : Vector) : Q :=
  fold_right Qplus 0 (zip_with Qmult r x).

(** [a.mat * x], [u - v] and [u += v]; sizes that do not fit are an
    error. *)
Definition mat_vec (A : Matrix) (x : Vector) : option Vector :=
  if forallb (fun r => Nat.eqb (length r) (length x)) A
  then Some (map (fun r => dot r x) A)
  else None.

Definition vec_sub (u v : Vector) : option Vector :=
  if Nat.eqb (length u) (length v) then Some (zip_with Qminus u v) else None.
Definition vec_add (u v : Vector) : option Vector :=
  if Nat.eqb (length u) (length v) then Some (zip_with Qplus u v) else None.

(** The entries of [v] at the marked dofs, zero elsewhere. *)
Definition project (free : BitArray) (v : Vector) : Vector :=
  imap (fun i x => if ba_get free i then x else 0) v.

(** The direct solver behind [Inverse]: from the matrix, the mask and a
    right-hand side to a vector of the same size.  It is an external
    collaborator; nothing is assumed of the values it returns. *)
Definition BlockSolver := Matrix -> BitArray -> Vector -> Vector.

(** Modelled from the spec: the solve restricted to a boolean dof mask of
    section 6 ([a.mat.Inverse(freedofs) * rhs]); the reduced system on the
    marked dofs is solved and the rest ignored: the right-hand side is read
    and the result written on the marked dofs only. *)
Definition Inverse (solver : BlockSolver) (A : Matrix) (free : BitArray)
    (rhs : Vector) : option Vector :=
  let y := solver A free (project free rhs) in
  if Nat.eqb (length y) (length rhs) then Some (project free y) else None.

Section Notebook.

(** The background mesh and the P1 level set [lsetp1] (lines 303-304). *)
Variable mesh : Mesh.
Variable lsetp1 : GridFunction.
Variable zero_sign : Sign.

(** [Vh = H1(mesh, order = 2, dirichlet = [1,2,3,4])] (line 359). *)
Variable Vh : FESpace.

(** The boundary datum [solution[1]], sampled at the dofs of [Vh]. *)
Variable solution1 : nat -> Q.

(** The assembled matrix and vector, for the undeformed ([false]) and the
    deformed ([true]) geometry, and the direct solver. *)
Variable assemble_a : bool -> Matrix.
Variable assemble_f : bool -> Vector.
Variable solver : BlockSolver.

(** The variables of the notebook.  [VhG_free] is the object
    [VhG.FreeDofs()] returns; [freedofs] is the notebook's name for it. *)
Record State := {
  heap : Store;
  VhG_free : loc;
  ci : CutInfo;
  freedofs : loc;
  gfu : Vector;
  a_mat : Matrix;
  f_vec : Vector;
  deformed : bool;
  trace : list Event
}.

(** [VhG = FESpace([Vh,Vh])] (line 360): twice the dofs of [Vh], its free
    dofs those of [Vh] per component. *)
Definition bc_mask : BitArray := CompoundBitArray [FreeDofs Vh; FreeDofs Vh].

(** The free dofs of a state: the content of the object [freedofs] names. *)
Definition freedofs_of (s : State) : BitArray := load (freedofs s) (heap s).

(** The cells "Cut FE space" and "Information about cut elements" (lines
    359-361 and 406): the space owns its free-dof array;
    [ci = CutInfo(mesh, lsetp1)]. *)
Definition cut_fe_space : State :=
  let '(l, h) := alloc bc_mask Store.empty in
  {| heap := h; VhG_free := l;
     ci := CutInfo_of zero_sign mesh lsetp1;
     freedofs := l;
     gfu := []; a_mat := []; f_vec := [];
     deformed := false; trace := [] |}.

(** The compound activity mask of the cell "Free dofs setup". *)
Definition activity_mask (c : CutInfo) : BitArray :=
  let hasneg := GetElementsOfType c HASNEG in
  let haspos := GetElementsOfType c HASPOS in
  CompoundBitArray [GetDofsOfElements Vh hasneg; GetDofsOfElements Vh haspos].

(** The cell "Free dofs setup" (lines 437-442):
<<
hasneg = ci.GetElementsOfType(HASNEG)
haspos = ci.GetElementsOfType(HASPOS)
freedofs = VhG.FreeDofs()
freedofs &= CompoundBitArray([GetDofsOfElements(Vh,hasneg),GetDofsOfElements(Vh,haspos)])
>>
    [VhG.FreeDofs()] hands out the array of the space itself, and [&=]
    overwrites it. *)
Definition free_dofs_setup (s : State) : State :=
  let freedofs' := VhG_free s in
  {| heap := iand freedofs' (activity_mask (ci s)) (heap s);
     VhG_free := VhG_free s; ci := ci s;
     freedofs := freedofs';
     gfu := gfu s; a_mat := a_mat s; f_vec := f_vec s;
     deformed := deformed s; trace := trace s |}.

(** A new classification (a changed level set), as [ci.Update] leaves it. *)
Definition update_ci (lset : GridFunction) (s : State) : State :=
  {| heap := heap s; VhG_free := VhG_free s;
     ci := CutInfo_of zero_sign mesh lset;
     freedofs := freedofs s;
     gfu := gfu s; a_mat := a_mat s; f_vec := f_vec s;
     deformed := deformed s; trace := trace s |}.

(** That cell executed again after each of a list of level set changes. *)
Definition free_dofs_setup_again (lsets : list GridFunction) (s : State) : State :=
  for_each lsets (fun lset st => free_dofs_setup (update_ci lset st)) s.

(** [gfu.components[1].Set(solution[1], BND)] on a new [GridFunction(VhG)]:
    component 0 is zero, component 1 holds the datum on the Dirichlet dofs
    of [Vh] and zero elsewhere. *)
Definition gfu_with_bnd : Vector :=
  map (fun _ => 0) (seq 0 (ndof Vh))
  ++ map (fun d => if dirichlet Vh d then solution1 d else 0) (seq 0 (ndof Vh)).

(** [a.Assemble(); f.Assemble()]: the matrix and the vector of the geometry
    the mesh has at that moment.  [curved] tells which result the notebook
    takes them for. *)
Definition Assemble_a_f (curved : bool) (s : State) : State :=
  {| heap := heap s; VhG_free := VhG_free s; ci := ci s; freedofs := freedofs s;
     gfu := gfu s;
     a_mat := assemble_a (deformed s); f_vec := assemble_f (deformed s);
     deformed := deformed s;
     trace := trace s ++ [Assemble curved; Assemble curved] |}.

(** The cell "Assemble" (lines 749-757):
<<
gfu = GridFunction(VhG)
gfu.components[1].Set(solution[1], BND)
a.Assemble()
f.Assemble()
>> *)
Definition assemble_cell (s : State) : State :=
  Assemble_a_f false
    {| heap := heap s; VhG_free := VhG_free s; ci := ci s; freedofs := freedofs s;
       gfu := gfu_with_bnd;
       a_mat := a_mat s; f_vec := f_vec s;
       deformed := deformed s; trace := trace s |}.

(** The cell "To solve the linear system" (lines 783-790):
<<
def SolveLinearSystem():
    rhs = gfu.vec.CreateVector()
    rhs.data = f.vec - a.mat * gfu.vec
    update = gfu.vec.CreateVector()
    update.data = a.mat.Inverse(freedofs) * rhs
    gfu.vec.data += update
>>
    [None] when the sizes of the vectors do not fit. *)
Definition SolveLinearSystem (s : State) : option State :=
  a_gfu ← mat_vec (a_mat s) (gfu s);
  rhs ← vec_sub (f_vec s) a_gfu;
  update ← Inverse solver (a_mat s) (freedofs_of s) rhs;
  gfu' ← vec_add (gfu s) update;
  Some {| heap := heap s; VhG_free := VhG_free s; ci := ci s;
          freedofs := freedofs s;
          gfu := gfu';
          a_mat := a_mat s; f_vec := f_vec s;
          deformed := deformed s; trace := trace s |}.

Definition log (evs : list Event) (s : State) : State :=
  {| heap := heap s; VhG_free := VhG_free s; ci := ci s; freedofs := freedofs s;
     gfu := gfu s; a_mat := a_mat s; f_vec := f_vec s;
     deformed := fold_left step evs (deformed s);
     trace := trace s ++ evs |}.

(** [ComputeError()] (lines 876-885): two [Integrate] calls, on the NEG and
    on the POS part, on the geometry the mesh has at that moment; [curved]
    tells which result the notebook takes them for. *)
Definition ComputeError (curved : bool) (s : State) : State :=
  log [Integrate NEG curved; Integrate POS curved] s.

(** The cell "Geometrically high order accuracy" (lines 920-928):
<<
deform = lsetad.CalcDeformation(levelset)
mesh.SetDeformation(deform)
a.Assemble()
f.Assemble()
SolveLinearSystem()
ComputeError()
mesh.UnsetDeformation()
>> *)
Definition high_order_geometry (s : State) : option State :=
  let s1 := log [CalcDeformation; SetDeformation] s in
  let s2 := Assemble_a_f true s1 in
  s3 ← SolveLinearSystem s2;
  Some (log [UnsetDeformation] (ComputeError true s3)).

(** The notebook, top to bottom. *)
Definition run : option State :=
  let s := assemble_cell (free_dofs_setup cut_fe_space) in
  s1 ← SolveLinearSystem s;
  high_order_geometry (ComputeError false s1).

End Notebook.
End CutFEM.

(* ------------------------------------------------------------------ *)
(** ** intlset.ipynb: integration on level set domains *)
(* ------------------------------------------------------------------ *)

Module IntLset.
Import Xfem Deformation.

Section Notebook.

(** [from math import pi]: a float. *)
Variable pi : Q.

(** The library's [Integrate(levelset_domain = {"levelset": lsetp1,
    "domain_type": key}, cf=1, mesh=mesh, order=order)]: its value depends
    on the mesh (told apart by the number of refinements done), on the part
    asked for and on the deformation the mesh carries at the call. *)
Variable Integrate_val : nat -> DOMAIN_TYPE -> bool -> Q.

(** The variables of the convergence study (lines 377-445). *)
Record State := {
  level : nat;
  deformation : bool;
  errors_curved : DOMAIN_TYPE -> list Q;
  errors_uncurved : DOMAIN_TYPE -> list Q;
  trace : list Event
}.

Definition DOMAIN_TYPE_eqb (a b : DOMAIN_TYPE) : bool :=
  match a, b with
  | NEG, NEG | POS, POS | IF, IF => true
  | _, _ => false
  end.

(** [d[key].append(x)] *)
Definition append_at (d : DOMAIN_TYPE -> list Q) (key : DOMAIN_TYPE) (x : Q)
    : DOMAIN_TYPE -> list Q :=
  fun k => if DOMAIN_TYPE_eqb k key then d k ++ [x] else d k.

(** [referencevals = { POS : 9-pi, NEG : pi, IF : 2*pi }] *)
Definition referencevals (key : DOMAIN_TYPE) : Q :=
  match key with
  | POS => 9 - pi
  | NEG => pi
  | IF => 2 * pi
  end.

(** The cell at lines 377-397: a new mesh, empty error lists. *)
Definition setup (tr : list Event) : State :=
  {| level := 0; deformation := false;
     errors_curved := fun _ => []; errors_uncurved := fun _ => [];
     trace := tr ++ [NewMesh] |}.

(** The calls on the mesh. *)
Definition emit (e : Event) (s : State) : State :=
  {| level := level s; deformation := step (deformation s) e;
     errors_curved := errors_curved s; errors_uncurved := errors_uncurved s;
     trace := trace s ++ [e] |}.

Definition mesh_Refine (s : State) : State :=
  {| level := S (level s); deformation := deformation s;
     errors_curved := errors_curved s; errors_uncurved := errors_uncurved s;
     trace := trace s ++ [Refine] |}.

(** [Integrate(...)]: the value on the geometry the mesh has now; [curved]
    names the variable the notebook stores it in. *)
Definition do_Integrate (key : DOMAIN_TYPE) (curved : bool) (s : State) : Q * State :=
  (Integrate_val (level s) key (deformation s), emit (Integrate key curved) s).

(** The body of [for key in [NEG,POS,IF]]:
<<
deformation = lsetmeshadap.CalcDeformation(levelset)
integrals_uncurved = Integrate(..., "domain_type" : key ...)
mesh.SetDeformation(deformation)
integrals_curved = Integrate(..., "domain_type" : key ...)
mesh.UnsetDeformation()
errors_curved[key].append(abs(integrals_curved - referencevals[key]))
errors_uncurved[key].append(abs(integrals_uncurved - referencevals[key]))
>> *)
Definition key_body (key : DOMAIN_TYPE) (s : State) : State :=
  let s := emit CalcDeformation s in
  let '(integrals_uncurved, s) := do_Integrate key false s in
  let s := emit SetDeformation s in
  let '(integrals_curved, s) := do_Integrate key true s in
  let s := emit UnsetDeformation s in
  {| level := level s; deformation := deformation s;
     errors_curved :=
       append_at (errors_curved s) key (Qabs (integrals_curved - referencevals key));
     errors_uncurved :=
       append_at (errors_uncurved s) key (Qabs (integrals_uncurved - referencevals key));
     trace := trace s |}.

(** The body of [for reflevel in range(refinements)]:
<<
if(reflevel > 0):
    mesh.Refine()
for key in [NEG,POS,IF]:
    ...
RefineAtLevelSet(gf=lsetmeshadap.lset_p1)
>> *)
Definition reflevel_body (reflevel : nat) (s : State) : State :=
  let s := if Nat.ltb 0 reflevel then mesh_Refine s else s in
  let s := for_each [NEG; POS; IF] key_body s in
  emit RefineAtLevelSet s.

(** The cell at lines 421-445. *)
Definition refinement_driver (refinements : nat) (s : State) : State :=
  for_each (seq 0 refinements) reflevel_body s.

(** The cells before it, as far as they touch the mesh: the first
    [Integrate]; the refinement cell ([RefineAtLevelSet], [mesh.Refine()],
    [Integrate]), which the notebook asks to execute repeatedly; the first
    [CalcDeformation]. *)
Definition first_cells (reruns : nat) : list Event :=
  [Integrate NEG false]
  ++ concat (replicate reruns [RefineAtLevelSet; Refine; Integrate NEG false])
  ++ [CalcDeformation].

(** The notebook, top to bottom ([refinements = 6] in the source). *)
Definition run (reruns refinements : nat) : State :=
  refinement_driver refinements (setup (first_cells reruns)).

(** An entry of an error list that came from an [Integrate] on the
    deformed ([true]) or on the undeformed ([false]) mesh. *)
Definition computed_on (deformed : bool) (key : DOMAIN_TYPE) (x : Q) : Prop :=
  exists lvl, x = Qabs (Integrate_val lvl key deformed - referencevals key).

(** What holds between the passes of the driver: the calls so far were all
    allowed, no deformation is set, and the error lists hold what their
    names say. *)
Definition driver_inv (s : State) : Prop :=
  monitor false (trace s) = Some false
  /\ deformation s = false
  /\ (forall key, Forall (computed_on true key) (errors_curved s key))
  /\ (forall key, Forall (computed_on false key) (errors_uncurved s key)).

End Notebook.
End IntLset.

(* ------------------------------------------------------------------ *)
(** ** intlset.ipynb, second document: unfitted space-time finite elements *)
(* ------------------------------------------------------------------ *)

Module SpaceTime.
Import Xfem.

(** *** Space-time fields *)

(** [k_t = 1], [tfe = ScalarTimeFE(k_t)]: the nodal time element with its
    nodes at reference times 0 and 1.  A GridFunction of
    [SpaceTimeFESpace(fes1, tfe)] has, per dof of [fes1], one coefficient
    for each of the two time nodes. *)
Definition k_t : nat := 1.
Definition k_s : nat := 1.
Definition lset_order_time : nat := 1.

Abbreviation STGridFunction := (list (Q * Q)).

(** The value at spatial dof [v] and reference time [tref]: the nodal
    basis in time is [1 - tref] and [tref]. *)
Definition st_eval (gf : STGridFunction) (v : nat) (tref : Q) : Q :=
  let '(c0, c1) := default (0, 0) (gf !! v) in
  (1 - tref) * c0 + tref * c1.

(** Modelled from the spec: the restriction of 4.1 ([RestrictGFInTime],
    [CreateTimeRestrictedGF]): the space-time field at a fixed reference
    time, as a spatial nodal field; it fails for a reference time outside
    [[0,1]]. *)
Definition RestrictGFInTime (spacetime_gf : STGridFunction) (reference_time : Q)
    : option GridFunction :=
  if Qle_bool 0 reference_time && Qle_bool reference_time 1
  then Some (map (fun c => (1 - reference_time) * fst c + reference_time * snd c)
                 spacetime_gf)
  else None.

(** [t = coef_told + coef_delta_t*tref] *)
Definition t (coef_told coef_delta_t tref : Q) : Q :=
  coef_told + coef_delta_t * tref.

(** The nodal values of a space-time field on one element, over both time
    nodes. *)
Definition st_el_values (gf : STGridFunction) (el : list nat) : list Q :=
  flat_map (fun v => let c := default (0, 0) (gf !! v) in [fst c; snd c]) el.

(** Modelled from the spec: [ci.Update(lset_p1, time_order=2*k_t)] for a
    space-time field, the sign-vector check of 4.2 on the nodal values
    across all temporal nodes of the element. *)
Definition CutInfo_Update (zero_sign : Sign) (m : Mesh) (lset : STGridFunction)
    : CutInfo :=
  {| classes := map (fun el => classify zero_sign (st_el_values lset el)) (elements m) |}.

(** *** Forms *)

(** The functions a form evaluates at a point: the trial and the test
    function, [u_last] and [coeff_f]. *)
Inductive FieldName := u | v | u_last_gf | coeff_f.

(** The expressions the notebook builds its forms from.  The products of
    gradients [grad(u)*grad(v)] and [InnerProduct(w,grad(v))] are scalars
    and are kept as atoms. *)
Inductive CF :=
| Const (q : Q)
| coef_delta_t_cf
| h_cf
| Val (f : FieldName)
| dt_of (f : FieldName)
| grad_grad (f g : FieldName)
| w_grad (f : FieldName)
| Other (c : CF)
| fix_t (c : CF) (tref : Q)
| Neg (c : CF)
| Sub (a b : CF)
| Mul (a b : CF)
| Pow (c : CF) (n : Z).

(** A point where a form is evaluated: on which of the two neighbouring
    elements of a facet patch, and at which reference time. *)
Record Point := { other_side : bool; tref : Q }.

Record Env := {
  coef_delta_t_val : Q;
  h_val : Q;
  field : FieldName -> Point -> Q;
  field_dt : FieldName -> Point -> Q;
  field_grad_grad : FieldName -> FieldName -> Point -> Q;
  field_w_grad : FieldName -> Point -> Q
}.

Fixpoint eval (env : Env) (p : Point) (c : CF) : Q :=
  match c with
  | Const q => q
  | coef_delta_t_cf => coef_delta_t_val env
  | h_cf => h_val env
  | Val f => field env f p
  | dt_of f => field_dt env f p
  | grad_grad f g => field_grad_grad env f g p
  | w_grad f => field_w_grad env f p
  | Other c' => eval env {| other_side := negb (other_side p); tref := tref p |} c'
  | fix_t c' tr => eval env {| other_side := other_side p; tref := tr |} c'
  | Neg c' => - eval env p c'
  | Sub a b => eval env p a - eval env p b
  | Mul a b => eval env p a * eval env p b
  | Pow c' n => eval env p c' ^ n
  end.

Inductive LsetName := lset_p1_name | lset_top_name | lset_bottom_name.

Record LevelsetDomain := {
  levelset_of : LsetName;
  domain_type : DOMAIN_TYPE
}.

Inductive IntegratorKind := SymbolicBFI | SymbolicLFI | SymbolicFacetPatchBFI.

(** An integrator with the keyword arguments the notebook passes
    ([None] where it passes none). *)
Record Integrator := {
  kind : IntegratorKind;
  levelset_domain : option LevelsetDomain;
  form : CF;
  time_order : option nat;
  skeleton : option bool;
  definedonelements : option BitArray
}.

Definition SetDefinedOnElements (ba : BitArray) (i : Integrator) : Integrator :=
  {| kind := kind i; levelset_domain := levelset_domain i; form := form i;
     time_order := time_order i; skeleton := skeleton i;
     definedonelements := Some ba |}.

(** Whether the integrator is evaluated on the element (or facet) with
    index [k]: on the marked ones once a restriction is set. *)
Definition defined_on (i : Integrator) (k : nat) : bool :=
  match definedonelements i with
  | Some ba => ba_get ba k
  | None => true
  end.

Definition lset_neg := {| levelset_of := lset_p1_name; domain_type := NEG |}.
Definition lset_neg_bottom := {| levelset_of := lset_bottom_name; domain_type := NEG |}.
Definition lset_neg_top := {| levelset_of := lset_top_name; domain_type := NEG |}.

(** [alpha = 1] *)
Definition alpha : Q := 1.

(** [def SpaceTimeNegBFI(form): return SymbolicBFI(levelset_domain = lset_neg,
    form = form.Compile(), time_order=2*k_t)] *)
Definition SpaceTimeNegBFI (f : CF) : Integrator :=
  {| kind := SymbolicBFI; levelset_domain := Some lset_neg; form := f;
     time_order := Some (2 * k_t)%nat; skeleton := None;
     definedonelements := None |}.

(** The seven integrals, in the order the notebook appends them. *)
Definition hasneg_integrators_a0 : list Integrator :=
  [ SpaceTimeNegBFI (Mul (Neg (Val u)) (dt_of v));
    SpaceTimeNegBFI (Mul (Mul (Neg coef_delta_t_cf) (Val u)) (w_grad v));
    SpaceTimeNegBFI (Mul (Mul coef_delta_t_cf (Const alpha)) (grad_grad u v));
    {| kind := SymbolicBFI; levelset_domain := Some lset_neg_top;
       form := Mul (fix_t (Val u) 1) (fix_t (Val v) 1);
       time_order := None; skeleton := None; definedonelements := None |} ].

(** [SymbolicFacetPatchBFI(form = coef_delta_t*0.05*h**(-2)*(u-u.Other())*(v-v.Other()),
    skeleton=False, time_order=2*k_t)] *)
Definition patch_form : CF :=
  Mul (Mul (Mul (Mul coef_delta_t_cf (Const 0.05)) (Pow h_cf (-2)))
           (Sub (Val u) (Other (Val u))))
      (Sub (Val v) (Other (Val v))).

Definition patch_integrators_a0 : list Integrator :=
  [ {| kind := SymbolicFacetPatchBFI; levelset_domain := None;
       form := patch_form;
       time_order := Some (2 * k_t)%nat; skeleton := Some false;
       definedonelements := None |} ].

(** [u_last*fix_t(v,0)] *)
Definition bottom_form : CF := Mul (Val u_last_gf) (fix_t (Val v) 0).

Definition hasneg_integrators_f0 : list Integrator :=
  [ {| kind := SymbolicLFI; levelset_domain := Some lset_neg;
       form := Mul (Mul coef_delta_t_cf (Val coeff_f)) (Val v);
       time_order := Some (2 * k_t)%nat; skeleton := None;
       definedonelements := None |};
    {| kind := SymbolicLFI; levelset_domain := Some lset_neg_bottom;
       form := bottom_form;
       time_order := None; skeleton := None; definedonelements := None |} ].

(** What [a.Assemble()] and [f.Assemble()] read: the integrators with
    their domains, the parameters, the level sets and [u_last]. *)
Record System := {
  sys_a : list Integrator;
  sys_f : list Integrator;
  sys_coef_told : Q;
  sys_coef_delta_t : Q;
  sys_lset_p1 : STGridFunction;
  sys_lset_top : GridFunction;
  sys_lset_bottom : GridFunction;
  sys_u_last : GridFunction
}.


(** The environment in which the forms of an assembled system are
    evaluated at the vertex [x]: [coef_delta_t] and [u_last] as the system
    read them, the trial and the test function two discrete space-time
    functions [uh] and [vh]; the rest as in [base]. *)
Definition env_at (base : Env) (sys : System) (x : nat)
    (uh vh : STGridFunction) : Env :=
  {| coef_delta_t_val := sys_coef_delta_t sys;
     h_val := h_val base;
     field := fun f p =>
                match f with
                | u => st_eval uh x (tref p)
                | v => st_eval vh x (tref p)
                | u_last_gf => gf_at (sys_u_last sys) x
                | coeff_f => field base coeff_f p
                end;
     field_dt := field_dt base;
     field_grad_grad := field_grad_grad base;
     field_w_grad := field_w_grad base |}.

(** *** The time-slab driver *)

Section Driver.

Variable mesh : Mesh.
Variable zero_sign : Sign.
Variable st_fes : FESpace.

(** The level set and the exact solution, at a physical time and a vertex. *)
Variable levelset : Q -> nat -> Q.
Variable u_exact : Q -> nat -> Q.

(** [a.mat.Inverse(active_dofs, inverse="pardiso") * f.vec], from what was
    assembled and the mask; and the error integral of [FinalizeStep]. *)
Variable solver : System -> BitArray -> STGridFunction.
Variable l2error_of : GridFunction -> Q -> GridFunction -> Q.

(** [ci = CutInfo(mesh, time_order=2*k_t)]: no level set yet, its content
    is not defined before the first [Update]. *)
Variable ci0 : CutInfo.

(** [delta_t = tend/32] in the source. *)
Variable delta_t : Q.

(** The variables of the notebook.  The forms [a] and [f] hold the
    integrator objects of the three lists, so they see every
    [SetDefinedOnElements]; [assembled] is what the last [Assemble] read. *)
Record State := {
  told : Q;
  coef_told : Q;
  coef_delta_t : Q;
  lset_p1 : STGridFunction;
  lset_top : GridFunction;
  lset_bottom : GridFunction;
  ci : CutInfo;
  gfu : STGridFunction;
  u_last : GridFunction;
  hasneg_integrators_a : list Integrator;
  hasneg_integrators_f : list Integrator;
  patch_integrators_a : list Integrator;
  assembled : option System;
  printed : list (Q * Q)
}.

(** The cells up to [u_last.Set(u_init)]: [told = 0], [coef_told =
    Parameter(0)], [coef_delta_t.Set(delta_t)], zero GridFunctions,
    [u_last] set from [u_init = u_exact]. *)
Definition st_zero : STGridFunction := map (fun _ => (0, 0)) (seq 0 (nv mesh)).
Definition gf_zero : GridFunction := map (fun _ => 0) (seq 0 (nv mesh)).

Definition init : State :=
  {| told := 0; coef_told := 0; coef_delta_t := delta_t;
     lset_p1 := st_zero; lset_top := gf_zero; lset_bottom := gf_zero;
     ci := ci0;
     gfu := st_zero;
     u_last := InterpolateToP1 mesh (u_exact (t 0 delta_t 0));
     hasneg_integrators_a := hasneg_integrators_a0;
     hasneg_integrators_f := hasneg_integrators_f0;
     patch_integrators_a := patch_integrators_a0;
     assembled := None;
     printed := [] |}.

(** Modelled from the spec: the space-time interpolant of 4.1
    ([SpaceTimeInterpolateToP1(levelset,coef_told,told,delta_t,lset_p1)]),
    the level set sampled at the vertices, at the physical times of the two
    time nodes of the slab that starts at [told]. *)
Definition SpaceTimeInterpolateToP1 (told' delta_t' : Q) : STGridFunction :=
  map (fun x => (levelset (t told' delta_t' 0) x, levelset (t told' delta_t' 1) x))
      (seq 0 (nv mesh)).

(** <<
def UpdateTimeSlabGeometry():
    SpaceTimeInterpolateToP1(levelset,coef_told,told,delta_t,lset_p1)
    RestrictGFInTime(spacetime_gf=lset_p1,reference_time=0.0,space_gf=lset_bottom)
    RestrictGFInTime(spacetime_gf=lset_p1,reference_time=1.0,space_gf=lset_top)
    ci.Update(lset_p1,time_order=2 * k_t)
>> *)
Definition UpdateTimeSlabGeometry (s : State) : option State :=
  let lset_p1' := SpaceTimeInterpolateToP1 (told s) delta_t in
  lset_bottom' ← RestrictGFInTime lset_p1' 0;
  lset_top' ← RestrictGFInTime lset_p1' 1;
  Some {| told := told s; coef_told := coef_told s; coef_delta_t := coef_delta_t s;
          lset_p1 := lset_p1'; lset_top := lset_top'; lset_bottom := lset_bottom';
          ci := CutInfo_Update zero_sign mesh lset_p1';
          gfu := gfu s; u_last := u_last s;
          hasneg_integrators_a := hasneg_integrators_a s;
          hasneg_integrators_f := hasneg_integrators_f s;
          patch_integrators_a := patch_integrators_a s;
          assembled := assembled s; printed := printed s |}.

(** <<
def UpdateLinearSystems():
    ba_facets = GetFacetsWithNeighborTypes(mesh,a=ci.GetElementsOfType(HASNEG),
                                                b=ci.GetElementsOfType(IF))
    for integrator in hasneg_integrators_a + hasneg_integrators_f:
        integrator.SetDefinedOnElements(ci.GetElementsOfType(HASNEG))
    for integrator in patch_integrators_a:
        integrator.SetDefinedOnElements(ba_facets)
    a.Assemble()
    f.Assemble()
>> *)
Definition ba_facets_of (c : CutInfo) : BitArray :=
  GetFacetsWithNeighborTypes mesh (GetElementsOfType c HASNEG)
                                  (GetElementsOfType c CDOM_IF).

Definition UpdateLinearSystems (s : State) : State :=
  let ba_facets := ba_facets_of (ci s) in
  let hasneg := GetElementsOfType (ci s) HASNEG in
  let ia := map (SetDefinedOnElements hasneg) (hasneg_integrators_a s) in
  let i_f := map (SetDefinedOnElements hasneg) (hasneg_integrators_f s) in
  let ip := map (SetDefinedOnElements ba_facets) (patch_integrators_a s) in
  {| told := told s; coef_told := coef_told s; coef_delta_t := coef_delta_t s;
     lset_p1 := lset_p1 s; lset_top := lset_top s; lset_bottom := lset_bottom s;
     ci := ci s; gfu := gfu s; u_last := u_last s;
     hasneg_integrators_a := ia;
     hasneg_integrators_f := i_f;
     patch_integrators_a := ip;
     assembled :=
       Some {| sys_a := ia ++ ip; sys_f := i_f;
               sys_coef_told := coef_told s; sys_coef_delta_t := coef_delta_t s;
               sys_lset_p1 := lset_p1 s; sys_lset_top := lset_top s;
               sys_lset_bottom := lset_bottom s; sys_u_last := u_last s |};
     printed := printed s |}.

(** <<
def SolveForTimeSlab():
    active_dofs = GetDofsOfElements(st_fes,ci.GetElementsOfType(HASNEG))
    inv = a.mat.Inverse(active_dofs,inverse="pardiso")
    gfu.vec.data =  inv * f.vec
>>
    It raises when nothing was assembled. *)
Definition SolveForTimeSlab (s : State) : option State :=
  let active_dofs := GetDofsOfElements st_fes (GetElementsOfType (ci s) HASNEG) in
  sys ← assembled s;
  Some {| told := told s; coef_told := coef_told s; coef_delta_t := coef_delta_t s;
          lset_p1 := lset_p1 s; lset_top := lset_top s; lset_bottom := lset_bottom s;
          ci := ci s;
          gfu := solver sys active_dofs;
          u_last := u_last s;
          hasneg_integrators_a := hasneg_integrators_a s;
          hasneg_integrators_f := hasneg_integrators_f s;
          patch_integrators_a := patch_integrators_a s;
          assembled := assembled s; printed := printed s |}.

(** [told = told + delta_t; coef_told.Set(told)], the sum taken exact;
    [SpaceTimeClock] below has the loop with the float sum. *)
Definition advance (s : State) : State :=
  let told' := told s + delta_t in
  {| told := told'; coef_told := told'; coef_delta_t := coef_delta_t s;
     lset_p1 := lset_p1 s; lset_top := lset_top s; lset_bottom := lset_bottom s;
     ci := ci s; gfu := gfu s; u_last := u_last s;
     hasneg_integrators_a := hasneg_integrators_a s;
     hasneg_integrators_f := hasneg_integrators_f s;
     patch_integrators_a := patch_integrators_a s;
     assembled := assembled s; printed := printed s |}.

(** <<
def FinalizeStep():
    RestrictGFInTime(spacetime_gf=gfu,reference_time=1.0,space_gf=u_last)
    l2error = sqrt(Integrate(lset_neg_top,(u_exact-u_last)*(u_exact-u_last),mesh))
    print("\rt = {0:10}, l2error = {1:20}".format(told,l2error))
>> *)
Definition FinalizeStep (s : State) : option State :=
  u_last' ← RestrictGFInTime (gfu s) 1;
  let l2error := l2error_of (lset_top s) (coef_told s) u_last' in
  Some {| told := told s; coef_told := coef_told s; coef_delta_t := coef_delta_t s;
          lset_p1 := lset_p1 s; lset_top := lset_top s; lset_bottom := lset_bottom s;
          ci := ci s; gfu := gfu s;
          u_last := u_last';
          hasneg_integrators_a := hasneg_integrators_a s;
          hasneg_integrators_f := hasneg_integrators_f s;
          patch_integrators_a := patch_integrators_a s;
          assembled := assembled s;
          printed := printed s ++ [(told s, l2error)] |}.

(** The body of the time loop:
<<
UpdateTimeSlabGeometry()
UpdateLinearSystems()
SolveForTimeSlab()
told = told + delta_t
coef_told.Set(told)
FinalizeStep()
>> *)
Definition slab (s : State) : option State :=
  s1 ← UpdateTimeSlabGeometry s;
  s2 ← SolveForTimeSlab (UpdateLinearSystems s1);
  FinalizeStep (advance s2).

(** [n] passes of the loop body. *)
Fixpoint slabs (n : nat) (s : State) : option State :=
  match n with
  | O => Some s
  | S n' => s' ← slab s; slabs n' s'
  end.

(** What holds at the head of the loop: the parameters hold the slab start
    and the step, the integrators are those of the notebook up to their
    domains. *)
Definition loop_inv (s : State) : Prop :=
  coef_told s = told s
  /\ coef_delta_t s = delta_t
  /\ map form (hasneg_integrators_f s) = map form hasneg_integrators_f0
  /\ map form (patch_integrators_a s) = map form patch_integrators_a0
  /\ map kind (patch_integrators_a s) = map kind patch_integrators_a0
  /\ map time_order (patch_integrators_a s) = map time_order patch_integrators_a0
  /\ map levelset_domain (patch_integrators_a s)
     = map levelset_domain patch_integrators_a0
  /\ map skeleton (patch_integrators_a s) = map skeleton patch_integrators_a0.

End Driver.
End SpaceTime.

(* ------------------------------------------------------------------ *)
(** ** MoL_TraceFEM.ipynb *)
(* ------------------------------------------------------------------ *)

Module TraceFEM.
Import Xfem Store.

Abbreviation Vector := (list Q).

Section Notebook.

Variable mesh : Mesh.
Variable zero_sign : Sign.

(** [VhG = H1(mesh, order=1, dirichlet=[])] *)
Variable VhG : FESpace.

(** [vel = 1] and [dt = 0.0025] in the source. *)
Variable vel : Q.
Variable dt : Q.

(** [levelset_function(t)], sampled at a vertex. *)
Variable levelset_function : Q -> nat -> Q.

(** What [BitArray(n)] holds before its first [Clear()]. *)
Variable junk : nat -> bool.

(** The assembly and solve of one step, from the geometry, the two element
    sets, the old solution and the dof mask. *)
Variable solve_step :
  Q -> GridFunction -> BitArray -> BitArray -> Vector -> BitArray -> Vector.

Definition BitArray_new (n : nat) : BitArray := map junk (seq 0 n).

(** <<
def UpdateBand(lset,offset,ba_band_IF):
   ba_band_IF.Clear()
   ba_band_IF_P = BitArray(ba_band_IF)
   ba_band_IF_P.Clear()
   ba_band_IF_M = BitArray(ba_band_IF)
   ba_band_IF_M.Clear()
   lset_approx_band = GridFunction(H1(mesh,order=1))
   InterpolateToP1(lset+offset,lset_approx_band)
   ci = CutInfo(mesh, lset_approx_band)
   ba_band_IF_P |= ci.GetElementsOfType(POS)
   ba_band_IF_P |= ci.GetElementsOfType(IF)
   InterpolateToP1(lset-offset,lset_approx_band)
   ci = CutInfo(mesh, lset_approx_band)
   ba_band_IF_M |= ci.GetElementsOfType(NEG)
   ba_band_IF_M |= ci.GetElementsOfType(IF)
   ba_band_IF |= ba_band_IF_P
   ba_band_IF &= ba_band_IF_M
   for i in range(mesh.ne):
      visband.vec[i] = ba_band_IF[i]
>>
    [ba_band_IF] is the caller's object, changed in place; the other two
    are new objects.  The result carries the new [visband]. *)
Definition UpdateBand (lset : nat -> Q) (offset : Q) (ba_band_IF : loc)
    (st : Store) : Store * Vector :=
  let st := Clear ba_band_IF st in
  let '(ba_band_IF_P, st) := copy ba_band_IF st in
  let st := Clear ba_band_IF_P st in
  let '(ba_band_IF_M, st) := copy ba_band_IF st in
  let st := Clear ba_band_IF_M st in
  let lset_approx_band := InterpolateToP1 mesh (fun x => lset x + offset) in
  let ci := CutInfo_of zero_sign mesh lset_approx_band in
  let st := ior ba_band_IF_P (GetElementsOfType ci CDOM_POS) st in
  let st := ior ba_band_IF_P (GetElementsOfType ci CDOM_IF) st in
  let lset_approx_band := InterpolateToP1 mesh (fun x => lset x - offset) in
  let ci := CutInfo_of zero_sign mesh lset_approx_band in
  let st := ior ba_band_IF_M (GetElementsOfType ci CDOM_NEG) st in
  let st := ior ba_band_IF_M (GetElementsOfType ci CDOM_IF) st in
  let st := ior ba_band_IF (load ba_band_IF_P st) st in
  let st := iand ba_band_IF (load ba_band_IF_M st) st in
  (st, map (fun i => if ba_get (load ba_band_IF st) i then 1 else 0)
           (seq 0 (ne mesh))).

(** The variables of the notebook. *)
Record State := {
  heap : Store;
  ba_band_IF : loc;
  visband : Vector;
  told : Q;
  t : Q;
  timestep : nat;
  lset_approx : GridFunction;
  ba_new_IF : BitArray;
  active_dofs : BitArray;
  gfu : Vector
}.

(** The cells before the loop: the three global BitArrays of [mesh.ne]
    bits, the first [UpdateBand(levelset_function(0),0.1,ba_band_IF)],
    [told = 0], [timestep = 0], the initial [gfu]. *)
Definition init (gfu0 : Vector) : State :=
  let '(band, st) := alloc (BitArray_new (ne mesh)) Store.empty in
  let '(_, st) := alloc (BitArray_new (ne mesh)) st in
  let '(_, st) := alloc (BitArray_new (ne mesh)) st in
  let '(st, vis) := UpdateBand (levelset_function 0) 0.1 band st in
  {| heap := st; ba_band_IF := band; visband := vis;
     told := 0; t := 0; timestep := 0;
     lset_approx := map (fun _ => 0) (seq 0 (nv mesh));
     ba_new_IF := []; active_dofs := [];
     gfu := gfu0 |}.

(** The body of the time loop:
<<
tnew = told + dt
t.Set(tnew)
InterpolateToP1(levelset_function(tnew),lset_approx)
ci = CutInfo(mesh, lset_approx)
ba_new_IF = ci.GetElementsOfType(IF)
UpdateBand(levelset_function(tnew),vel*dt,ba_band_IF)
InterpolateToP1(levelset_function(tnew),lset_approx)
active_dofs = BitArray(VhG.ndof)
active_dofs.Clear()
active_dofs |= GetDofsOfElements(VhG,ba_band_IF)
...
gfu.vec.data = a.mat.Inverse(active_dofs, inverse="umfpack") * f.vec
told = tnew
timestep += 1
>>
    The sum [told + dt] and the product [vel*dt] are taken exact here;
    [TraceFEMClock] below has the loop with the float ones. *)
Definition step (s : State) : State :=
  let tnew := told s + dt in
  let lset_approx' := InterpolateToP1 mesh (levelset_function tnew) in
  let ci := CutInfo_of zero_sign mesh lset_approx' in
  let ba_new_IF' := GetElementsOfType ci CDOM_IF in
  let '(st, vis) := UpdateBand (levelset_function tnew) (vel * dt) (ba_band_IF s) (heap s) in
  let band := load (ba_band_IF s) st in
  let active_dofs' :=
    ba_or (ba_clear (BitArray_new (ndof VhG))) (GetDofsOfElements VhG band) in
  {| heap := st; ba_band_IF := ba_band_IF s; visband := vis;
     told := tnew; t := tnew; timestep := S (timestep s);
     lset_approx := lset_approx';
     ba_new_IF := ba_new_IF';
     active_dofs := active_dofs';
     gfu := solve_step tnew lset_approx' band ba_new_IF' (gfu s) active_dofs' |}.

(** The state after [n] passes of the loop body. *)
Definition steps (n : nat) (s : State) : State := Nat.iter n step s.

(** The object [ba_band_IF] exists and has one bit per element. *)
Definition band_inv (s : State) : Prop :=
  (ba_band_IF s < fresh (heap s))%nat
  /\ length (load (ba_band_IF s) (heap s)) = ne mesh.

End Notebook.
End TraceFEM.

(* ------------------------------------------------------------------ *)
(** ** The clocks of the two time loops *)
(* ------------------------------------------------------------------ *)

(** Python's [float]: an IEEE 754 binary64 number; every operation rounds
    its exact result to the nearest float, ties to even.  The operations
    are those of the Standard Library's specification of binary64. *)
Module Float64.

Definition prec : Z := 53.
Definition emax : Z := 1024.

Abbreviation float := spec_float.

Definition add : float -> float -> float := SFadd prec emax.
Definition sub : float -> float -> float := SFsub prec emax.
Definition mul : float -> float -> float := SFmul prec emax.
Definition div : float -> float -> float := SFdiv prec emax.

(** [x < y] and [x > y]; both are false when an operand is not a number. *)
Definition ltb (x y : float) : bool := SFltb x y.
Definition gtb (x y : float) : bool := SFltb y x.

(** The float of a Python [int]. *)
Definition of_Z (n : Z) : float := binary_normalize prec emax n 0 false.

(** The float nearest to the fraction [p/q] of two integers below [2^53]:
    what [p/q] computes, and what a decimal literal such as [0.0025]
    ([25/10000]) denotes. *)
Definition of_ratio (p q : Z) : float := div (of_Z p) (of_Z q).

(** The number a float stands for; an infinity or a NaN stands for none
    and is given [0]. *)
Definition to_Q (x : float) : Q :=
  match x with
  | S754_finite s m e => inject_Z (cond_Zopp s (Zpos m)) * 2 ^ e
  | _ => 0
  end.

(** [t0] after [n] times [t = t + d]. *)
Definition accumulate (d : float) (n : nat) (t0 : float) : float :=
  Nat.iter n (fun t => add t d) t0.

End Float64.

(** The time loop of the space-time notebook with [told], [tend] and
    [delta_t] as the floats they are.  The rest of the state, and the
    library calls that read the time, take the number the float stands
    for. *)
Module SpaceTimeClock.
Import Xfem.

Section Driver.

Variable mesh : Mesh.
Variable zero_sign : Sign.
Variable st_fes : FESpace.
Variable levelset : Q -> nat -> Q.
Variable u_exact : Q -> nat -> Q.
Variable solver : SpaceTime.System -> BitArray -> SpaceTime.STGridFunction.
Variable l2error_of : GridFunction -> Q -> GridFunction -> Q.
Variable ci0 : CutInfo.

(** [tend = 1] and [delta_t = tend/32] in the source. *)
Variable tend : Float64.float.
Variable delta_t : Float64.float.

Record State := {
  told : Float64.float;
  notebook : SpaceTime.State
}.

(** [told = 0] and the cells before the loop. *)
Definition init : State :=
  {| told := Float64.of_Z 0;
     notebook := SpaceTime.init mesh u_exact ci0 (Float64.to_Q delta_t) |}.

(** The assignment [told = ...] followed by [coef_told.Set(told)]. *)
Definition set_told (told' : Q) (s : SpaceTime.State) : SpaceTime.State :=
  {| SpaceTime.told := told'; SpaceTime.coef_told := told';
     SpaceTime.coef_delta_t := SpaceTime.coef_delta_t s;
     SpaceTime.lset_p1 := SpaceTime.lset_p1 s;
     SpaceTime.lset_top := SpaceTime.lset_top s;
     SpaceTime.lset_bottom := SpaceTime.lset_bottom s;
     SpaceTime.ci := SpaceTime.ci s; SpaceTime.gfu := SpaceTime.gfu s;
     SpaceTime.u_last := SpaceTime.u_last s;
     SpaceTime.hasneg_integrators_a := SpaceTime.hasneg_integrators_a s;
     SpaceTime.hasneg_integrators_f := SpaceTime.hasneg_integrators_f s;
     SpaceTime.patch_integrators_a := SpaceTime.patch_integrators_a s;
     SpaceTime.assembled := SpaceTime.assembled s;
     SpaceTime.printed := SpaceTime.printed s |}.

(** The body of the time loop (lines 1394-1402):
<<
UpdateTimeSlabGeometry()
UpdateLinearSystems()
SolveForTimeSlab()
told = told + delta_t
coef_told.Set(told)
FinalizeStep()
>> *)
Definition slab (s : State) : option State :=
  s1 ← SpaceTime.UpdateTimeSlabGeometry mesh zero_sign levelset
         (Float64.to_Q delta_t) (notebook s);
  s2 ← SpaceTime.SolveForTimeSlab st_fes solver (SpaceTime.UpdateLinearSystems mesh s1);
  let told' := Float64.add (told s) delta_t in
  s3 ← SpaceTime.FinalizeStep l2error_of (set_told (Float64.to_Q told') s2);
  Some {| told := told'; notebook := s3 |}.

(** [n] passes of the loop body. *)
Fixpoint slabs (n : nat) (s : State) : option State :=
  match n with
  | O => Some s
  | S n' => s' ← slab s; slabs n' s'
  end.

(** [while tend - told > delta_t/2:] *)
Definition guard (s : State) : bool :=
  Float64.gtb (Float64.sub tend (told s)) (Float64.div delta_t (Float64.of_Z 2)).

Definition time_loop (fuel : nat) (s : State) : Outcome State :=
  while_loop fuel guard slab s.

End Driver.
End SpaceTimeClock.

(** The time loop of MoL_TraceFEM.ipynb with [told], [dt], [T] and [vel]
    as floats. *)
Module TraceFEMClock.
Import Xfem Store.

Section Notebook.

Variable mesh : Mesh.
Variable zero_sign : Sign.
Variable VhG : FESpace.
Variable levelset_function : Q -> nat -> Q.
Variable junk : nat -> bool.
Variable solve_step :
  Q -> GridFunction -> BitArray -> BitArray -> TraceFEM.Vector -> BitArray
  -> TraceFEM.Vector.

(** [vel = 1], [dt = 0.0025] and [T = 0.2/vel] in the source. *)
Variable vel : Float64.float.
Variable dt : Float64.float.
Variable T : Float64.float.

Record State := {
  told : Float64.float;
  notebook : TraceFEM.State
}.

(** [told = 0], [timestep = 0] and the cells before the loop. *)
Definition init (gfu0 : TraceFEM.Vector) : State :=
  {| told := Float64.of_Z 0;
     notebook := TraceFEM.init mesh zero_sign levelset_function junk gfu0 |}.

(** The body of the time loop (lines 285-326) after [tnew = told + dt],
    for the numbers [tnew] and [offset = vel*dt]:
<<
t.Set(tnew)
InterpolateToP1(levelset_function(tnew),lset_approx)
ci = CutInfo(mesh, lset_approx)
ba_new_IF = ci.GetElementsOfType(IF)
UpdateBand(levelset_function(tnew),vel*dt,ba_band_IF)
InterpolateToP1(levelset_function(tnew),lset_approx)
active_dofs = BitArray(VhG.ndof)
active_dofs.Clear()
active_dofs |= GetDofsOfElements(VhG,ba_band_IF)
...
gfu.vec.data = a.mat.Inverse(active_dofs, inverse="umfpack") * f.vec
told = tnew
timestep += 1
>> *)
Definition step_at (tnew offset : Q) (s : TraceFEM.State) : TraceFEM.State :=
  let lset_approx' := InterpolateToP1 mesh (levelset_function tnew) in
  let ci := CutInfo_of zero_sign mesh lset_approx' in
  let ba_new_IF' := GetElementsOfType ci CDOM_IF in
  let '(st, vis) :=
    TraceFEM.UpdateBand mesh zero_sign (levelset_function tnew) offset
      (TraceFEM.ba_band_IF s) (TraceFEM.heap s) in
  let band := load (TraceFEM.ba_band_IF s) st in
  let active_dofs' :=
    ba_or (ba_clear (TraceFEM.BitArray_new junk (ndof VhG)))
          (GetDofsOfElements VhG band) in
  {| TraceFEM.heap := st; TraceFEM.ba_band_IF := TraceFEM.ba_band_IF s;
     TraceFEM.visband := vis;
     TraceFEM.told := tnew; TraceFEM.t := tnew;
     TraceFEM.timestep := S (TraceFEM.timestep s);
     TraceFEM.lset_approx := lset_approx';
     TraceFEM.ba_new_IF := ba_new_IF';
     TraceFEM.active_dofs := active_dofs';
     TraceFEM.gfu :=
       solve_step tnew lset_approx' band ba_new_IF' (TraceFEM.gfu s) active_dofs' |}.

Definition step (s : State) : State :=
  let tnew := Float64.add (told s) dt in
  {| told := tnew;
     notebook := step_at (Float64.to_Q tnew) (Float64.to_Q (Float64.mul vel dt))
                         (notebook s) |}.

(** [while (told < T-dt/2):] *)
Definition guard (s : State) : bool :=
  Float64.ltb (told s) (Float64.sub T (Float64.div dt (Float64.of_Z 2))).

Definition time_loop (fuel : nat) (s : State) : Outcome State :=
  while_loop fuel guard (fun s => Some (step s)) s.

End Notebook.
End TraceFEMClock.

(* ------------------------------------------------------------------ *)
(** ** Pointwise values of the forms *)
(* ------------------------------------------------------------------ *)

(** The value of a gradient or of a normal at a point of the plane mesh.
    Between two vectors the [*] of a CoefficientFunction is the inner
    product, between a scalar and a vector the scaling. *)
Module Vec2.

Abbreviation Vec := (Q * Q)%type.

Definition dotp (a b : Vec) : Q := fst a * fst b + snd a * snd b.
Definition scale (c : Q) (a : Vec) : Vec := (c * fst a, c * snd a).
Definition vsub (a b : Vec) : Vec := (fst a - fst b, snd a - snd b).

(** Equality of the components as numbers. *)
Definition veq (a b : Vec) : Prop := fst a == fst b /\ snd a == snd b.

End Vec2.

(** Python's [a / b] on numbers: it raises on a zero divisor; the quotient
    is taken exact. *)
Definition py_div (a b : Q) : option Q :=
  if Qeq_bool b 0 then None else Some (a / b).

(** Python's built-in [sum(xs)]: from [0], left to right. *)
Definition py_sum (xs : list Q) : Q := fold_left Qplus xs 0.

(* ------------------------------------------------------------------ *)
(** ** CutFEM.ipynb: the Nitsche formulation *)
(* ------------------------------------------------------------------ *)

Module CutFEMForms.
Import Vec2.

(** What the coefficients are at one point of the interface or of a cut
    element: the normal [n], the mesh size [h] and the cut ratio
    [CutRatioGF(ci)] of the element. *)
Record Point := {
  n : Vec;
  h : Q;
  CutRatioGF : Q
}.

(** A trial or test function of [VhG = FESpace([Vh,Vh])] at that point: the
    values and the gradients of its two components. *)
Record Function := {
  val : nat -> Q;
  grad : nat -> Vec
}.

(** [alpha = [1.0,2.0]] (line 238), read at the indices 0 and 1. *)
Definition alpha (i : nat) : Q := nth i [1; 2] 0.

(** [kappa = (CutRatioGF(ci),1.0-CutRatioGF(ci))] (line 502) *)
Definition kappa (p : Point) (i : nat) : Q :=
  nth i [CutRatioGF p; 1 - CutRatioGF p] 0.

(** [stab = 20*(alpha[1]+alpha[0])/h] (line 504) *)
Definition stab (p : Point) : Q := 20 * (alpha 1 + alpha 0) / h p.

(** [average_flux_u = sum([- kappa[i] * alpha[i] * gradu[i] * n for i in [0,1]])]
    (lines 537-538) *)
Definition average_flux (p : Point) (w : Function) : Q :=
  py_sum (map (fun i => dotp (scale (- kappa p i * alpha i) (grad w i)) (n p))
              [0; 1]%nat).

(** The integrands of the bilinear form (lines 626-627, 659-660, 691):
<<
a += SymbolicBFI(levelset_domain = lset_neg, form = alpha[0] * gradu[0] * gradv[0])
a += SymbolicBFI(levelset_domain = lset_pos, form = alpha[1] * gradu[1] * gradv[1])
a += SymbolicBFI(levelset_domain = lset_if, form = average_flux_u * (v[0]-v[1])
                                                 + average_flux_v * (u[0]-u[1]))
a += SymbolicBFI(levelset_domain = lset_if , form = stab * (u[0]-u[1]) * (v[0]-v[1]))
>> *)
Definition form_neg (u v : Function) : Q :=
  dotp (scale (alpha 0) (grad u 0)) (grad v 0).
Definition form_pos (u v : Function) : Q :=
  dotp (scale (alpha 1) (grad u 1)) (grad v 1).
Definition form_nitsche (p : Point) (u v : Function) : Q :=
  average_flux p u * (val v 0 - val v 1) + average_flux p v * (val u 0 - val u 1).
Definition form_stab (p : Point) (u v : Function) : Q :=
  stab p * (val u 0 - val u 1) * (val v 0 - val v 1).

End CutFEMForms.

(* ------------------------------------------------------------------ *)
(** ** intlset.ipynb: errors and convergence orders *)
(* ------------------------------------------------------------------ *)

Module IntLsetPost.

Section Post.

(** [from math import pi] and the [log] in scope in the notebook. *)
Variable pi : Q.
Variable log : Q -> Q.

(** [[log(errors[i+1]/errors[i])/log(0.5) for i in range(len(errors)-1)]]
    (line 234); every index it reads is in range. *)
Definition eoc_of (errors : list Q) : option (list Q) :=
  mapM (fun i => q ← py_div (nth (i + 1) errors 0) (nth i errors 0);
                 py_div (log q) (log 0.5))
       (seq 0 (length errors - 1)).

(** <<
def AppendResultAndPostProcess(integral):
    error = abs(integral - pi)
    errors.append(error)
    eoc = [log(errors[i+1]/errors[i])/log(0.5) for i in range(len(errors)-1)]
>>
    (lines 228-237, the prints left out).  The result is the list [errors]
    as the call leaves it and the orders, [None] if computing them
    raised. *)
Definition AppendResultAndPostProcess (integral : Q) (errors : list Q)
    : list Q * option (list Q) :=
  let error := Qabs (integral - pi) in
  let errors := errors ++ [error] in
  (errors, eoc_of errors).

(** [[log(a/b)/log(2) for (a,b) in zip(errors[0:-1], errors[1:])]], the
    right-hand side of [eoc_curved[key]] and [eoc_uncurved[key]] (lines
    470-471). *)
Definition eoc_table (errors : list Q) : option (list Q) :=
  mapM (fun ab => q ← py_div (fst ab) (snd ab); py_div (log q) (log 2))
       (zip (removelast errors) (tail errors)).

End Post.
End IntLsetPost.

(* ------------------------------------------------------------------ *)
(** ** MoL_TraceFEM.ipynb: the forms of one time step *)
(* ------------------------------------------------------------------ *)

Module TraceFEMForms.
Import Vec2.

(** What the coefficients are at one point of the band: the normal [n],
    the mesh size [h], the velocity [w = velocity_function(tnew)] and the
    two divergence terms [divGw] and [divGwT]. *)
Record Point := {
  n : Vec;
  h : Q;
  w : Vec;
  divGw : Q;
  divGwT : Q
}.

(** A trial or test function at that point. *)
Record Function := {
  val : Q;
  grad : Vec
}.

(** <<
def P(u):
    return u - (u*n)*n
>>
    (lines 149-150) *)
Definition P (n : Vec) (u : Vec) : Vec := vsub u (scale (dotp u n) n).

(** [nu = 2*R*R] with [R = 0.5] (lines 87 and 251). *)
Definition R : Q := 0.5.
Definition nu : Q := 2 * R * R.

(** The integrand on the interface (lines 307-312):
<<
dt * (divGw-0.5*divGwT)*u*v
+ dt * nu * P(grad(u)) * P(grad(v))
+ dt * 0.5*P(w)*P(grad(u))*v - dt * 0.5*P(w)*P(grad(v))*u
+ u * v
>> *)
Definition form_if (dt nu : Q) (p : Point) (u v : Function) : Q :=
  dt * (divGw p - 0.5 * divGwT p) * val u * val v
  + dotp (scale (dt * nu) (P (n p) (grad u))) (P (n p) (grad v))
  + dotp (scale (dt * 0.5) (P (n p) (w p))) (P (n p) (grad u)) * val v
  - dotp (scale (dt * 0.5) (P (n p) (w p))) (P (n p) (grad v)) * val u
  + val u * val v.

(** [rho = (vel + nu/h)] and the integrand on the band,
    [dt*rho*(grad(u)*n)*(grad(v)*n)] (lines 313-314). *)
Definition rho (vel nu : Q) (p : Point) : Q := vel + nu / h p.
Definition form_band (dt vel nu : Q) (p : Point) (u v : Function) : Q :=
  dt * rho vel nu p * dotp (grad u) (n p) * dotp (grad v) (n p).

End TraceFEMForms.

(* ------------------------------------------------------------------ *)
(** ** Exchanging the trial and the test function *)
(* ------------------------------------------------------------------ *)

Module SpaceTimeForms.
Import SpaceTime.

Definition swap (f : FieldName) : FieldName :=
  match f with
  | u => v
  | v => u
  | f => f
  end.

(** The environment in which [u] reads what [v] read and vice versa. *)
Definition swap_uv (env : Env) : Env :=
  {| coef_delta_t_val := coef_delta_t_val env;
     h_val := h_val env;
     field := fun f => field env (swap f);
     field_dt := fun f => field_dt env (swap f);
     field_grad_grad := fun f g => field_grad_grad env (swap f) (swap g);
     field_w_grad := fun f => field_w_grad env (swap f) |}.

End SpaceTimeForms.

(* ------------------------------------------------------------------ *)
(** ** A small instance *)
(* ------------------------------------------------------------------ *)

(** Two triangles that share an edge, P1 elements on them, and data of
    the right sizes; used to run the drivers on a concrete input. *)
Module Example.
Import Xfem Store.

Definition mesh2 : Mesh :=
  {| nv := 4;
     elements := [[0; 1; 2]; [1; 2; 3]]%nat;
     facets := [[0]; [0]; [0; 1]; [1]; [1]]%nat |}.

Definition P1 : FESpace :=
  {| ndof := 4;
     el_dofs := [[0; 1; 2]; [1; 2; 3]]%nat;
     dirichlet := fun d => Nat.eqb d 0 |}.

(** A level set that cuts the first triangle only. *)
Definition lset : GridFunction := [-1; 1; 1; 2].
Definition lset_fun (x : nat) : Q := gf_at lset x.
Definition st_lset : SpaceTime.STGridFunction := [(-1, 1); (1, 1); (1, 2); (2, 2)].

Definition identity (n : nat) : CutFEM.Matrix :=
  map (fun i => map (fun j => if Nat.eqb i j then 1 else 0) (seq 0 n)) (seq 0 n).

Definition assemble_a (_ : bool) : CutFEM.Matrix := identity 8.
Definition assemble_f (_ : bool) : CutFEM.Vector := map (fun _ => 1) (seq 0 8).
Definition solver : CutFEM.BlockSolver := fun _ _ rhs => rhs.

(** A state of the CutFEM notebook with two dofs, the second one not
    free. *)
Definition two_dofs : CutFEM.State :=
  {| CutFEM.heap := snd (alloc [true; false] Store.empty);
     CutFEM.VhG_free := 0%nat;
     CutFEM.ci := {| classes := [] |};
     CutFEM.freedofs := 0%nat;
     CutFEM.gfu := [1; 2];
     CutFEM.a_mat := identity 2;
     CutFEM.f_vec := [3; 4];
     CutFEM.deformed := false;
     CutFEM.trace := [] |}.

Definition st_solver (_ : SpaceTime.System) (_ : BitArray)
    : SpaceTime.STGridFunction := [(0, 1); (0, 1); (0, 1); (0, 1)].

Definition no_ci : CutInfo := {| classes := [] |}.

End Example.

(** Points and functions at which the forms are evaluated, and a function
    in the place of [log] that does not vanish at [2] and at [0.5]. *)
Module FormExample.

Definition cut_point : CutFEMForms.Point :=
  {| CutFEMForms.n := (1, 0); CutFEMForms.h := 1 # 5;
     CutFEMForms.CutRatioGF := 1 # 4 |}.

Definition cut_fn : CutFEMForms.Function :=
  {| CutFEMForms.val := fun i => nth i [3; 1] 0;
     CutFEMForms.grad := fun i => nth i [(1, 2); (2, -1)] (0, 0) |}.

Definition band_point : TraceFEMForms.Point :=
  {| TraceFEMForms.n := (3 # 5, 4 # 5); TraceFEMForms.h := 1 # 8;
     TraceFEMForms.w := (1, 0);
     TraceFEMForms.divGw := 0; TraceFEMForms.divGwT := -4 |}.

Definition band_fn : TraceFEMForms.Function :=
  {| TraceFEMForms.val := 2; TraceFEMForms.grad := (1, 1) |}.

Definition toy_log (q : Q) : Q := q - / q.

End FormExample.

(* ================================================================== *)
(** * Part II: properties *)
(* ================================================================== *)

(** ** Numbers and loops *)

Lemma Qlt_bool_iff (x y : Q) : Qlt_bool x y = true <-> x < y.
Proof.
  unfold Qlt_bool. rewrite negb_true_iff. split.
  - intros H. apply Qnot_le_lt. intros Hle.
    apply Qle_bool_iff in Hle. congruence.
  - intros H. destruct (Qle_bool y x) eqn:E; [|reflexivity].
    apply Qle_bool_iff in E. exfalso. apply (Qlt_not_le _ _ H E).
Qed.

Lemma Qlt_bool_false (x y : Q) : Qlt_bool x y = false <-> y <= x.
Proof.
  unfold Qlt_bool. rewrite negb_false_iff. apply Qle_bool_iff.
Qed.

(** A loop whose guard reads a float clock and whose body moves the clock
    one step [d] ahead, counts one pass more and does not raise: it makes
    [n] passes and ends exactly when [n] is the first index at which the
    guard fails on the clock after [n] additions of [d]. *)
Section ClockLoop.

Context {S : Type}.
Variable clock : S -> Float64.float.
Variable count : S -> nat.
Variable cond : S -> bool.
Variable body : S -> option S.
Variable d : Float64.float.
Variable go_on : Float64.float -> bool.

Hypothesis cond_spec : forall s, cond s = go_on (clock s).
Hypothesis body_spec :
  forall s, exists s', body s = Some s'
                       /\ clock s' = Float64.add (clock s) d
                       /\ count s' = Datatypes.S (count s).

Lemma accumulate_shift (n : nat) (t : Float64.float) :
  Float64.accumulate d n (Float64.add t d) = Float64.accumulate d (Datatypes.S n) t.
Proof.
  unfold Float64.accumulate. symmetry.
  apply (Nat.iter_succ_r n (fun x => Float64.add x d)).
Qed.

Lemma clock_loop_runs :
  forall n s,
    (forall k, (k < n)%nat -> go_on (Float64.accumulate d k (clock s)) = true) ->
    go_on (Float64.accumulate d n (clock s)) = false ->
    exists s',
      (forall fuel, (n < fuel)%nat -> while_loop fuel cond body s = Finished s')
      /\ clock s' = Float64.accumulate d n (clock s)
      /\ count s' = (count s + n)%nat.
Proof.
  induction n as [|n IH]; intros s Hgo Hstop.
  - exists s. split; [|split; [reflexivity|lia]].
    intros [|fuel] Hf; [lia|]. cbn [while_loop].
    rewrite cond_spec. cbn in Hstop. rewrite Hstop. reflexivity.
  - destruct (body_spec s) as (s1 & Hb & Hc & Hn).
    destruct (IH s1) as (s' & Hrun & Hclk & Hcnt).
    + intros k Hk. rewrite Hc, accumulate_shift. apply Hgo. lia.
    + rewrite Hc, accumulate_shift. exact Hstop.
    + exists s'. split; [|split].
      * intros [|fuel] Hf; [lia|]. cbn [while_loop].
        rewrite cond_spec. specialize (Hgo 0%nat ltac:(lia)). cbn in Hgo.
        rewrite Hgo, Hb. apply Hrun. lia.
      * rewrite Hclk, Hc. apply accumulate_shift.
      * rewrite Hcnt, Hn. lia.
Qed.



(** A clock that the step no longer moves while the guard holds: the loop
    does not end. *)
Lemma clock_loop_stuck :
  forall fuel s,
    Float64.add (clock s) d = clock s ->
    go_on (clock s) = true ->
    while_loop fuel cond body s = OutOfFuel.
Proof.
  induction fuel as [|fuel IH]; intros s Hadd Hgo; [reflexivity|].
  cbn [while_loop]. rewrite cond_spec, Hgo.
  destruct (body_spec s) as (s1 & Hb & Hc & _). rewrite Hb.
  apply IH; rewrite Hc, Hadd; assumption.
Qed.

End ClockLoop.

(** ** The space-time driver *)

Section SpaceTimeFacts.
Import Xfem.

Variable mesh : Mesh.
Variable zero_sign : Sign.
Variable st_fes : FESpace.
Variable levelset : Q -> nat -> Q.
Variable u_exact : Q -> nat -> Q.
Variable solver : SpaceTime.System -> BitArray -> SpaceTime.STGridFunction.
Variable l2error_of : GridFunction -> Q -> GridFunction -> Q.
Variable ci0 : CutInfo.
Variable delta_t : Q.

Local Abbreviation slab :=
  (SpaceTime.slab mesh zero_sign st_fes levelset solver l2error_of delta_t).
Local Abbreviation slabs :=
  (SpaceTime.slabs mesh zero_sign st_fes levelset solver l2error_of delta_t).
Local Abbreviation st_init := (SpaceTime.init mesh u_exact ci0 delta_t).
Local Abbreviation loop_inv := (SpaceTime.loop_inv delta_t).

(** Reading the fields of a state that is written out. *)
Ltac st_proj :=
  cbn [SpaceTime.told SpaceTime.coef_told SpaceTime.coef_delta_t
       SpaceTime.lset_p1 SpaceTime.lset_top SpaceTime.lset_bottom SpaceTime.ci
       SpaceTime.gfu SpaceTime.u_last SpaceTime.hasneg_integrators_a
       SpaceTime.hasneg_integrators_f SpaceTime.patch_integrators_a
       SpaceTime.assembled SpaceTime.printed
       SpaceTime.sys_a SpaceTime.sys_f SpaceTime.sys_coef_told
       SpaceTime.sys_coef_delta_t SpaceTime.sys_lset_p1 SpaceTime.sys_lset_top
       SpaceTime.sys_lset_bottom SpaceTime.sys_u_last
       mbind option_bind].

Lemma RestrictGFInTime_0 (gf : SpaceTime.STGridFunction) :
  SpaceTime.RestrictGFInTime gf 0
  = Some (map (fun c => (1 - 0) * fst c + 0 * snd c) gf).
Proof. reflexivity. Qed.

Lemma RestrictGFInTime_1 (gf : SpaceTime.STGridFunction) :
  SpaceTime.RestrictGFInTime gf 1
  = Some (map (fun c => (1 - 1) * fst c + 1 * snd c) gf).
Proof. reflexivity. Qed.

(** One pass of the body of the space-time loop never raises; this is
    what it leaves. *)
Lemma slab_effect (s : SpaceTime.State) :
  exists s' sys,
    slab s = Some s'
    /\ SpaceTime.assembled s' = Some sys
    /\ SpaceTime.told s' = SpaceTime.told s + delta_t
    /\ SpaceTime.coef_told s' = SpaceTime.told s + delta_t
    /\ SpaceTime.coef_delta_t s' = SpaceTime.coef_delta_t s
    /\ length (SpaceTime.printed s') = Datatypes.S (length (SpaceTime.printed s))
    /\ SpaceTime.ci s'
       = SpaceTime.CutInfo_Update zero_sign mesh
           (SpaceTime.SpaceTimeInterpolateToP1 mesh levelset (SpaceTime.told s) delta_t)
    /\ SpaceTime.hasneg_integrators_a s'
       = map (SpaceTime.SetDefinedOnElements
                (GetElementsOfType (SpaceTime.ci s') HASNEG))
             (SpaceTime.hasneg_integrators_a s)
    /\ SpaceTime.hasneg_integrators_f s'
       = map (SpaceTime.SetDefinedOnElements
                (GetElementsOfType (SpaceTime.ci s') HASNEG))
             (SpaceTime.hasneg_integrators_f s)
    /\ SpaceTime.patch_integrators_a s'
       = map (SpaceTime.SetDefinedOnElements
                (SpaceTime.ba_facets_of mesh (SpaceTime.ci s')))
             (SpaceTime.patch_integrators_a s)
    /\ SpaceTime.sys_a sys
       = SpaceTime.hasneg_integrators_a s' ++ SpaceTime.patch_integrators_a s'
    /\ SpaceTime.sys_f sys = SpaceTime.hasneg_integrators_f s'
    /\ SpaceTime.sys_u_last sys = SpaceTime.u_last s
    /\ SpaceTime.sys_coef_told sys = SpaceTime.coef_told s
    /\ SpaceTime.sys_coef_delta_t sys = SpaceTime.coef_delta_t s
    /\ SpaceTime.gfu s'
       = solver sys (GetDofsOfElements st_fes
                       (GetElementsOfType (SpaceTime.ci s') HASNEG))
    /\ SpaceTime.RestrictGFInTime (SpaceTime.gfu s') 1 = Some (SpaceTime.u_last s').
Proof.
  destruct s.
  unfold SpaceTime.slab, SpaceTime.UpdateTimeSlabGeometry.
  rewrite RestrictGFInTime_0, RestrictGFInTime_1. st_proj.
  unfold SpaceTime.UpdateLinearSystems. st_proj.
  unfold SpaceTime.SolveForTimeSlab. st_proj.
  unfold SpaceTime.advance. st_proj.
  unfold SpaceTime.FinalizeStep. st_proj.
  rewrite RestrictGFInTime_1. st_proj.
  eexists. eexists. split; [reflexivity|]. st_proj.
  split; [reflexivity|]. st_proj.
  repeat (split; [reflexivity|]).
  split; [rewrite length_app; simpl; lia|].
  repeat (split; [reflexivity|]). reflexivity.
Qed.

Lemma map_SetDefinedOnElements {A : Type} (f : SpaceTime.Integrator -> A)
    (ba : BitArray) (l : list SpaceTime.Integrator) :
  (forall i, f (SpaceTime.SetDefinedOnElements ba i) = f i) ->
  map f (map (SpaceTime.SetDefinedOnElements ba) l) = map f l.
Proof.
  intros Hf. rewrite map_map. apply map_ext. exact Hf.
Qed.

Lemma init_loop_inv : loop_inv st_init.
Proof. unfold SpaceTime.loop_inv. repeat split; reflexivity. Qed.

Lemma slab_loop_inv (s s' : SpaceTime.State) :
  slab s = Some s' -> loop_inv s -> loop_inv s'.
Proof.
  intros Hs (H1 & H2 & H3 & H4 & H5 & H6 & H7 & H8).
  destruct (slab_effect s)
    as (s1 & sys & E & _ & Ht & Hc & Hd & _ & _ & _ & Hf & Hp & _).
  rewrite Hs in E. injection E as <-.
  unfold SpaceTime.loop_inv. rewrite Ht, Hc, Hd, Hf, Hp.
  rewrite !map_SetDefinedOnElements by reflexivity.
  repeat split; assumption.
Qed.

(** Any number of passes of the loop body run without raising. *)
Lemma slabs_run (n : nat) (s : SpaceTime.State) :
  loop_inv s -> exists s', slabs n s = Some s' /\ loop_inv s'.
Proof.
  revert s. induction n as [|n IH]; intros s Hs; cbn [SpaceTime.slabs].
  - exists s. split; [reflexivity|exact Hs].
  - destruct (slab_effect s) as (s1 & sys & E & _).
    rewrite E. cbn [mbind option_bind].
    apply IH. eapply slab_loop_inv; eassumption.
Qed.

(** The last of [n + 1] passes is a pass from the state after [n]. *)
Lemma slabs_snoc (n : nat) (s : SpaceTime.State) :
  slabs (Datatypes.S n) s
  = match slabs n s with
    | Some s' => slab s'
    | None => None
    end.
Proof.
  revert s. induction n as [|n IH]; intros s.
  - cbn [SpaceTime.slabs]. destruct (slab s); reflexivity.
  - change (slabs (Datatypes.S (Datatypes.S n)) s)
      with (match slab s with
            | Some s' => slabs (Datatypes.S n) s'
            | None => None
            end).
    change (slabs (Datatypes.S n) s)
      with (match slab s with
            | Some s' => slabs n s'
            | None => None
            end).
    destruct (slab s) as [s1|]; [apply IH|reflexivity].
Qed.

(** The restricted field has the values of the space-time field at the
    reference time. *)
Lemma RestrictGFInTime_values (gf : SpaceTime.STGridFunction) (tr : Q)
    (r : GridFunction) (x : nat) :
  SpaceTime.RestrictGFInTime gf tr = Some r ->
  gf_at r x == SpaceTime.st_eval gf x tr.
Proof.
  unfold SpaceTime.RestrictGFInTime. destruct (_ && _); [|discriminate].
  intros [= <-]. unfold gf_at, SpaceTime.st_eval. rewrite list_lookup_fmap.
  destruct (gf !! x) as [[c0 c1]|]; simpl; lra.
Qed.

(** C5. For every time slab of the loop (the one after [k] passes of the
    body, and the next): [FinalizeStep] restricts the slab solution [gfu]
    at reference time 1 into [u_last]; the assembly of the next slab reads
    that very field as its bottom datum; its values are those of the slab
    solution at reference time 1, so the bottom integrand
    [u_last*fix_t(v,0)] of the next slab is the top trace of the solution
    times the test function at reference time 0; and reference time 0 of
    the next slab is the same physical instant as reference time 1 of this
    one. *)
Theorem slab_round_trip (k : nat) :
  exists s0 s1 s2 sys1 sys2,
    slabs k st_init = Some s0
    /\ slab s0 = Some s1 /\ slab s1 = Some s2
    /\ SpaceTime.assembled s1 = Some sys1
    /\ SpaceTime.assembled s2 = Some sys2
    /\ SpaceTime.gfu s1
       = solver sys1 (GetDofsOfElements st_fes
                        (GetElementsOfType (SpaceTime.ci s1) HASNEG))
    /\ SpaceTime.RestrictGFInTime (SpaceTime.gfu s1) 1 = Some (SpaceTime.u_last s1)
    /\ SpaceTime.sys_u_last sys2 = SpaceTime.u_last s1
    /\ (forall x, gf_at (SpaceTime.sys_u_last sys2) x
                  == SpaceTime.st_eval (SpaceTime.gfu s1) x 1)
    /\ (exists i, In i (SpaceTime.sys_f sys2)
                  /\ SpaceTime.form i = SpaceTime.bottom_form)
    /\ (forall base x uh vh p,
          SpaceTime.eval (SpaceTime.env_at base sys2 x uh vh) p SpaceTime.bottom_form
          == SpaceTime.st_eval (SpaceTime.gfu s1) x 1 * SpaceTime.st_eval vh x 0)
    /\ SpaceTime.t (SpaceTime.sys_coef_told sys2) (SpaceTime.sys_coef_delta_t sys2) 0
       == SpaceTime.t (SpaceTime.sys_coef_told sys1)
                      (SpaceTime.sys_coef_delta_t sys1) 1.
Proof.
  destruct (slabs_run k st_init init_loop_inv) as (s0 & Hk & Hinv0).
  destruct (slab_effect s0)
    as (s1 & sys1 & E1 & A1 & Ht1 & Hc1 & Hd1 & _ & _ & _ & _ & _ & _ & _
        & _ & Hst1 & Hsd1 & Hg1 & Hr1).
  pose proof (slab_loop_inv s0 s1 E1 Hinv0) as Hinv1.
  destruct (slab_effect s1)
    as (s2 & sys2 & E2 & A2 & Ht2 & Hc2 & Hd2 & _ & _ & _ & Hf2 & _ & _ & Hsf2
        & Hu2 & Hst2 & Hsd2 & _ & _).
  destruct Hinv0 as (I01 & I02 & _). destruct Hinv1 as (I11 & I12 & I13 & _).
  assert (Hval : forall x, gf_at (SpaceTime.sys_u_last sys2) x
                           == SpaceTime.st_eval (SpaceTime.gfu s1) x 1).
  { intros x. rewrite Hu2. apply RestrictGFInTime_values, Hr1. }
  exists s0, s1, s2, sys1, sys2.
  repeat (split; [assumption|]).
  split.
  { assert (Hforms : map SpaceTime.form (SpaceTime.sys_f sys2)
                     = map SpaceTime.form SpaceTime.hasneg_integrators_f0).
    { rewrite Hsf2, Hf2, map_SetDefinedOnElements by reflexivity. exact I13. }
    assert (Hin : In SpaceTime.bottom_form (map SpaceTime.form (SpaceTime.sys_f sys2))).
    { rewrite Hforms. simpl. right. left. reflexivity. }
    apply in_map_iff in Hin. destruct Hin as (i & Hi1 & Hi2).
    exists i. split; assumption. }
  split.
  { intros base x uh vh p. simpl. rewrite Hval. reflexivity. }
  rewrite Hst2, Hsd2, Hst1, Hsd1, I11, Ht1, I12, I01, I02.
  unfold SpaceTime.t. lra.
Qed.

(** The facets [GetFacetsWithNeighborTypes] marks. *)
Lemma GetFacetsWithNeighborTypes_spec (a b : BitArray) (f : nat) :
  ba_get (GetFacetsWithNeighborTypes mesh a b) f = true
  <-> exists e1 e2,
        facets mesh !! f = Some [e1; e2]
        /\ ((ba_get a e1 = true /\ ba_get b e2 = true)
            \/ (ba_get a e2 = true /\ ba_get b e1 = true)).
Proof.
  unfold GetFacetsWithNeighborTypes, ba_get at 1. rewrite list_lookup_fmap.
  destruct (facets mesh !! f) as [adj|]; simpl.
  - destruct adj as [|e1 [|e2 [|e3 adj]]]; simpl.
    + split; [discriminate|]. intros (? & ? & [=] & _).
    + split; [discriminate|]. intros (? & ? & [=] & _).
    + rewrite orb_true_iff, !andb_true_iff. split.
      * intros H. exists e1, e2. split; [reflexivity|exact H].
      * intros (? & ? & [= <- <-] & H). exact H.
    + split; [discriminate|]. intros (? & ? & [=] & _).
  - split; [discriminate|]. intros (? & ? & [=] & _).
Qed.

(** The jump penalty is the same seen from either side of the facet, and
    vanishes where the trial function has no jump. *)
Lemma patch_form_symmetric (env : SpaceTime.Env) (p : SpaceTime.Point) :
  SpaceTime.eval env
    {| SpaceTime.other_side := negb (SpaceTime.other_side p);
       SpaceTime.tref := SpaceTime.tref p |} SpaceTime.patch_form
  == SpaceTime.eval env p SpaceTime.patch_form.
Proof.
  destruct p as [b tr]. simpl. rewrite negb_involutive. ring.
Qed.

(** C4. For every classification (any state [s] of the driver),
    [UpdateLinearSystems] defines the ghost-penalty integrator on exactly
    the BitArray [GetFacetsWithNeighborTypes(mesh, a = HASNEG elements,
    b = IF elements)], so it is evaluated on a facet iff the facet is in
    it; a facet is in it iff it has two adjacent elements,
    one in [a] and the other in [b] or vice versa; the integrator is the
    facet-patch form that the assembled bilinear form contains; its
    integrand is the jump [(u - u.Other())*(v - v.Other())] times the
    weight 0.05, times [h^(-2)] and times [coef_delta_t]; it is integrated
    over the reference time interval ([time_order = 2*k_t]) and in every
    slab of the loop [coef_delta_t] is the slab length [delta_t]. *)
Theorem ghost_penalty_domain_and_form (s : SpaceTime.State) (k : nat) :
  let s' := SpaceTime.UpdateLinearSystems mesh s in
  let a := GetElementsOfType (SpaceTime.ci s) HASNEG in
  let b := GetElementsOfType (SpaceTime.ci s) CDOM_IF in
  let ba_facets := GetFacetsWithNeighborTypes mesh a b in
  Forall (fun i => SpaceTime.definedonelements i = Some ba_facets
                   /\ forall f, SpaceTime.defined_on i f = ba_get ba_facets f)
         (SpaceTime.patch_integrators_a s')
  /\ (exists sys, SpaceTime.assembled s' = Some sys
                  /\ SpaceTime.sys_a sys
                     = SpaceTime.hasneg_integrators_a s'
                       ++ SpaceTime.patch_integrators_a s')
  /\ (forall f, ba_get ba_facets f = true
                <-> exists e1 e2,
                      facets mesh !! f = Some [e1; e2]
                      /\ ((ba_get a e1 = true /\ ba_get b e2 = true)
                          \/ (ba_get a e2 = true /\ ba_get b e1 = true)))
  /\ (forall env p,
        SpaceTime.eval env p SpaceTime.patch_form
        == SpaceTime.coef_delta_t_val env * (1 # 20)
           * / (SpaceTime.h_val env * SpaceTime.h_val env)
           * (SpaceTime.field env SpaceTime.u p
              - SpaceTime.field env SpaceTime.u
                  {| SpaceTime.other_side := negb (SpaceTime.other_side p);
                     SpaceTime.tref := SpaceTime.tref p |})
           * (SpaceTime.field env SpaceTime.v p
              - SpaceTime.field env SpaceTime.v
                  {| SpaceTime.other_side := negb (SpaceTime.other_side p);
                     SpaceTime.tref := SpaceTime.tref p |}))
  /\ (exists sk sys,
        slabs (Datatypes.S k) st_init = Some sk
        /\ SpaceTime.assembled sk = Some sys
        /\ SpaceTime.sys_coef_delta_t sys = delta_t
        /\ exists ia,
             SpaceTime.sys_a sys
             = ia ++ [ {| SpaceTime.kind := SpaceTime.SymbolicFacetPatchBFI;
                          SpaceTime.levelset_domain := None;
                          SpaceTime.form := SpaceTime.patch_form;
                          SpaceTime.time_order := Some (2 * SpaceTime.k_t)%nat;
                          SpaceTime.skeleton := Some false;
                          SpaceTime.definedonelements :=
                            Some (SpaceTime.ba_facets_of mesh (SpaceTime.ci sk)) |} ]).
Proof.
  intros s' a b ba_facets.
  split.
  { unfold s', SpaceTime.UpdateLinearSystems. cbn [SpaceTime.patch_integrators_a].
    apply List.Forall_forall. intros i Hi. apply in_map_iff in Hi.
    destruct Hi as (i0 & <- & _). split; reflexivity. }
  split.
  { eexists. split; reflexivity. }
  split; [apply GetFacetsWithNeighborTypes_spec|].
  split.
  { intros env p. simpl. change 0.05 with (5 # 100).
    destruct (SpaceTime.h_val env) as [hn hd].
    assert (E : (5 # 100) == (1 # 20)) by reflexivity. rewrite E.
    unfold Qpower. simpl. reflexivity. }
  destruct (slabs_run k st_init init_loop_inv) as (s0 & Hk & Hinv0).
  destruct (slab_effect s0)
    as (sk & sys & E & A & _ & _ & Hd & _ & _ & _ & _ & Hp & Hsa & _ & _ & _
        & Hsd & _).
  destruct Hinv0 as (_ & I2 & _ & I4 & I5 & I6 & I7 & I8).
  exists sk, sys.
  split; [rewrite slabs_snoc, Hk; exact E|].
  split; [exact A|]. split; [rewrite Hsd; exact I2|].
  exists (SpaceTime.hasneg_integrators_a sk). rewrite Hsa, Hp. f_equal.
  destruct (SpaceTime.patch_integrators_a s0) as [|i [|i' l]]; try discriminate.
  destruct i as [ki ld fo to ske de]. simpl in I4, I5, I6, I7, I8.
  injection I4 as ->. injection I5 as ->. injection I6 as ->. injection I7 as ->.
  injection I8 as ->.
  reflexivity.
Qed.

End SpaceTimeFacts.

(** ** The slab loops and their clocks *)

Section SlabLoops.
Import Xfem.

Variable mesh : Mesh.
Variable zero_sign : Sign.

(** The space-time notebook. *)
Variable st_fes : FESpace.
Variable levelset : Q -> nat -> Q.
Variable u_exact : Q -> nat -> Q.
Variable solver : SpaceTime.System -> BitArray -> SpaceTime.STGridFunction.
Variable l2error_of : GridFunction -> Q -> GridFunction -> Q.
Variable ci0 : CutInfo.

(** The TraceFEM notebook. *)
Variable VhG : FESpace.
Variable levelset_function : Q -> nat -> Q.
Variable junk : nat -> bool.
Variable solve_step :
  Q -> GridFunction -> BitArray -> BitArray -> TraceFEM.Vector -> BitArray
  -> TraceFEM.Vector.
Variable gfu0 : TraceFEM.Vector.

Local Abbreviation st_slab :=
  (SpaceTimeClock.slab mesh zero_sign st_fes levelset solver l2error_of).
Local Abbreviation st_slabs :=
  (SpaceTimeClock.slabs mesh zero_sign st_fes levelset solver l2error_of).
Local Abbreviation st_loop :=
  (SpaceTimeClock.time_loop mesh zero_sign st_fes levelset solver l2error_of).
Local Abbreviation st_init := (SpaceTimeClock.init mesh u_exact ci0).
Local Abbreviation tr_step :=
  (TraceFEMClock.step mesh zero_sign VhG levelset_function junk solve_step).
Local Abbreviation tr_loop :=
  (TraceFEMClock.time_loop mesh zero_sign VhG levelset_function junk solve_step).
Local Abbreviation tr_init :=
  (TraceFEMClock.init mesh zero_sign levelset_function junk gfu0).
Local Abbreviation lines :=
  (fun s : SpaceTimeClock.State =>
     length (SpaceTime.printed (SpaceTimeClock.notebook s))).
Local Abbreviation timesteps :=
  (fun s : TraceFEMClock.State => TraceFEM.timestep (TraceFEMClock.notebook s)).

Ltac clock_proj :=
  cbn [SpaceTimeClock.told SpaceTimeClock.notebook
       SpaceTime.told SpaceTime.coef_told SpaceTime.coef_delta_t
       SpaceTime.lset_p1 SpaceTime.lset_top SpaceTime.lset_bottom SpaceTime.ci
       SpaceTime.gfu SpaceTime.u_last SpaceTime.hasneg_integrators_a
       SpaceTime.hasneg_integrators_f SpaceTime.patch_integrators_a
       SpaceTime.assembled SpaceTime.printed
       mbind option_bind].

(** One pass of the body of the space-time loop: it does not raise, moves
    [told] one float addition ahead and prints one line, the new time and
    the error at that time. *)
Lemma st_slab_spec (delta_t : Float64.float) (s : SpaceTimeClock.State) :
  exists s',
    st_slab delta_t s = Some s'
    /\ SpaceTimeClock.told s' = Float64.add (SpaceTimeClock.told s) delta_t
    /\ SpaceTime.told (SpaceTimeClock.notebook s')
       = Float64.to_Q (SpaceTimeClock.told s')
    /\ SpaceTime.coef_told (SpaceTimeClock.notebook s')
       = Float64.to_Q (SpaceTimeClock.told s')
    /\ SpaceTime.printed (SpaceTimeClock.notebook s')
       = SpaceTime.printed (SpaceTimeClock.notebook s)
         ++ [(Float64.to_Q (SpaceTimeClock.told s'),
              l2error_of (SpaceTime.lset_top (SpaceTimeClock.notebook s'))
                         (Float64.to_Q (SpaceTimeClock.told s'))
                         (SpaceTime.u_last (SpaceTimeClock.notebook s')))]
    /\ SpaceTime.RestrictGFInTime (SpaceTime.gfu (SpaceTimeClock.notebook s')) 1
       = Some (SpaceTime.u_last (SpaceTimeClock.notebook s')).
Proof.
  destruct s as [t nb]. destruct nb.
  unfold SpaceTimeClock.slab, SpaceTime.UpdateTimeSlabGeometry. clock_proj.
  rewrite RestrictGFInTime_0, RestrictGFInTime_1. clock_proj.
  unfold SpaceTime.UpdateLinearSystems. clock_proj.
  unfold SpaceTime.SolveForTimeSlab. clock_proj.
  unfold SpaceTimeClock.set_told. clock_proj.
  unfold SpaceTime.FinalizeStep. clock_proj.
  rewrite RestrictGFInTime_1. clock_proj.
  eexists. split; [reflexivity|]. clock_proj.
  repeat (split; [reflexivity|]). apply RestrictGFInTime_1.
Qed.

Lemma st_body_spec (delta_t : Float64.float) (s : SpaceTimeClock.State) :
  exists s',
    st_slab delta_t s = Some s'
    /\ SpaceTimeClock.told s' = Float64.add (SpaceTimeClock.told s) delta_t
    /\ lines s' = Datatypes.S (lines s).
Proof.
  destruct (st_slab_spec delta_t s) as (s' & E & T & _ & _ & P & _).
  exists s'. split; [exact E|]. split; [exact T|].
  rewrite P, length_app. cbn [length]. lia.
Qed.



(** With exact sums in the place of the float ones the two bodies are
    those of [SpaceTime] and [TraceFEM]. *)
Lemma set_told_exact (delta_t : Q) (s : SpaceTime.State) :
  SpaceTimeClock.set_told (SpaceTime.told s + delta_t) s = SpaceTime.advance delta_t s.
Proof. reflexivity. Qed.

Lemma step_at_exact (vel dt : Q) (s : TraceFEM.State) :
  TraceFEMClock.step_at mesh zero_sign VhG levelset_function junk solve_step
    (TraceFEM.told s + dt) (vel * dt) s
  = TraceFEM.step mesh zero_sign VhG vel dt levelset_function junk solve_step s.
Proof. reflexivity. Qed.


(** The two loops as loops on a float clock. *)
Lemma st_loop_runs (tend delta_t : Float64.float) (n : nat) :
  let go_on t :=
    Float64.gtb (Float64.sub tend t) (Float64.div delta_t (Float64.of_Z 2)) in
  let clock k := Float64.accumulate delta_t k (Float64.of_Z 0) in
  (forall k, (k < n)%nat -> go_on (clock k) = true) ->
  go_on (clock n) = false ->
  exists s',
    (forall fuel, (n < fuel)%nat ->
                  st_loop tend delta_t fuel (st_init delta_t) = Finished s')
    /\ SpaceTimeClock.told s' = clock n
    /\ lines s' = n.
Proof.
  intros go_on clock Hgo Hstop.
  destruct (clock_loop_runs SpaceTimeClock.told lines
              (SpaceTimeClock.guard tend delta_t) (st_slab delta_t) delta_t go_on
              (fun s => eq_refl) (st_body_spec delta_t) n (st_init delta_t) Hgo Hstop)
    as (s' & Hrun & Hclk & Hcnt).
  exists s'. split; [exact Hrun|]. split; [exact Hclk|exact Hcnt].
Qed.







End SlabLoops.

(** ** BitArrays and the store *)

Section BitArrayFacts.
Import Xfem Store.

Lemma ba_get_and (a b : BitArray) (i : nat) :
  ba_get (ba_and a b) i = ba_get a i && ba_get b i.
Proof.
  unfold ba_get, ba_and. rewrite lookup_zip_with.
  destruct (a !! i) as [x|], (b !! i) as [y|]; simpl; try reflexivity.
  destruct x; reflexivity.
Qed.

Lemma ba_get_or (a b : BitArray) (i : nat) :
  length a = length b ->
  ba_get (ba_or a b) i = ba_get a i || ba_get b i.
Proof.
  intros Hlen. unfold ba_get, ba_or. rewrite lookup_zip_with.
  destruct (a !! i) as [x|] eqn:Ha, (b !! i) as [y|] eqn:Hb; simpl; try reflexivity.
  - apply lookup_lt_Some in Ha. apply lookup_ge_None in Hb. lia.
  - apply lookup_lt_Some in Hb. apply lookup_ge_None in Ha. lia.
Qed.

Lemma ba_and_length (a b : BitArray) :
  length a = length b -> length (ba_and a b) = length a.
Proof. intros H. unfold ba_and. rewrite length_zip_with. lia. Qed.

Lemma ba_or_length (a b : BitArray) :
  length a = length b -> length (ba_or a b) = length a.
Proof. intros H. unfold ba_or. rewrite length_zip_with. lia. Qed.

Lemma ba_clear_length (a : BitArray) : length (ba_clear a) = length a.
Proof. unfold ba_clear. apply length_map. Qed.

Lemma ba_get_clear (a : BitArray) (i : nat) : ba_get (ba_clear a) i = false.
Proof.
  unfold ba_get, ba_clear. rewrite list_lookup_fmap.
  destruct (a !! i); reflexivity.
Qed.

Lemma ba_subset_and_l (a b : BitArray) : ba_subset (ba_and a b) a.
Proof.
  intros i. rewrite ba_get_and. intros H. apply andb_true_iff in H. tauto.
Qed.

Lemma ba_subset_trans (a b c : BitArray) :
  ba_subset a b -> ba_subset b c -> ba_subset a c.
Proof. intros H1 H2 i Hi. apply H2, H1, Hi. Qed.

Lemma load_store_eq (l : loc) (ba : BitArray) (st : Store) :
  load l (store l ba st) = ba.
Proof. unfold load, store. simpl. rewrite lookup_insert_eq. reflexivity. Qed.

Lemma load_store_ne (l l' : loc) (ba : BitArray) (st : Store) :
  l <> l' -> load l' (store l ba st) = load l' st.
Proof.
  intros H. unfold load, store. simpl. rewrite lookup_insert_ne by exact H.
  reflexivity.
Qed.

Lemma load_iand (l : loc) (ba : BitArray) (st : Store) :
  load l (iand l ba st) = ba_and (load l st) ba.
Proof. unfold iand. apply load_store_eq. Qed.

Lemma load_ior (l : loc) (ba : BitArray) (st : Store) :
  load l (ior l ba st) = ba_or (load l st) ba.
Proof. unfold ior. apply load_store_eq. Qed.

Lemma load_Clear (l : loc) (st : Store) :
  load l (Clear l st) = ba_clear (load l st).
Proof. unfold Clear. apply load_store_eq. Qed.

Lemma load_alloc (ba : BitArray) (st : Store) :
  load (fst (alloc ba st)) (snd (alloc ba st)) = ba.
Proof. unfold alloc, load. simpl. rewrite lookup_insert_eq. reflexivity. Qed.

Lemma load_alloc_ne (l : loc) (ba : BitArray) (st : Store) :
  (l < fresh st)%nat -> load l (snd (alloc ba st)) = load l st.
Proof.
  intros H. unfold alloc, load. simpl. rewrite lookup_insert_ne by lia.
  reflexivity.
Qed.

End BitArrayFacts.

(** ** CutFEM: the free dofs and the solve *)

Section CutFEMFacts.
Import Xfem Store Deformation.

Variable mesh : Mesh.
Variable zero_sign : Sign.
Variable Vh : FESpace.
Variable solution1 : nat -> Q.
Variable assemble_a : bool -> CutFEM.Matrix.
Variable assemble_f : bool -> CutFEM.Vector.
Variable solver : CutFEM.BlockSolver.

Local Abbreviation bc_mask := (CutFEM.bc_mask Vh).
Local Abbreviation start := (CutFEM.cut_fe_space mesh).

Local Abbreviation freedofs_of := CutFEM.freedofs_of.

Lemma free_dofs_setup_freedofs (s : CutFEM.State) :
  CutFEM.freedofs (CutFEM.free_dofs_setup Vh s) = CutFEM.VhG_free s
  /\ CutFEM.VhG_free (CutFEM.free_dofs_setup Vh s) = CutFEM.VhG_free s
  /\ freedofs_of (CutFEM.free_dofs_setup Vh s)
     = ba_and (load (CutFEM.VhG_free s) (CutFEM.heap s))
              (CutFEM.activity_mask Vh (CutFEM.ci s)).
Proof.
  unfold freedofs_of, CutFEM.free_dofs_setup. simpl.
  split; [reflexivity|]. split; [reflexivity|]. apply load_iand.
Qed.

(** Executing the cell "Free dofs setup" again keeps [freedofs] the array of
    [VhG], and only
    ever removes dofs from it. *)
Lemma free_dofs_setup_again_shrinks (lsets : list GridFunction) (s : CutFEM.State) :
  CutFEM.freedofs s = CutFEM.VhG_free s ->
  let s' := CutFEM.free_dofs_setup_again mesh zero_sign Vh lsets s in
  CutFEM.freedofs s' = CutFEM.VhG_free s'
  /\ ba_subset (freedofs_of s') (freedofs_of s).
Proof.
  revert s. induction lsets as [|lset lsets IH]; intros s Hs; simpl.
  - split; [exact Hs|]. intros i Hi. exact Hi.
  - set (s1 := CutFEM.free_dofs_setup Vh (CutFEM.update_ci mesh zero_sign lset s)).
    destruct (free_dofs_setup_freedofs (CutFEM.update_ci mesh zero_sign lset s))
      as (Hf & Hv & Hl).
    fold s1 in Hf, Hv, Hl.
    destruct (IH s1) as [IH1 IH2]; [congruence|].
    split; [exact IH1|].
    eapply ba_subset_trans; [exact IH2|].
    rewrite Hl. unfold freedofs_of. rewrite Hs. simpl. apply ba_subset_and_l.
Qed.

(** The mask after the cells up to "Assemble", for any level set. *)
Lemma notebook_freedofs (lsetp1 : GridFunction) :
  freedofs_of (CutFEM.assemble_cell Vh solution1 assemble_a assemble_f
                 (CutFEM.free_dofs_setup Vh (start lsetp1 zero_sign Vh)))
  = ba_and bc_mask (CutFEM.activity_mask Vh (CutInfo_of zero_sign mesh lsetp1)).
Proof.
  destruct (free_dofs_setup_freedofs (start lsetp1 zero_sign Vh)) as (Hf & Hv & Hl).
  unfold freedofs_of. simpl. unfold freedofs_of in Hl. simpl in Hl.
  rewrite Hl. unfold load. simpl. rewrite lookup_insert_eq. reflexivity.
Qed.

(** C3. Whatever the classification (any level set [lsetp1], any zero
    convention), the mask [freedofs] that the notebook passes to the linear
    solve -- [VhG.FreeDofs()] combined in place with the compound activity
    mask of the HASNEG and HASPOS elements -- is the bitwise intersection of
    the boundary-condition mask of [VhG] and the activity mask, hence a
    subset of the boundary-condition mask.  [freedofs] is the array of
    [VhG] itself, and executing the cell again after any changes of the
    level set keeps it a subset of the boundary-condition mask. *)
Theorem freedofs_is_intersection (lsetp1 : GridFunction) :
  let s := CutFEM.assemble_cell Vh solution1 assemble_a assemble_f
             (CutFEM.free_dofs_setup Vh (start lsetp1 zero_sign Vh)) in
  let activity := CutFEM.activity_mask Vh (CutInfo_of zero_sign mesh lsetp1) in
  freedofs_of s = ba_and bc_mask activity
  /\ (forall i, ba_get (freedofs_of s) i = ba_get bc_mask i && ba_get activity i)
  /\ ba_subset (freedofs_of s) bc_mask
  /\ freedofs_of s = load (CutFEM.VhG_free s) (CutFEM.heap s)
  /\ (forall lsets,
        ba_subset (freedofs_of (CutFEM.free_dofs_setup_again mesh zero_sign Vh lsets s))
                  bc_mask).
Proof.
  intros s activity.
  assert (Hs : freedofs_of s = ba_and bc_mask activity)
    by apply notebook_freedofs.
  assert (Hsub : ba_subset (freedofs_of s) bc_mask).
  { rewrite Hs. apply ba_subset_and_l. }
  split; [exact Hs|]. split; [intros i; rewrite Hs; apply ba_get_and|].
  split; [exact Hsub|]. split; [reflexivity|].
  intros lsets.
  destruct (free_dofs_setup_again_shrinks lsets s) as [_ H]; [reflexivity|].
  eapply ba_subset_trans; [exact H|exact Hsub].
Qed.

Lemma vec_at_project (free : BitArray) (x : CutFEM.Vector) (i : nat) :
  CutFEM.vec_at (CutFEM.project free x) i
  = if ba_get free i then CutFEM.vec_at x i else 0.
Proof.
  unfold CutFEM.vec_at, CutFEM.project. rewrite list_lookup_imap.
  destruct (x !! i); simpl; destruct (ba_get free i); reflexivity.
Qed.

Lemma vec_add_spec (x y z : CutFEM.Vector) :
  CutFEM.vec_add x y = Some z ->
  length z = length x
  /\ forall i, CutFEM.vec_at z i == CutFEM.vec_at x i + CutFEM.vec_at y i.
Proof.
  unfold CutFEM.vec_add. destruct (Nat.eqb_spec (length x) (length y)) as [Hl|];
    [|discriminate].
  intros [= <-]. split; [rewrite length_zip_with; lia|].
  intros i. unfold CutFEM.vec_at. rewrite lookup_zip_with.
  destruct (x !! i) as [a|] eqn:Hx, (y !! i) as [b|] eqn:Hy; simpl; try lra.
  - apply lookup_lt_Some in Hx. apply lookup_ge_None in Hy. lia.
  - apply lookup_lt_Some in Hy. apply lookup_ge_None in Hx. lia.
Qed.

(** The update [Inverse(freedofs) * rhs] vanishes outside the mask. *)
Lemma Inverse_vanishes (A : CutFEM.Matrix) (free : BitArray)
    (rhs update : CutFEM.Vector) (i : nat) :
  CutFEM.Inverse solver A free rhs = Some update ->
  ba_get free i = false ->
  CutFEM.vec_at update i = 0.
Proof.
  unfold CutFEM.Inverse. destruct (Nat.eqb _ _); [|discriminate].
  intros [= <-] Hi. rewrite vec_at_project, Hi. reflexivity.
Qed.

(** The solve leaves every dof outside [freedofs] as it was. *)
Lemma SolveLinearSystem_outside (s s' : CutFEM.State) :
  CutFEM.SolveLinearSystem solver s = Some s' ->
  length (CutFEM.gfu s') = length (CutFEM.gfu s)
  /\ CutFEM.heap s' = CutFEM.heap s
  /\ CutFEM.freedofs s' = CutFEM.freedofs s
  /\ forall i, ba_get (freedofs_of s) i = false ->
               CutFEM.vec_at (CutFEM.gfu s') i == CutFEM.vec_at (CutFEM.gfu s) i.
Proof.
  unfold CutFEM.SolveLinearSystem, freedofs_of.
  destruct (CutFEM.mat_vec _ _) as [a_gfu|]; [|discriminate].
  cbn [mbind option_bind].
  destruct (CutFEM.vec_sub _ _) as [rhs|]; [|discriminate]. cbn [mbind option_bind].
  destruct (CutFEM.Inverse _ _ _ _) as [update|] eqn:Hinv; [|discriminate].
  cbn [mbind option_bind].
  destruct (CutFEM.vec_add _ _) as [gfu'|] eqn:Hadd; [|discriminate].
  cbn [mbind option_bind]. intros [= <-]. cbn.
  destruct (vec_add_spec _ _ _ Hadd) as [Hlen Hval].
  split; [exact Hlen|]. split; [reflexivity|]. split; [reflexivity|].
  intros i Hi. rewrite Hval, (Inverse_vanishes _ _ _ _ _ Hinv Hi). lra.
Qed.

(** A Dirichlet dof of component 1 is outside the boundary-condition mask
    of [VhG]. *)
Lemma bc_mask_dirichlet (d : nat) :
  (d < ndof Vh)%nat -> dirichlet Vh d = true ->
  ba_get bc_mask (ndof Vh + d) = false.
Proof.
  intros Hd Hdir. unfold CutFEM.bc_mask, CompoundBitArray, ba_get. simpl.
  rewrite app_nil_r.
  assert (Hlen : length (FreeDofs Vh) = ndof Vh).
  { unfold FreeDofs. rewrite length_map, length_seq. reflexivity. }
  rewrite lookup_app_r by lia. rewrite Hlen.
  replace (ndof Vh + d - ndof Vh)%nat with d by lia.
  unfold FreeDofs. rewrite list_lookup_fmap, lookup_seq_lt by exact Hd.
  simpl. rewrite Hdir. reflexivity.
Qed.

(** What [gfu.components[1].Set(solution[1], BND)] wrote there. *)
Lemma gfu_with_bnd_dirichlet (d : nat) :
  (d < ndof Vh)%nat -> dirichlet Vh d = true ->
  CutFEM.vec_at (CutFEM.gfu_with_bnd Vh solution1) (ndof Vh + d) = solution1 d.
Proof.
  intros Hd Hdir. unfold CutFEM.gfu_with_bnd, CutFEM.vec_at.
  rewrite lookup_app_r by (rewrite length_map, length_seq; lia).
  rewrite length_map, length_seq.
  replace (ndof Vh + d - ndof Vh)%nat with d by lia.
  rewrite list_lookup_fmap, lookup_seq_lt by exact Hd.
  simpl. rewrite Hdir. reflexivity.
Qed.

Lemma not_free_outside (s : CutFEM.State) (i : nat) :
  ba_subset (freedofs_of s) bc_mask ->
  ba_get bc_mask i = false ->
  ba_get (freedofs_of s) i = false.
Proof.
  intros Hsub Hi. destruct (ba_get (freedofs_of s) i) eqn:E; [|reflexivity].
  apply Hsub in E. congruence.
Qed.

(** The solve keeps the Dirichlet dofs of component 1 when [freedofs] is
    inside the boundary-condition mask, and keeps [freedofs]. *)
Lemma SolveLinearSystem_dirichlet (s s' : CutFEM.State) :
  CutFEM.SolveLinearSystem solver s = Some s' ->
  ba_subset (freedofs_of s) bc_mask ->
  freedofs_of s' = freedofs_of s
  /\ forall d, (d < ndof Vh)%nat -> dirichlet Vh d = true ->
               CutFEM.vec_at (CutFEM.gfu s') (ndof Vh + d)
               == CutFEM.vec_at (CutFEM.gfu s) (ndof Vh + d).
Proof.
  intros Hsolve Hsub.
  destruct (SolveLinearSystem_outside s s' Hsolve) as (Hlen & Hheap & Hfree & Hout).
  split; [unfold freedofs_of; rewrite Hheap, Hfree; reflexivity|].
  intros d Hd Hdir. apply Hout.
  apply not_free_outside; [exact Hsub|]. apply bc_mask_dirichlet; assumption.
Qed.

(** C10. [SolveLinearSystem] changes [gfu] only at dofs marked in
    [freedofs]: the update it adds is [Inverse(freedofs)] applied to the
    residual and is zero at every other dof.  So, [freedofs] being a subset
    of the boundary-condition mask, the Dirichlet values written into
    component 1 of [gfu] before the call are left unchanged, as are all
    other entries at inactive dofs; and when the notebook has run through
    both of its solves, [gfu] still holds the boundary datum
    [solution[1]] at every Dirichlet dof of component 1. *)
Theorem SolveLinearSystem_frame (s s' : CutFEM.State) :
  CutFEM.SolveLinearSystem solver s = Some s' ->
  (forall i, ba_get (freedofs_of s) i = false ->
             CutFEM.vec_at (CutFEM.gfu s') i == CutFEM.vec_at (CutFEM.gfu s) i)
  /\ length (CutFEM.gfu s') = length (CutFEM.gfu s)
  /\ freedofs_of s' = freedofs_of s
  /\ (ba_subset (freedofs_of s) bc_mask ->
      forall d, (d < ndof Vh)%nat -> dirichlet Vh d = true ->
                CutFEM.vec_at (CutFEM.gfu s') (ndof Vh + d)
                == CutFEM.vec_at (CutFEM.gfu s) (ndof Vh + d))
  /\ (forall lsetp1 final,
        CutFEM.run mesh lsetp1 zero_sign Vh solution1 assemble_a assemble_f solver
        = Some final ->
        forall d, (d < ndof Vh)%nat -> dirichlet Vh d = true ->
                  CutFEM.vec_at (CutFEM.gfu final) (ndof Vh + d) == solution1 d).
Proof.
  intros Hsolve.
  destruct (SolveLinearSystem_outside s s' Hsolve) as (Hlen & Hheap & Hfree & Hout).
  split; [exact Hout|]. split; [exact Hlen|].
  split; [unfold freedofs_of; rewrite Hheap, Hfree; reflexivity|].
  split; [intros Hsub; apply (SolveLinearSystem_dirichlet s s' Hsolve Hsub)|].
  clear. intros lsetp1 final. unfold CutFEM.run.
  set (s0 := CutFEM.assemble_cell Vh solution1 assemble_a assemble_f
               (CutFEM.free_dofs_setup Vh (start lsetp1 zero_sign Vh))).
  assert (Hsub0 : ba_subset (freedofs_of s0) bc_mask).
  { unfold s0. rewrite notebook_freedofs. apply ba_subset_and_l. }
  assert (Hg0 : CutFEM.gfu s0 = CutFEM.gfu_with_bnd Vh solution1) by reflexivity.
  destruct (CutFEM.SolveLinearSystem solver s0) as [s1|] eqn:H1; [|discriminate].
  cbn [mbind option_bind]. unfold CutFEM.high_order_geometry.
  set (s2 := CutFEM.Assemble_a_f assemble_a assemble_f true
               (CutFEM.log [CalcDeformation; SetDeformation]
                  (CutFEM.ComputeError false s1))).
  destruct (CutFEM.SolveLinearSystem solver s2) as [s3|] eqn:H3; [|discriminate].
  cbn [mbind option_bind]. intros [= <-] d Hd Hdir.
  destruct (SolveLinearSystem_dirichlet s0 s1 H1 Hsub0) as [Hf1 Hd1].
  assert (Hsub2 : ba_subset (freedofs_of s2) bc_mask).
  { replace (freedofs_of s2) with (freedofs_of s1) by reflexivity.
    rewrite Hf1. exact Hsub0. }
  destruct (SolveLinearSystem_dirichlet s2 s3 H3 Hsub2) as [_ Hd3].
  replace (CutFEM.gfu (CutFEM.log [UnsetDeformation] (CutFEM.ComputeError true s3)))
    with (CutFEM.gfu s3) by reflexivity.
  rewrite (Hd3 d Hd Hdir).
  replace (CutFEM.gfu s2) with (CutFEM.gfu s1) by reflexivity.
  rewrite (Hd1 d Hd Hdir), Hg0, gfu_with_bnd_dirichlet by assumption.
  reflexivity.
Qed.

End CutFEMFacts.

(** ** The set / unset discipline of the mesh deformation *)

Section DeformationFacts.
Import Xfem Deformation.

Lemma monitor_app (t1 t2 : list Event) :
  forall a,
    monitor a (t1 ++ t2)
    = match monitor a t1 with
      | Some a' => monitor a' t2
      | None => None
      end.
Proof.
  induction t1 as [|e t1 IH]; intros a; simpl; [reflexivity|].
  destruct (allowed a e); [apply IH|reflexivity].
Qed.

(** A monitored sequence, cut at one of its calls. *)
Lemma monitor_split (pre post : list Event) (e : Event) :
  forall a r,
    monitor a (pre ++ e :: post) = Some r ->
    monitor a pre = Some (fold_left step pre a)
    /\ allowed (fold_left step pre a) e = true
    /\ monitor (step (fold_left step pre a) e) post = Some r.
Proof.
  induction pre as [|e0 pre IH]; intros a r H; simpl in *.
  - destruct (allowed a e); [|discriminate]. repeat split; assumption.
  - destruct (allowed a e0); [|discriminate]. apply IH, H.
Qed.

(** From a set deformation the monitor only comes back through an
    [UnsetDeformation], with neither a topology change nor a second
    [SetDeformation] before it. *)
Lemma monitor_unset (tr : list Event) :
  monitor true tr = Some false ->
  exists mid post',
    tr = mid ++ UnsetDeformation :: post'
    /\ Forall (fun e => changes_topology e = false /\ e <> SetDeformation) mid.
Proof.
  induction tr as [|e tr IH]; simpl; [discriminate|].
  destruct (allowed true e) eqn:Hal; [|discriminate].
  destruct e; simpl in Hal; try discriminate; simpl; intros H.
  - destruct (IH H) as (mid & post' & -> & Hmid).
    exists (CalcDeformation :: mid), post'. split; [reflexivity|].
    constructor; [split; [reflexivity|discriminate]|exact Hmid].
  - exists [], tr. split; [reflexivity|constructor].
  - destruct (IH H) as (mid & post' & -> & Hmid).
    exists (Integrate key curved :: mid), post'. split; [reflexivity|].
    constructor; [split; [reflexivity|discriminate]|exact Hmid].
  - destruct (IH H) as (mid & post' & -> & Hmid).
    exists (Assemble curved :: mid), post'. split; [reflexivity|].
    constructor; [split; [reflexivity|discriminate]|exact Hmid].
Qed.

Lemma monitor_disciplined (tr : list Event) :
  monitor false tr = Some false -> disciplined tr.
Proof.
  intros H. unfold disciplined, active_after. repeat split.
  - intros pre e post -> Htop.
    destruct (monitor_split _ _ _ _ _ H) as (_ & Hal & _).
    destruct (fold_left step pre false); [|reflexivity].
    destruct e; simpl in *; discriminate.
  - intros pre e post -> Hc.
    destruct (monitor_split _ _ _ _ _ H) as (_ & Hal & _).
    destruct (fold_left step pre false); [reflexivity|].
    destruct e; simpl in *; try discriminate; subst; discriminate.
  - intros pre post ->.
    destruct (monitor_split _ _ _ _ _ H) as (_ & Hal & Hpost).
    simpl in Hpost. apply monitor_unset, Hpost.
Qed.

(** A [for] loop keeps what each pass keeps. *)
Lemma for_each_keeps {A S : Type} (I : S -> Prop) (body : A -> S -> S)
    (xs : list A) :
  (forall x s, I s -> I (body x s)) ->
  forall s, I s -> I (for_each xs body s).
Proof.
  intros Hbody. unfold for_each.
  induction xs as [|x xs IH]; intros s Hs; simpl; [exact Hs|].
  apply IH, Hbody, Hs.
Qed.

Section IntLsetFacts.

Variable pi : Q.
Variable Integrate_val : nat -> DOMAIN_TYPE -> bool -> Q.

Local Abbreviation computed_on := (IntLset.computed_on pi Integrate_val).

Local Abbreviation driver_inv := (IntLset.driver_inv pi Integrate_val).

Lemma append_at_Forall (P : DOMAIN_TYPE -> Q -> Prop)
    (d : DOMAIN_TYPE -> list Q) (key : DOMAIN_TYPE) (x : Q) :
  (forall k, Forall (P k) (d k)) -> P key x ->
  forall k, Forall (P k) (IntLset.append_at d key x k).
Proof.
  intros Hd Hx k. unfold IntLset.append_at.
  destruct (IntLset.DOMAIN_TYPE_eqb k key) eqn:E; [|apply Hd].
  assert (k = key) as -> by (destruct k, key; simpl in E; congruence).
  apply Forall_app. split; [apply Hd|]. constructor; [exact Hx|constructor].
Qed.

Lemma key_body_keeps (key : DOMAIN_TYPE) (s : IntLset.State) :
  driver_inv s -> driver_inv (IntLset.key_body pi Integrate_val key s).
Proof.
  destruct s as [lvl def ec eu tr]. unfold IntLset.driver_inv. simpl.
  intros (Hm & -> & Hc & Hu). simpl.
  split.
  { rewrite !monitor_app, Hm. reflexivity. }
  split; [reflexivity|]. split.
  - apply append_at_Forall; [exact Hc|]. exists lvl. reflexivity.
  - apply append_at_Forall; [exact Hu|]. exists lvl. reflexivity.
Qed.

Lemma mesh_Refine_keeps (s : IntLset.State) :
  driver_inv s -> driver_inv (IntLset.mesh_Refine s).
Proof.
  destruct s as [lvl def ec eu tr]. unfold IntLset.driver_inv. simpl.
  intros (Hm & -> & Hc & Hu).
  split; [rewrite monitor_app, Hm; reflexivity|].
  split; [reflexivity|]. split; assumption.
Qed.

Lemma RefineAtLevelSet_keeps (s : IntLset.State) :
  driver_inv s -> driver_inv (IntLset.emit RefineAtLevelSet s).
Proof.
  destruct s as [lvl def ec eu tr]. unfold IntLset.driver_inv. simpl.
  intros (Hm & -> & Hc & Hu).
  split; [rewrite monitor_app, Hm; reflexivity|].
  split; [reflexivity|]. split; assumption.
Qed.

Lemma reflevel_body_keeps (reflevel : nat) (s : IntLset.State) :
  driver_inv s -> driver_inv (IntLset.reflevel_body pi Integrate_val reflevel s).
Proof.
  intros Hs. unfold IntLset.reflevel_body.
  apply RefineAtLevelSet_keeps.
  apply for_each_keeps; [apply key_body_keeps|].
  destruct (Nat.ltb 0 reflevel); [apply mesh_Refine_keeps|]; exact Hs.
Qed.

Lemma first_cells_monitor (reruns : nat) :
  monitor false (IntLset.first_cells reruns ++ [NewMesh]) = Some false.
Proof.
  unfold IntLset.first_cells. rewrite <- !app_assoc. simpl.
  induction reruns as [|n IH]; simpl; [reflexivity|exact IH].
Qed.

Lemma run_inv (reruns refinements : nat) :
  driver_inv (IntLset.run pi Integrate_val reruns refinements).
Proof.
  unfold IntLset.run, IntLset.refinement_driver.
  apply for_each_keeps; [apply reflevel_body_keeps|].
  unfold IntLset.driver_inv, IntLset.setup. simpl.
  split; [apply first_cells_monitor|]. repeat split; intros; constructor.
Qed.

End IntLsetFacts.

Section CutFEMTrace.
Import Store.

Variable mesh : Mesh.
Variable lsetp1 : GridFunction.
Variable zero_sign : Sign.
Variable Vh : FESpace.
Variable solution1 : nat -> Q.
Variable assemble_a : bool -> CutFEM.Matrix.
Variable assemble_f : bool -> CutFEM.Vector.
Variable solver : CutFEM.BlockSolver.

Lemma SolveLinearSystem_keeps (s s' : CutFEM.State) :
  CutFEM.SolveLinearSystem solver s = Some s' ->
  CutFEM.trace s' = CutFEM.trace s
  /\ CutFEM.deformed s' = CutFEM.deformed s
  /\ CutFEM.a_mat s' = CutFEM.a_mat s
  /\ CutFEM.f_vec s' = CutFEM.f_vec s.
Proof.
  unfold CutFEM.SolveLinearSystem.
  destruct (CutFEM.mat_vec _ _) as [a_gfu|]; [|discriminate].
  cbn [mbind option_bind].
  destruct (CutFEM.vec_sub _ _) as [rhs|]; [|discriminate]. cbn [mbind option_bind].
  destruct (CutFEM.Inverse _ _ _ _) as [update|]; [|discriminate].
  cbn [mbind option_bind].
  destruct (CutFEM.vec_add _ _) as [gfu'|]; [|discriminate].
  cbn [mbind option_bind]. intros [= <-]. repeat split.
Qed.

(** The calls of a complete run of the CutFEM notebook, and the system
    its second solve works on: the one assembled on the deformed mesh. *)
Lemma CutFEM_run_trace (final : CutFEM.State) :
  CutFEM.run mesh lsetp1 zero_sign Vh solution1 assemble_a assemble_f solver
  = Some final ->
  CutFEM.trace final
  = [Assemble false; Assemble false; Integrate NEG false; Integrate POS false;
     CalcDeformation; SetDeformation; Assemble true; Assemble true;
     Integrate NEG true; Integrate POS true; UnsetDeformation]
  /\ CutFEM.a_mat final = assemble_a true
  /\ CutFEM.f_vec final = assemble_f true.
Proof.
  unfold CutFEM.run.
  set (s0 := CutFEM.assemble_cell Vh solution1 assemble_a assemble_f
               (CutFEM.free_dofs_setup Vh (CutFEM.cut_fe_space mesh lsetp1 zero_sign Vh))).
  assert (Ht0 : CutFEM.trace s0 = [Assemble false; Assemble false]) by reflexivity.
  assert (Hd0 : CutFEM.deformed s0 = false) by reflexivity.
  destruct (CutFEM.SolveLinearSystem solver s0) as [s1|] eqn:H1; [|discriminate].
  cbn [mbind option_bind]. unfold CutFEM.high_order_geometry.
  destruct (SolveLinearSystem_keeps s0 s1 H1) as (Ht1 & Hd1 & _ & _).
  set (s2 := CutFEM.Assemble_a_f assemble_a assemble_f true
               (CutFEM.log [CalcDeformation; SetDeformation]
                  (CutFEM.ComputeError false s1))).
  assert (Ht2 : CutFEM.trace s2
                = ((CutFEM.trace s1 ++ [Integrate NEG false; Integrate POS false])
                   ++ [CalcDeformation; SetDeformation])
                  ++ [Assemble true; Assemble true]) by reflexivity.
  assert (Hd2 : CutFEM.deformed s2
                = fold_left step [CalcDeformation; SetDeformation]
                    (fold_left step [Integrate NEG false; Integrate POS false]
                       (CutFEM.deformed s1))) by reflexivity.
  assert (Ha2 : CutFEM.a_mat s2 = assemble_a (CutFEM.deformed s2)) by reflexivity.
  assert (Hf2 : CutFEM.f_vec s2 = assemble_f (CutFEM.deformed s2)) by reflexivity.
  destruct (CutFEM.SolveLinearSystem solver s2) as [s3|] eqn:H3; [|discriminate].
  cbn [mbind option_bind].
  destruct (SolveLinearSystem_keeps s2 s3 H3) as (Ht3 & Hd3 & Ha3 & Hf3).
  intros [= <-].
  replace (CutFEM.trace (CutFEM.log [UnsetDeformation] (CutFEM.ComputeError true s3)))
    with ((CutFEM.trace s3 ++ [Integrate NEG true; Integrate POS true])
          ++ [UnsetDeformation]) by reflexivity.
  replace (CutFEM.a_mat (CutFEM.log [UnsetDeformation] (CutFEM.ComputeError true s3)))
    with (CutFEM.a_mat s3) by reflexivity.
  replace (CutFEM.f_vec (CutFEM.log [UnsetDeformation] (CutFEM.ComputeError true s3)))
    with (CutFEM.f_vec s3) by reflexivity.
  rewrite Ht3, Ht2, Ht1, Ht0, Ha3, Hf3, Ha2, Hf2, Hd2, Hd1, Hd0.
  repeat split.
Qed.

End CutFEMTrace.

(** C8. In every execution of the two drivers -- the notebook of
    intlset.ipynb run top to bottom, with its refinement cell executed any
    number of times and any number [refinements] of passes of the
    convergence loop, and a complete run of CutFEM.ipynb -- the calls obey
    the set / unset discipline: [mesh.Refine()] and [RefineAtLevelSet] never
    run while a deformation is set; every [SetDeformation] is followed by
    an [UnsetDeformation] before the next of them; every integration or
    assembly whose result the notebook takes as the curved one runs between
    a [SetDeformation] and its [UnsetDeformation].  Accordingly every entry
    of [errors_curved] was integrated on the deformed mesh and every entry
    of [errors_uncurved] on the undeformed one, and the system of the
    second CutFEM solve is the one assembled on the deformed mesh. *)
Theorem deformation_discipline
    (pi : Q) (Integrate_val : nat -> DOMAIN_TYPE -> bool -> Q)
    (reruns refinements : nat)
    (mesh : Mesh) (lsetp1 : GridFunction) (zero_sign : Sign) (Vh : FESpace)
    (solution1 : nat -> Q) (assemble_a : bool -> CutFEM.Matrix)
    (assemble_f : bool -> CutFEM.Vector) (solver : CutFEM.BlockSolver) :
  let nb := IntLset.run pi Integrate_val reruns refinements in
  disciplined (IntLset.trace nb)
  /\ (forall key, Forall (IntLset.computed_on pi Integrate_val true key)
                         (IntLset.errors_curved nb key))
  /\ (forall key, Forall (IntLset.computed_on pi Integrate_val false key)
                         (IntLset.errors_uncurved nb key))
  /\ (forall final,
        CutFEM.run mesh lsetp1 zero_sign Vh solution1 assemble_a assemble_f solver
        = Some final ->
        disciplined (CutFEM.trace final)
        /\ CutFEM.a_mat final = assemble_a true
        /\ CutFEM.f_vec final = assemble_f true).
Proof.
  intros nb.
  destruct (run_inv pi Integrate_val reruns refinements) as (Hm & _ & Hc & Hu).
  split; [apply monitor_disciplined, Hm|].
  split; [exact Hc|]. split; [exact Hu|].
  intros final Hrun.
  destruct (CutFEM_run_trace _ _ _ _ _ _ _ _ _ Hrun) as (Htr & Ha & Hf).
  split; [|split; assumption].
  apply monitor_disciplined. rewrite Htr. reflexivity.
Qed.

End DeformationFacts.

(** ** The element classifier *)

Section ClassifierFacts.
Import Xfem.

Variable zero_sign : Sign.

Lemma sign_of_Negative (x : Q) :
  sign_of zero_sign x = Negative <-> x < 0 \/ (x == 0 /\ zero_sign = Negative).
Proof.
  unfold sign_of.
  destruct (Qlt_bool x 0) eqn:E1.
  - apply Qlt_bool_iff in E1. tauto.
  - apply Qlt_bool_false in E1. destruct (Qlt_bool 0 x) eqn:E2.
    + apply Qlt_bool_iff in E2. split; [discriminate|]. intros [H|[H _]]; lra.
    + apply Qlt_bool_false in E2. split.
      * intros ->. right. split; [lra|reflexivity].
      * intros [H|[_ H]]; [lra|exact H].
Qed.

Lemma sign_of_Positive (x : Q) :
  sign_of zero_sign x = Positive <-> 0 < x \/ (x == 0 /\ zero_sign = Positive).
Proof.
  unfold sign_of.
  destruct (Qlt_bool x 0) eqn:E1.
  - apply Qlt_bool_iff in E1. split; [discriminate|]. intros [H|[H _]]; lra.
  - apply Qlt_bool_false in E1. destruct (Qlt_bool 0 x) eqn:E2.
    + apply Qlt_bool_iff in E2. tauto.
    + apply Qlt_bool_false in E2. split.
      * intros ->. right. split; [lra|reflexivity].
      * intros [H|[_ H]]; [lra|exact H].
Qed.

Lemma forallb_is_neg (vals : list Q) :
  forallb is_neg (map (sign_of zero_sign) vals) = true
  <-> all_sign zero_sign Negative vals.
Proof.
  unfold all_sign. induction vals as [|x vals IH]; simpl.
  - split; [constructor|reflexivity].
  - rewrite andb_true_iff, IH. split.
    + intros [H1 H2]. constructor; [|exact H2].
      destruct (sign_of zero_sign x); [reflexivity|discriminate].
    + intros H. inversion H as [|? ? H1 H2]; subst. rewrite H1. tauto.
Qed.

Lemma forallb_is_pos (vals : list Q) :
  forallb is_pos (map (sign_of zero_sign) vals) = true
  <-> all_sign zero_sign Positive vals.
Proof.
  unfold all_sign. induction vals as [|x vals IH]; simpl.
  - split; [constructor|reflexivity].
  - rewrite andb_true_iff, IH. split.
    + intros [H1 H2]. constructor; [|exact H2].
      destruct (sign_of zero_sign x); [discriminate|reflexivity].
    + intros H. inversion H as [|? ? H1 H2]; subst. rewrite H1. tauto.
Qed.

Lemma existsb_is_neg (vals : list Q) :
  existsb is_neg (map (sign_of zero_sign) vals) = true
  <-> some_sign zero_sign Negative vals.
Proof.
  unfold some_sign. induction vals as [|x vals IH]; simpl.
  - split; [discriminate|]. intros H. inversion H.
  - rewrite orb_true_iff, IH. split.
    + intros [H|H]; [left|right; exact H].
      destruct (sign_of zero_sign x); [reflexivity|discriminate].
    + intros H. inversion H as [? ? H1|? ? H1]; subst; [left|right; exact H1].
      rewrite H1. reflexivity.
Qed.

Lemma existsb_is_pos (vals : list Q) :
  existsb is_pos (map (sign_of zero_sign) vals) = true
  <-> some_sign zero_sign Positive vals.
Proof.
  unfold some_sign. induction vals as [|x vals IH]; simpl.
  - split; [discriminate|]. intros H. inversion H.
  - rewrite orb_true_iff, IH. split.
    + intros [H|H]; [left|right; exact H].
      destruct (sign_of zero_sign x); [discriminate|reflexivity].
    + intros H. inversion H as [? ? H1|? ? H1]; subst; [left|right; exact H1].
      rewrite H1. reflexivity.
Qed.

(** Values that are not all of one sign have one of the other. *)
Lemma not_all_some (s s' : Sign) (vals : list Q) :
  s <> s' -> ~ all_sign zero_sign s vals -> some_sign zero_sign s' vals.
Proof.
  intros Hne. unfold all_sign, some_sign.
  induction vals as [|x vals IH]; intros H.
  - exfalso. apply H. constructor.
  - destruct (sign_of zero_sign x) eqn:E, s eqn:Es, s' eqn:Es';
      try congruence;
      try (left; exact E);
      right; apply IH; intros Hall; apply H; constructor; assumption.
Qed.

Lemma all_sign_exclusive (vals : list Q) :
  vals <> [] -> all_sign zero_sign Negative vals ->
  all_sign zero_sign Positive vals -> False.
Proof.
  destruct vals as [|x vals]; [congruence|]. intros _ H1 H2.
  inversion H1; inversion H2; subst. congruence.
Qed.

(** The classifier on the values of one element. *)
Lemma classify_classified (vals : list Q) :
  vals <> [] ->
  let c := classify zero_sign vals in
  classified_by zero_sign vals
    (in_type CDOM_NEG c) (in_type CDOM_POS c) (in_type CDOM_IF c)
    (in_type HASNEG c) (in_type HASPOS c).
Proof.
  intros Hne c. unfold classified_by, c, classify, in_type. cbn [dt has_neg has_pos].
  pose proof (forallb_is_neg vals) as Hn.
  pose proof (forallb_is_pos vals) as Hp.
  pose proof (existsb_is_neg vals) as Hen.
  pose proof (existsb_is_pos vals) as Hep.
  pose proof (all_sign_exclusive vals Hne) as Hex.
  assert (Hcut : ~ all_sign zero_sign Negative vals ->
                 ~ all_sign zero_sign Positive vals ->
                 existsb is_neg (map (sign_of zero_sign) vals) = true
                 /\ existsb is_pos (map (sign_of zero_sign) vals) = true).
  { intros H1 H2. split.
    - apply Hen. apply (not_all_some Positive Negative); [discriminate|exact H2].
    - apply Hep. apply (not_all_some Negative Positive); [discriminate|exact H1]. }
  destruct (forallb is_neg _) eqn:En; destruct (forallb is_pos _) eqn:Ep.
  - exfalso. apply Hex; [apply Hn|apply Hp]; reflexivity.
  - assert (Ha : all_sign zero_sign Negative vals) by (apply Hn; reflexivity).
    repeat split; intros; try tauto; try discriminate;
      try (apply Hen; assumption); try (apply Hep; assumption).
  - assert (Ha : all_sign zero_sign Positive vals) by (apply Hp; reflexivity).
    repeat split; intros; try tauto; try discriminate;
      try (apply Hen; assumption); try (apply Hep; assumption).
  - assert (Hnn : ~ all_sign zero_sign Negative vals)
      by (intros H; apply Hn in H; discriminate).
    assert (Hnp : ~ all_sign zero_sign Positive vals)
      by (intros H; apply Hp in H; discriminate).
    destruct (Hcut Hnn Hnp) as [H1 H2].
    repeat split; intros; try tauto; try discriminate;
      try (apply Hen; assumption); try (apply Hep; assumption).
Qed.

Lemma ba_get_map {A : Type} (f : A -> bool) (l : list A) (i : nat) :
  ba_get (map f l) i = match l !! i with Some a => f a | None => false end.
Proof.
  unfold ba_get. rewrite list_lookup_fmap. destruct (l !! i); reflexivity.
Qed.

(** The bit of element [e] in [ci.GetElementsOfType(t)], for a CutInfo
    built from a spatial field and for one updated with a space-time
    field. *)
Lemma GetElementsOfType_CutInfo_of (m : Mesh) (lset : GridFunction)
    (t : COMBINED_DOMAIN_TYPE) (e : nat) :
  ba_get (GetElementsOfType (CutInfo_of zero_sign m lset) t) e
  = match elements m !! e with
    | Some el => in_type t (classify zero_sign (el_values lset el))
    | None => false
    end.
Proof.
  unfold GetElementsOfType, CutInfo_of. cbn [classes].
  rewrite map_map, ba_get_map. reflexivity.
Qed.

Lemma GetElementsOfType_CutInfo_Update (m : Mesh) (lset : SpaceTime.STGridFunction)
    (t : COMBINED_DOMAIN_TYPE) (e : nat) :
  ba_get (GetElementsOfType (SpaceTime.CutInfo_Update zero_sign m lset) t) e
  = match elements m !! e with
    | Some el => in_type t (classify zero_sign (SpaceTime.st_el_values lset el))
    | None => false
    end.
Proof.
  unfold GetElementsOfType, SpaceTime.CutInfo_Update. cbn [classes].
  rewrite map_map, ba_get_map. reflexivity.
Qed.

Lemma st_el_values_nonempty (lset : SpaceTime.STGridFunction) (el : list nat) :
  el <> [] -> SpaceTime.st_el_values lset el <> [].
Proof. destruct el; [congruence|]. discriminate. Qed.

Lemma el_values_nonempty (lset : GridFunction) (el : list nat) :
  el <> [] -> el_values lset el <> [].
Proof. destruct el; [congruence|]. discriminate. Qed.

(** C2. For every element [e] of the mesh (with its vertices [el]), after
    CutInfo is constructed from a P1 level set, and after it is updated
    with a space-time level set: exactly one of the bits NEG, POS, IF (the
    cut tag) of [e] is set; IF is set iff the nodal values of the element
    are not all of the same sign; HASNEG is set iff some nodal value is
    negative, HASPOS iff some is positive, so an IF element has both.  The
    sign of a value is strict, an exact zero taking the configured sign
    [zero_sign]. *)
Theorem CutInfo_classification (m : Mesh) (lset : GridFunction)
    (st_lset : SpaceTime.STGridFunction) (e : nat) (el : list nat) :
  elements m !! e = Some el ->
  el <> [] ->
  let ci := CutInfo_of zero_sign m lset in
  let st_ci := SpaceTime.CutInfo_Update zero_sign m st_lset in
  classified_by zero_sign (el_values lset el)
    (ba_get (GetElementsOfType ci CDOM_NEG) e)
    (ba_get (GetElementsOfType ci CDOM_POS) e)
    (ba_get (GetElementsOfType ci CDOM_IF) e)
    (ba_get (GetElementsOfType ci HASNEG) e)
    (ba_get (GetElementsOfType ci HASPOS) e)
  /\ classified_by zero_sign (SpaceTime.st_el_values st_lset el)
       (ba_get (GetElementsOfType st_ci CDOM_NEG) e)
       (ba_get (GetElementsOfType st_ci CDOM_POS) e)
       (ba_get (GetElementsOfType st_ci CDOM_IF) e)
       (ba_get (GetElementsOfType st_ci HASNEG) e)
       (ba_get (GetElementsOfType st_ci HASPOS) e)
  /\ (forall x, sign_of zero_sign x = Negative
                <-> x < 0 \/ (x == 0 /\ zero_sign = Negative))
  /\ (forall x, sign_of zero_sign x = Positive
                <-> 0 < x \/ (x == 0 /\ zero_sign = Positive)).
Proof.
  intros Hel Hne ci st_ci. unfold ci, st_ci.
  rewrite !GetElementsOfType_CutInfo_of, !GetElementsOfType_CutInfo_Update, Hel.
  split; [apply classify_classified, el_values_nonempty, Hne|].
  split; [apply classify_classified, st_el_values_nonempty, Hne|].
  split; [apply sign_of_Negative|apply sign_of_Positive].
Qed.

End ClassifierFacts.

(** ** TraceFEM: the band covers the interface elements *)

Section BandFacts.
Import Xfem Store.

Variable mesh : Mesh.
Variable zero_sign : Sign.

Lemma load_ior_ne (l l' : loc) (ba : BitArray) (st : Store) :
  l <> l' -> load l' (ior l ba st) = load l' st.
Proof. apply load_store_ne. Qed.

Lemma load_Clear_ne (l l' : loc) (st : Store) :
  l <> l' -> load l' (Clear l st) = load l' st.
Proof. apply load_store_ne. Qed.

Lemma fresh_ior (l : loc) (ba : BitArray) (st : Store) :
  fresh (ior l ba st) = fresh st.
Proof. reflexivity. Qed.

Lemma fresh_iand (l : loc) (ba : BitArray) (st : Store) :
  fresh (iand l ba st) = fresh st.
Proof. reflexivity. Qed.

Lemma fresh_Clear (l : loc) (st : Store) : fresh (Clear l st) = fresh st.
Proof. reflexivity. Qed.

(** [BitArray(other)]: a new object with the same content; the old
    objects keep theirs. *)
Lemma copy_spec (l : loc) (st : Store) :
  copy l st = (fresh st, snd (copy l st))
  /\ fresh (snd (copy l st)) = S (fresh st)
  /\ load (fresh st) (snd (copy l st)) = load l st
  /\ forall l', (l' < fresh st)%nat -> load l' (snd (copy l st)) = load l' st.
Proof.
  unfold copy. split; [reflexivity|]. split; [reflexivity|].
  split; [apply load_alloc|]. intros l' H. apply load_alloc_ne, H.
Qed.

Lemma gf_at_InterpolateToP1 (f : nat -> Q) (x : nat) :
  gf_at (InterpolateToP1 mesh f) x = if Nat.ltb x (nv mesh) then f x else 0.
Proof.
  unfold gf_at, InterpolateToP1. rewrite list_lookup_fmap.
  destruct (Nat.ltb_spec x (nv mesh)) as [H|H].
  - rewrite lookup_seq_lt by exact H. reflexivity.
  - rewrite lookup_seq_ge by exact H. reflexivity.
Qed.

Lemma GetElementsOfType_length (ci : CutInfo) (t : COMBINED_DOMAIN_TYPE) :
  length (GetElementsOfType ci t) = length (classes ci).
Proof. unfold GetElementsOfType. apply length_map. Qed.

Lemma CutInfo_of_length (lset : GridFunction) :
  length (classes (CutInfo_of zero_sign mesh lset)) = ne mesh.
Proof. unfold CutInfo_of, ne. cbn [classes]. apply length_map. Qed.

(** What [UpdateBand] leaves in the caller's object: with [z] the cleared
    array, the elements that are POS or IF for [lset + offset], and NEG or
    IF for [lset - offset]. *)
Lemma UpdateBand_load (lset : nat -> Q) (offset : Q) (l : loc) (st : Store) :
  (l < fresh st)%nat ->
  let P := CutInfo_of zero_sign mesh (InterpolateToP1 mesh (fun x => lset x + offset)) in
  let M := CutInfo_of zero_sign mesh (InterpolateToP1 mesh (fun x => lset x - offset)) in
  let z := ba_clear (load l st) in
  load l (fst (TraceFEM.UpdateBand mesh zero_sign lset offset l st))
  = ba_and (ba_or z (ba_or (ba_or (ba_clear z) (GetElementsOfType P CDOM_POS))
                           (GetElementsOfType P CDOM_IF)))
           (ba_or (ba_or (ba_clear z) (GetElementsOfType M CDOM_NEG))
                  (GetElementsOfType M CDOM_IF))
  /\ (fresh st <= fresh (fst (TraceFEM.UpdateBand mesh zero_sign lset offset l st)))%nat.
Proof.
  intros Hl P M z. unfold TraceFEM.UpdateBand.
  set (st1 := Clear l st).
  assert (H1 : load l st1 = z) by apply load_Clear.
  assert (F1 : fresh st1 = fresh st) by reflexivity.
  destruct (copy_spec l st1) as (E2 & F2 & L2 & N2).
  rewrite E2. set (lP := fresh st1) in *. set (st2 := snd (copy l st1)) in *.
  set (st3 := Clear lP st2).
  assert (F3 : fresh st3 = S (fresh st)) by (unfold st3; simpl; congruence).
  assert (HlP : l <> lP) by (unfold lP; lia).
  assert (L3 : load l st3 = z).
  { unfold st3. rewrite load_Clear_ne by congruence. rewrite N2 by lia. exact H1. }
  assert (P3 : load lP st3 = ba_clear z).
  { unfold st3. rewrite load_Clear, L2, H1. reflexivity. }
  destruct (copy_spec l st3) as (E4 & F4 & L4 & N4).
  rewrite E4. set (lM := fresh st3) in *. set (st4 := snd (copy l st3)) in *.
  assert (HlM : l <> lM) by (unfold lM; lia).
  assert (HPM : lP <> lM) by (unfold lM, lP; lia).
  cbn [fst]. split.
  - rewrite load_iand.
    repeat first [ rewrite load_ior | rewrite load_Clear
                 | rewrite load_ior_ne by congruence
                 | rewrite load_Clear_ne by congruence ].
    fold lM. rewrite L4, (N4 l), (N4 lP), L3, P3 by (unfold lP; lia).
    reflexivity.
  - rewrite fresh_iand, !fresh_ior, fresh_Clear, F4, F3. lia.
Qed.

(** A pointwise change of the field that keeps the sign [s] keeps "some
    value has sign [s]". *)
Lemma some_sign_transfer (s : Sign) (g1 g2 : GridFunction) (el : list nat) :
  (forall x, sign_of zero_sign (gf_at g1 x) = s ->
             sign_of zero_sign (gf_at g2 x) = s) ->
  some_sign zero_sign s (el_values g1 el) ->
  some_sign zero_sign s (el_values g2 el).
Proof.
  intros Hpt. unfold some_sign, el_values.
  induction el as [|x el IH]; simpl; intros H;
    inversion H as [? ? H1|? ? H1].
  - left. apply Hpt. exact H1.
  - right. apply IH. exact H1.
Qed.

Lemma some_not_all (s s' : Sign) (vals : list Q) :
  s <> s' -> some_sign zero_sign s vals -> ~ all_sign zero_sign s' vals.
Proof.
  intros Hne. unfold some_sign, all_sign.
  induction vals as [|x vals IH]; intros Hs Ha;
    inversion Hs as [? ? H1|? ? H1]; inversion Ha as [|? ? H2 H3].
  - congruence.
  - apply IH; assumption.
Qed.

Lemma shift_up_Positive (lset : nat -> Q) (offset : Q) (x : nat) :
  0 <= offset ->
  sign_of zero_sign (gf_at (InterpolateToP1 mesh lset) x) = Positive ->
  sign_of zero_sign (gf_at (InterpolateToP1 mesh (fun y => lset y + offset)) x)
  = Positive.
Proof.
  intros Hoff. rewrite !gf_at_InterpolateToP1.
  destruct (Nat.ltb x (nv mesh)); [|tauto].
  rewrite !sign_of_Positive. intros [H|[H Hz]].
  - left. lra.
  - destruct (Qlt_le_dec 0 offset); [left; lra|right; split; [lra|exact Hz]].
Qed.

Lemma shift_down_Negative (lset : nat -> Q) (offset : Q) (x : nat) :
  0 <= offset ->
  sign_of zero_sign (gf_at (InterpolateToP1 mesh lset) x) = Negative ->
  sign_of zero_sign (gf_at (InterpolateToP1 mesh (fun y => lset y - offset)) x)
  = Negative.
Proof.
  intros Hoff. rewrite !gf_at_InterpolateToP1.
  destruct (Nat.ltb x (nv mesh)); [|tauto].
  rewrite !sign_of_Negative. intros [H|[H Hz]].
  - left. lra.
  - destruct (Qlt_le_dec 0 offset); [left; lra|right; split; [lra|exact Hz]].
Qed.

(** An element cut by [lset] is POS or IF for [lset + offset] and NEG or IF
    for [lset - offset]. *)
Lemma cut_element_in_band (lset : nat -> Q) (offset : Q) (el : list nat) :
  0 <= offset ->
  in_type CDOM_IF (classify zero_sign (el_values (InterpolateToP1 mesh lset) el))
  = true ->
  in_type CDOM_POS
    (classify zero_sign
       (el_values (InterpolateToP1 mesh (fun y => lset y + offset)) el))
  || in_type CDOM_IF
       (classify zero_sign
          (el_values (InterpolateToP1 mesh (fun y => lset y + offset)) el)) = true
  /\ in_type CDOM_NEG
       (classify zero_sign
          (el_values (InterpolateToP1 mesh (fun y => lset y - offset)) el))
     || in_type CDOM_IF
          (classify zero_sign
             (el_values (InterpolateToP1 mesh (fun y => lset y - offset)) el)) = true.
Proof.
  intros Hoff. unfold in_type, classify. cbn [dt].
  set (v0 := el_values (InterpolateToP1 mesh lset) el).
  set (vp := el_values (InterpolateToP1 mesh (fun y => lset y + offset)) el).
  set (vm := el_values (InterpolateToP1 mesh (fun y => lset y - offset)) el).
  destruct (forallb is_neg (map (sign_of zero_sign) v0)) eqn:En0; [discriminate|].
  destruct (forallb is_pos (map (sign_of zero_sign) v0)) eqn:Ep0; [discriminate|].
  intros _.
  assert (Hn0 : ~ all_sign zero_sign Negative v0).
  { intros H. apply forallb_is_neg in H. congruence. }
  assert (Hp0 : ~ all_sign zero_sign Positive v0).
  { intros H. apply forallb_is_pos in H. congruence. }
  assert (Hsp : some_sign zero_sign Positive vp).
  { apply (some_sign_transfer Positive (InterpolateToP1 mesh lset)).
    - intros x. apply shift_up_Positive, Hoff.
    - apply (not_all_some zero_sign Negative Positive); [discriminate|exact Hn0]. }
  assert (Hsm : some_sign zero_sign Negative vm).
  { apply (some_sign_transfer Negative (InterpolateToP1 mesh lset)).
    - intros x. apply shift_down_Negative, Hoff.
    - apply (not_all_some zero_sign Positive Negative); [discriminate|exact Hp0]. }
  assert (Hnp : forallb is_neg (map (sign_of zero_sign) vp) = false).
  { destruct (forallb is_neg (map (sign_of zero_sign) vp)) eqn:E; [|reflexivity].
    apply forallb_is_neg in E.
    exfalso. apply (some_not_all Positive Negative vp); [discriminate|assumption..]. }
  assert (Hpm : forallb is_pos (map (sign_of zero_sign) vm) = false).
  { destruct (forallb is_pos (map (sign_of zero_sign) vm)) eqn:E; [|reflexivity].
    apply forallb_is_pos in E.
    exfalso. apply (some_not_all Negative Positive vm); [discriminate|assumption..]. }
  rewrite Hnp, Hpm. split.
  - destruct (forallb is_pos (map (sign_of zero_sign) vp)); reflexivity.
  - destruct (forallb is_neg (map (sign_of zero_sign) vm)); reflexivity.
Qed.

(** The band bit by bit: the intersection of the (POS or IF) elements of
    [lset + offset] with the (NEG or IF) elements of [lset - offset]. *)
Lemma UpdateBand_bits (lset : nat -> Q) (offset : Q) (l : loc) (st : Store) :
  (l < fresh st)%nat ->
  length (load l st) = ne mesh ->
  let st' := fst (TraceFEM.UpdateBand mesh zero_sign lset offset l st) in
  let P := CutInfo_of zero_sign mesh (InterpolateToP1 mesh (fun x => lset x + offset)) in
  let M := CutInfo_of zero_sign mesh (InterpolateToP1 mesh (fun x => lset x - offset)) in
  (forall e, ba_get (load l st') e
             = (ba_get (GetElementsOfType P CDOM_POS) e
                || ba_get (GetElementsOfType P CDOM_IF) e)
               && (ba_get (GetElementsOfType M CDOM_NEG) e
                   || ba_get (GetElementsOfType M CDOM_IF) e))
  /\ (l < fresh st')%nat
  /\ length (load l st') = ne mesh.
Proof.
  intros Hl Hlen st' P M.
  destruct (UpdateBand_load lset offset l st Hl) as [Hload Hfresh].
  fold st' P M in Hload, Hfresh. rewrite Hload.
  set (z := ba_clear (load l st)).
  assert (Lz : length z = ne mesh) by (unfold z; rewrite ba_clear_length; exact Hlen).
  assert (Lzz : length (ba_clear z) = ne mesh) by (rewrite ba_clear_length; exact Lz).
  assert (LG : forall ci t, ci = P \/ ci = M ->
                            length (GetElementsOfType ci t) = ne mesh).
  { intros ci t [->| ->]; rewrite GetElementsOfType_length; apply CutInfo_of_length. }
  assert (LP1 : length (ba_or (ba_clear z) (GetElementsOfType P CDOM_POS)) = ne mesh).
  { rewrite ba_or_length; [exact Lzz|]. rewrite Lzz, LG; auto. }
  assert (LP2 : length (ba_or (ba_or (ba_clear z) (GetElementsOfType P CDOM_POS))
                              (GetElementsOfType P CDOM_IF)) = ne mesh).
  { rewrite ba_or_length; [exact LP1|]. rewrite LP1, LG; auto. }
  assert (LM1 : length (ba_or (ba_clear z) (GetElementsOfType M CDOM_NEG)) = ne mesh).
  { rewrite ba_or_length; [exact Lzz|]. rewrite Lzz, LG; auto. }
  assert (LM2 : length (ba_or (ba_or (ba_clear z) (GetElementsOfType M CDOM_NEG))
                              (GetElementsOfType M CDOM_IF)) = ne mesh).
  { rewrite ba_or_length; [exact LM1|]. rewrite LM1, LG; auto. }
  assert (LB : length (ba_or z (ba_or (ba_or (ba_clear z)
                                             (GetElementsOfType P CDOM_POS))
                                      (GetElementsOfType P CDOM_IF))) = ne mesh).
  { rewrite ba_or_length; [exact Lz|]. rewrite Lz, LP2. reflexivity. }
  split; [|split; [lia|]].
  - intros e. rewrite ba_get_and.
    rewrite (ba_get_or z) by (rewrite Lz, LP2; reflexivity).
    rewrite (ba_get_or (ba_or _ _) (GetElementsOfType P CDOM_IF))
      by (rewrite LP1, LG; auto).
    rewrite (ba_get_or (ba_clear z) (GetElementsOfType P CDOM_POS))
      by (rewrite Lzz, LG; auto).
    rewrite (ba_get_or (ba_or _ _) (GetElementsOfType M CDOM_IF))
      by (rewrite LM1, LG; auto).
    rewrite (ba_get_or (ba_clear z) (GetElementsOfType M CDOM_NEG))
      by (rewrite Lzz, LG; auto).
    unfold z. rewrite !ba_get_clear. reflexivity.
  - rewrite ba_and_length; [exact LB|]. rewrite LB, LM2. reflexivity.
Qed.

(** [UpdateBand] leaves a band that contains every element cut by the P1
    interpolant of [lset]. *)
Lemma UpdateBand_covers (lset : nat -> Q) (offset : Q) (l : loc) (st : Store) :
  0 <= offset ->
  (l < fresh st)%nat ->
  length (load l st) = ne mesh ->
  ba_subset
    (GetElementsOfType (CutInfo_of zero_sign mesh (InterpolateToP1 mesh lset)) CDOM_IF)
    (load l (fst (TraceFEM.UpdateBand mesh zero_sign lset offset l st))).
Proof.
  intros Hoff Hl Hlen e He.
  destruct (UpdateBand_bits lset offset l st Hl Hlen) as (Hbits & _ & _).
  rewrite Hbits. rewrite GetElementsOfType_CutInfo_of in He.
  rewrite !GetElementsOfType_CutInfo_of.
  destruct (elements mesh !! e) as [el|] eqn:Hel; [|discriminate].
  destruct (cut_element_in_band lset offset el Hoff He) as [Hp Hm].
  rewrite Hp, Hm. reflexivity.
Qed.

Section Loop.

Variable VhG : FESpace.
Variables vel dt : Q.
Variable levelset_function : Q -> nat -> Q.
Variable junk : nat -> bool.
Variable solve_step :
  Q -> GridFunction -> BitArray -> BitArray -> TraceFEM.Vector -> BitArray
  -> TraceFEM.Vector.
Variable gfu0 : TraceFEM.Vector.

Local Abbreviation step :=
  (TraceFEM.step mesh zero_sign VhG vel dt levelset_function junk solve_step).
Local Abbreviation steps :=
  (TraceFEM.steps mesh zero_sign VhG vel dt levelset_function junk solve_step).
Local Abbreviation init := (TraceFEM.init mesh zero_sign levelset_function junk gfu0).
Local Abbreviation band_inv := (TraceFEM.band_inv mesh).

(** What one pass of the loop body leaves in the fields the band is
    about. *)
Lemma step_fields (s : TraceFEM.State) :
  let tnew := TraceFEM.told s + dt in
  TraceFEM.heap (step s)
  = fst (TraceFEM.UpdateBand mesh zero_sign (levelset_function tnew) (vel * dt)
           (TraceFEM.ba_band_IF s) (TraceFEM.heap s))
  /\ TraceFEM.ba_band_IF (step s) = TraceFEM.ba_band_IF s
  /\ TraceFEM.ba_new_IF (step s)
     = GetElementsOfType
         (CutInfo_of zero_sign mesh (InterpolateToP1 mesh (levelset_function tnew)))
         CDOM_IF.
Proof.
  intros tnew. unfold TraceFEM.step. fold tnew.
  destruct (TraceFEM.UpdateBand _ _ _ _ _ _) as [st vis].
  repeat split.
Qed.

Lemma BitArray_new_length (n : nat) : length (TraceFEM.BitArray_new junk n) = n.
Proof. unfold TraceFEM.BitArray_new. rewrite length_map, length_seq. reflexivity. Qed.

Lemma init_inv : band_inv init.
Proof.
  unfold TraceFEM.init.
  destruct (alloc (TraceFEM.BitArray_new junk (ne mesh)) Store.empty)
    as [band st0] eqn:E0.
  destruct (alloc (TraceFEM.BitArray_new junk (ne mesh)) st0) as [lP st1] eqn:E1.
  destruct (alloc (TraceFEM.BitArray_new junk (ne mesh)) st1) as [lM st2] eqn:E2.
  unfold alloc in E0, E1, E2.
  injection E0 as <- <-. injection E1 as <- <-. injection E2 as <- <-.
  cbn [fresh Store.empty] in *.
  set (st2 := {| cells := _; fresh := 3 |}).
  assert (Hl : (0 < fresh st2)%nat) by (cbn; lia).
  assert (Hlen : length (load 0%nat st2) = ne mesh).
  { unfold load, st2. cbn [cells].
    rewrite lookup_insert_ne by lia. rewrite lookup_insert_ne by lia.
    rewrite lookup_insert_eq. apply BitArray_new_length. }
  destruct (UpdateBand_bits (levelset_function 0) 0.1 0%nat st2 Hl Hlen)
    as (_ & Hf & Hlen').
  destruct (TraceFEM.UpdateBand _ _ _ _ _ _) as [st vis].
  unfold TraceFEM.band_inv. cbn [TraceFEM.heap TraceFEM.ba_band_IF fst] in *.
  split; assumption.
Qed.

Lemma step_inv (s : TraceFEM.State) :
  0 <= vel * dt ->
  band_inv s ->
  band_inv (step s)
  /\ ba_subset (TraceFEM.ba_new_IF (step s))
               (load (TraceFEM.ba_band_IF (step s)) (TraceFEM.heap (step s))).
Proof.
  intros Hoff [Hl Hlen].
  destruct (step_fields s) as (Hh & Hb & Hn).
  unfold TraceFEM.band_inv. rewrite Hh, Hb, Hn.
  destruct (UpdateBand_bits (levelset_function (TraceFEM.told s + dt)) (vel * dt)
              _ _ Hl Hlen) as (_ & Hf & Hlen').
  split; [split; assumption|].
  apply UpdateBand_covers; assumption.
Qed.

Lemma steps_inv (n : nat) : 0 <= vel * dt -> band_inv (steps n init).
Proof.
  intros Hoff. unfold TraceFEM.steps.
  induction n as [|n IH]; [apply init_inv|].
  cbn [Nat.iter]. apply step_inv; assumption.
Qed.

(** C9. For every level set [lset] and every offset [>= 0], the band that
    [UpdateBand(lset, offset, ba_band_IF)] writes into the caller's
    BitArray -- bit by bit the intersection of the (POS or IF) elements of
    the P1 interpolant of [lset + offset] with the (NEG or IF) elements of
    the P1 interpolant of [lset - offset] -- contains every element that
    CutInfo classifies IF for the P1 interpolant of [lset] itself.  Hence
    after every pass of the TraceFEM time loop (the offset there is
    [vel*dt]) the interface set [ba_new_IF] is a subset of the band
    [ba_band_IF]. *)
Theorem band_covers_interface (lset : nat -> Q) (offset : Q) (l : loc)
    (st : Store) (k : nat) :
  0 <= offset ->
  0 <= vel * dt ->
  (l < fresh st)%nat ->
  length (load l st) = ne mesh ->
  let st' := fst (TraceFEM.UpdateBand mesh zero_sign lset offset l st) in
  let P := CutInfo_of zero_sign mesh (InterpolateToP1 mesh (fun x => lset x + offset)) in
  let M := CutInfo_of zero_sign mesh (InterpolateToP1 mesh (fun x => lset x - offset)) in
  let s := steps (S k) init in
  (forall e, ba_get (load l st') e
             = (ba_get (GetElementsOfType P CDOM_POS) e
                || ba_get (GetElementsOfType P CDOM_IF) e)
               && (ba_get (GetElementsOfType M CDOM_NEG) e
                   || ba_get (GetElementsOfType M CDOM_IF) e))
  /\ ba_subset
       (GetElementsOfType (CutInfo_of zero_sign mesh (InterpolateToP1 mesh lset))
                          CDOM_IF)
       (load l st')
  /\ ba_subset (TraceFEM.ba_new_IF s)
               (load (TraceFEM.ba_band_IF s) (TraceFEM.heap s)).
Proof.
  intros Hoff Hvd Hl Hlen st' P M s.
  destruct (UpdateBand_bits lset offset l st Hl Hlen) as (Hbits & _ & _).
  split; [exact Hbits|].
  split; [apply UpdateBand_covers; assumption|].
  unfold s, TraceFEM.steps. cbn [Nat.iter].
  apply step_inv; [exact Hvd|]. apply steps_inv, Hvd.
Qed.

End Loop.
End BandFacts.

(** ** The drivers on a concrete input *)

Section ConcreteInput.
Import Xfem Store Example.

Example classify_example :
  map dt (classes (CutInfo_of Positive mesh2 lset)) = [IF; POS].
Proof. reflexivity. Qed.

(** A vertex exactly on the interface: the tag follows the zero
    convention. *)
Example zero_tie_break_example :
  GetElementsOfType (CutInfo_of Positive mesh2 [0; 1; 1; 2]) CDOM_IF = [false; false]
  /\ GetElementsOfType (CutInfo_of Negative mesh2 [0; 1; 1; 2]) CDOM_IF
     = [true; false].
Proof. split; reflexivity. Qed.

(** A NEG triangle next to a cut one: the shared edge is the only ghost
    penalty facet. *)
Example ghost_facets_example :
  let ci := CutInfo_of Positive mesh2 [-1; -1; -1; 1] in
  GetFacetsWithNeighborTypes mesh2 (GetElementsOfType ci HASNEG)
                                   (GetElementsOfType ci CDOM_IF)
  = [false; false; true; false; false].
Proof. reflexivity. Qed.

Example GetDofsOfElements_example :
  GetDofsOfElements P1 [true; false] = [true; true; true; false].
Proof. reflexivity. Qed.

(** A narrow band holds the cut triangle only, a wide one both. *)
Example UpdateBand_example :
  load 0%nat (fst (TraceFEM.UpdateBand mesh2 Positive lset_fun 0.1 0%nat
                     (snd (alloc [true; true] Store.empty))))
  = [true; false]
  /\ load 0%nat (fst (TraceFEM.UpdateBand mesh2 Positive lset_fun 1.5 0%nat
                        (snd (alloc [true; true] Store.empty))))
     = [true; true].
Proof. split; vm_compute; reflexivity. Qed.

(** Six additions of [0.01] leave 0.060000000000000005 in the clock, one
    unit in the last place above the float [0.06]. *)
Example float_clock_example :
  Float64.accumulate (Float64.of_ratio 1 100) 6 (Float64.of_Z 0)
  = S754_finite false 8646911284551353 (-57)
  /\ Float64.of_ratio 6 100 = S754_finite false 8646911284551352 (-57).
Proof. split; vm_compute; reflexivity. Qed.

(** [tend = 0.145], [delta_t = 0.01]: after 14 passes [told] is
    0.13999999999999999 and the guard still holds, so the loop makes a
    15th pass and ends at [told = 0.15], more than half a step past
    [tend]. *)
Example half_step_overshoot_example :
  exists s',
    (forall fuel, (15 < fuel)%nat ->
       SpaceTimeClock.time_loop mesh2 Positive P1 (fun _ => lset_fun) st_solver
         (fun _ _ _ => 0) (Float64.of_ratio 145 1000) (Float64.of_ratio 1 100) fuel
         (SpaceTimeClock.init mesh2 (fun _ => lset_fun) no_ci
            (Float64.of_ratio 1 100))
       = Finished s')
    /\ length (SpaceTime.printed (SpaceTimeClock.notebook s')) = 15%nat
    /\ Float64.to_Q (Float64.of_ratio 1 100) / 2
       < Float64.to_Q (SpaceTimeClock.told s')
         - Float64.to_Q (Float64.of_ratio 145 1000).
Proof.
  destruct (st_loop_runs mesh2 Positive P1 (fun _ => lset_fun) (fun _ => lset_fun)
              st_solver (fun _ _ _ => 0) no_ci
              (Float64.of_ratio 145 1000) (Float64.of_ratio 1 100) 15)
    as (s' & Hrun & Hclk & Hcnt).
  - intros k Hk.
    do 15 (destruct k as [|k]; [vm_compute; reflexivity|]). lia.
  - vm_compute. reflexivity.
  - exists s'. split; [exact Hrun|]. split; [exact Hcnt|].
    rewrite Hclk. vm_compute. reflexivity.
Qed.

(** Absorption: at [told = 2^53] a step [delta_t = 1] no longer changes
    [told]; with [tend = 2^54] the guard holds for ever and the loop does
    not end, whatever the fuel. *)
Example absorption_example :
  forall fuel,
    SpaceTimeClock.time_loop mesh2 Positive P1 (fun _ => lset_fun) st_solver
      (fun _ _ _ => 0) (Float64.of_Z (2 ^ 54)) (Float64.of_Z 1) fuel
      {| SpaceTimeClock.told := Float64.of_Z (2 ^ 53);
         SpaceTimeClock.notebook :=
           SpaceTime.init mesh2 (fun _ => lset_fun) no_ci 1 |}
    = OutOfFuel.
Proof.
  intros fuel.
  apply (clock_loop_stuck SpaceTimeClock.told
           (fun s => length (SpaceTime.printed (SpaceTimeClock.notebook s)))
           (SpaceTimeClock.guard (Float64.of_Z (2 ^ 54)) (Float64.of_Z 1))
           (SpaceTimeClock.slab mesh2 Positive P1 (fun _ => lset_fun) st_solver
              (fun _ _ _ => 0) (Float64.of_Z 1))
           (Float64.of_Z 1)
           (fun t => Float64.gtb (Float64.sub (Float64.of_Z (2 ^ 54)) t)
                                 (Float64.div (Float64.of_Z 1) (Float64.of_Z 2)))
           (fun s => eq_refl)
           (st_body_spec mesh2 Positive P1 (fun _ => lset_fun) st_solver
              (fun _ _ _ => 0) (Float64.of_Z 1))).
  - vm_compute. reflexivity.
  - vm_compute. reflexivity.
Qed.

(** The sixth line of a run with [delta_t = 0.01] shows the time
    0.060000000000000005. *)
Example printed_time_example :
  match SpaceTimeClock.slabs mesh2 Positive P1 (fun _ => lset_fun) st_solver
          (fun _ _ _ => 0) (Float64.of_ratio 1 100) 6
          (SpaceTimeClock.init mesh2 (fun _ => lset_fun) no_ci
             (Float64.of_ratio 1 100)) with
  | Some s =>
      Some (Qred (fst (nth 5 (SpaceTime.printed (SpaceTimeClock.notebook s)) (0, 0))))
  | None => None
  end = Some (8646911284551353 # 144115188075855872).
Proof. vm_compute. reflexivity. Qed.

(** The solve moves the free dof and keeps the other one. *)
Example SolveLinearSystem_example :
  match CutFEM.SolveLinearSystem solver two_dofs with
  | Some s => Some (map Qred (CutFEM.gfu s))
  | None => None
  end = Some [3; 2].
Proof. vm_compute. reflexivity. Qed.

(** A complete run of the CutFEM notebook: dof 0 of [Vh] is a Dirichlet
    dof, so entry [4 + 0] of [gfu] keeps the boundary datum 7. *)
Example CutFEM_run_example :
  match CutFEM.run mesh2 lset Positive P1 (fun _ => 7) assemble_a assemble_f solver with
  | Some s => Some (map Qred (CutFEM.gfu s), CutFEM.freedofs_of s)
  | None => None
  end = Some ([0; 1; 1; 0; 7; 1; 1; 1],
              [false; true; true; false; false; true; true; true]).
Proof. vm_compute. reflexivity. Qed.

Example RestrictGFInTime_example :
  SpaceTime.RestrictGFInTime st_lset 1 = Some [1; 1; 2; 2]
  /\ SpaceTime.RestrictGFInTime st_lset 2 = None.
Proof. split; vm_compute; reflexivity. Qed.

Lemma CutInfo_classification_witness :
  elements mesh2 !! 0%nat = Some [0; 1; 2]%nat
  /\ classified_by Positive (el_values lset [0; 1; 2]%nat)
       (ba_get (GetElementsOfType (CutInfo_of Positive mesh2 lset) CDOM_NEG) 0)
       (ba_get (GetElementsOfType (CutInfo_of Positive mesh2 lset) CDOM_POS) 0)
       (ba_get (GetElementsOfType (CutInfo_of Positive mesh2 lset) CDOM_IF) 0)
       (ba_get (GetElementsOfType (CutInfo_of Positive mesh2 lset) HASNEG) 0)
       (ba_get (GetElementsOfType (CutInfo_of Positive mesh2 lset) HASPOS) 0).
Proof.
  split; [reflexivity|].
  apply (CutInfo_classification Positive mesh2 lset st_lset 0 [0; 1; 2]%nat).
  - reflexivity.
  - discriminate.
Defined.


Lemma band_covers_interface_witness :
  0 <= 0.1 /\ 0 <= 1 * 0.0025
  /\ ba_subset
       (GetElementsOfType (CutInfo_of Positive mesh2 (InterpolateToP1 mesh2 lset_fun))
                          CDOM_IF)
       (load 0%nat
          (fst (TraceFEM.UpdateBand mesh2 Positive lset_fun 0.1 0%nat
                  (snd (alloc [true; true] Store.empty))))).
Proof.
  split; [discriminate|]. split; [discriminate|].
  apply (band_covers_interface mesh2 Positive P1 1 0.0025 (fun _ => lset_fun)
           (fun _ => false) (fun _ _ _ _ g _ => g) [] lset_fun 0.1 0%nat
           (snd (alloc [true; true] Store.empty)) 0%nat).
  - discriminate.
  - discriminate.
  - simpl. lia.
  - reflexivity.
Defined.

Lemma SolveLinearSystem_frame_witness :
  exists s',
    CutFEM.SolveLinearSystem solver two_dofs = Some s'
    /\ CutFEM.vec_at (CutFEM.gfu s') 1 == CutFEM.vec_at (CutFEM.gfu two_dofs) 1.
Proof.
  eexists. split; [reflexivity|].
  eapply (SolveLinearSystem_frame mesh2 Positive P1 (fun _ => 7) assemble_a
            assemble_f solver two_dofs).
  - reflexivity.
  - reflexivity.
Defined.

Lemma deformation_discipline_witness :
  exists final,
    CutFEM.run mesh2 lset Positive P1 (fun _ => 7) assemble_a assemble_f solver
    = Some final
    /\ Deformation.disciplined (CutFEM.trace final)
    /\ Deformation.disciplined
         (IntLset.trace (IntLset.run (355 # 113) (fun _ _ _ => 3) 2 6)).
Proof.
  eexists. split; [vm_compute; reflexivity|].
  destruct (deformation_discipline (355 # 113) (fun _ _ _ => 3) 2 6
              mesh2 lset Positive P1 (fun _ => 7) assemble_a assemble_f solver)
    as (Hnb & _ & _ & Hcut).
  split; [|exact Hnb].
  eapply Hcut. vm_compute. reflexivity.
Defined.

End ConcreteInput.

(* ================================================================== *)
(** * Part III: further properties of the notebooks *)
(* ================================================================== *)

(** ** The forms, point by point *)

Section FormFacts.
Import Vec2.

Lemma Qsquare_nonneg (x : Q) : 0 <= x * x.
Proof. nra. Qed.

Lemma dotp_comm (a b : Vec) : dotp a b == dotp b a.
Proof. unfold dotp. ring. Qed.

Lemma dotp_self_nonneg (a : Vec) : 0 <= dotp a a.
Proof.
  unfold dotp.
  pose proof (Qsquare_nonneg (fst a)). pose proof (Qsquare_nonneg (snd a)). lra.
Qed.

Lemma dotp_scale_l (c : Q) (a b : Vec) : dotp (scale c a) b == c * dotp a b.
Proof. unfold dotp, scale. simpl. ring. Qed.

Lemma alpha_values : CutFEMForms.alpha 0 == 1 /\ CutFEMForms.alpha 1 == 2.
Proof. split; reflexivity. Qed.

Lemma average_flux_value (p : CutFEMForms.Point) (w : CutFEMForms.Function) :
  CutFEMForms.average_flux p w
  == - (CutFEMForms.kappa p 0
        * dotp (scale (CutFEMForms.alpha 0) (CutFEMForms.grad w 0)) (CutFEMForms.n p)
        + CutFEMForms.kappa p 1
          * dotp (scale (CutFEMForms.alpha 1) (CutFEMForms.grad w 1))
                 (CutFEMForms.n p)).
Proof.
  unfold CutFEMForms.average_flux, py_sum. cbn [map fold_left].
  rewrite !dotp_scale_l. ring.
Qed.

(** X11. Every integrand the notebook adds to [a = BilinearForm(VhG,
    symmetric = True)] is symmetric in the trial and the test function:
    the two domain integrands, the Nitsche consistency integrand and the
    Nitsche penalty. *)
Theorem CutFEM_forms_symmetric (p : CutFEMForms.Point)
    (uh vh : CutFEMForms.Function) :
  CutFEMForms.form_neg uh vh == CutFEMForms.form_neg vh uh
  /\ CutFEMForms.form_pos uh vh == CutFEMForms.form_pos vh uh
  /\ CutFEMForms.form_nitsche p uh vh == CutFEMForms.form_nitsche p vh uh
  /\ CutFEMForms.form_stab p uh vh == CutFEMForms.form_stab p vh uh.
Proof.
  split; [|split; [|split]].
  - unfold CutFEMForms.form_neg. rewrite !dotp_scale_l, (dotp_comm (_ uh _)).
    reflexivity.
  - unfold CutFEMForms.form_pos. rewrite !dotp_scale_l, (dotp_comm (_ uh _)).
    reflexivity.
  - unfold CutFEMForms.form_nitsche. ring.
  - unfold CutFEMForms.form_stab. ring.
Qed.

(** X12. On the diagonal the domain integrands and the Nitsche penalty of
    the CutFEM notebook are nonnegative, the penalty parameter being
    [60/h > 0] on a mesh of positive size; the penalty vanishes exactly
    where the two components agree. *)
Theorem CutFEM_forms_diagonal (p : CutFEMForms.Point) (uh : CutFEMForms.Function) :
  0 < CutFEMForms.h p ->
  0 <= CutFEMForms.form_neg uh uh
  /\ 0 <= CutFEMForms.form_pos uh uh
  /\ CutFEMForms.stab p == 60 / CutFEMForms.h p
  /\ 0 < CutFEMForms.stab p
  /\ 0 <= CutFEMForms.form_stab p uh uh
  /\ (CutFEMForms.form_stab p uh uh == 0
      <-> CutFEMForms.val uh 0 == CutFEMForms.val uh 1).
Proof.
  intros Hh.
  assert (Hs : CutFEMForms.stab p == 60 / CutFEMForms.h p).
  { unfold CutFEMForms.stab, CutFEMForms.alpha. simpl. field. lra. }
  assert (Hpos : 0 < CutFEMForms.stab p).
  { rewrite Hs. apply Qlt_shift_div_l; [exact Hh|lra]. }
  split; [|split; [|split; [|split; [|split]]]].
  - unfold CutFEMForms.form_neg. rewrite dotp_scale_l.
    pose proof (dotp_self_nonneg (CutFEMForms.grad uh 0)).
    destruct alpha_values as [-> _]. lra.
  - unfold CutFEMForms.form_pos. rewrite dotp_scale_l.
    pose proof (dotp_self_nonneg (CutFEMForms.grad uh 1)).
    destruct alpha_values as [_ ->]. lra.
  - exact Hs.
  - exact Hpos.
  - unfold CutFEMForms.form_stab.
    set (j := CutFEMForms.val uh 0 - CutFEMForms.val uh 1).
    pose proof (Qsquare_nonneg j).
    setoid_replace (CutFEMForms.stab p * j * j) with (CutFEMForms.stab p * (j * j)) using relation Qeq
      by ring.
    apply Qmult_le_0_compat; lra.
  - unfold CutFEMForms.form_stab.
    set (j := CutFEMForms.val uh 0 - CutFEMForms.val uh 1).
    split.
    + intros H0.
      assert (Hj : j * j == 0).
      { apply (Qmult_inj_l _ _ (CutFEMForms.stab p)); [lra|].
        transitivity (CutFEMForms.stab p * j * j); [ring|].
        rewrite H0. ring. }
      assert (j == 0).
      { destruct (Qmult_integral _ _ Hj); assumption. }
      unfold j in *. lra.
    + intros He. assert (j == 0) by (unfold j; lra).
      setoid_replace j with 0 using relation Qeq by assumption. ring.
Qed.

(** X13. The averaged flux of the Nitsche terms is the convex combination
    of the two one-sided fluxes with the cut ratio as weight: the weights
    are nonnegative and add up to one, the average lies between the two
    one-sided fluxes, and equals their common value where they agree. *)
Theorem average_flux_convex (p : CutFEMForms.Point) (w : CutFEMForms.Function) :
  0 <= CutFEMForms.CutRatioGF p -> CutFEMForms.CutRatioGF p <= 1 ->
  let flux i := - dotp (scale (CutFEMForms.alpha i) (CutFEMForms.grad w i))
                       (CutFEMForms.n p) in
  0 <= CutFEMForms.kappa p 0
  /\ 0 <= CutFEMForms.kappa p 1
  /\ CutFEMForms.kappa p 0 + CutFEMForms.kappa p 1 == 1
  /\ CutFEMForms.average_flux p w
     == CutFEMForms.kappa p 0 * flux 0%nat + CutFEMForms.kappa p 1 * flux 1%nat
  /\ (flux 0%nat <= flux 1%nat ->
      flux 0%nat <= CutFEMForms.average_flux p w
      /\ CutFEMForms.average_flux p w <= flux 1%nat)
  /\ (flux 1%nat <= flux 0%nat ->
      flux 1%nat <= CutFEMForms.average_flux p w
      /\ CutFEMForms.average_flux p w <= flux 0%nat)
  /\ (flux 0%nat == flux 1%nat -> CutFEMForms.average_flux p w == flux 0%nat).
Proof.
  intros H0 H1 flux.
  assert (Ha : CutFEMForms.average_flux p w
               == CutFEMForms.kappa p 0 * flux 0%nat
                  + CutFEMForms.kappa p 1 * flux 1%nat).
  { rewrite average_flux_value. unfold flux. ring. }
  assert (Hk0 : CutFEMForms.kappa p 0 == CutFEMForms.CutRatioGF p) by reflexivity.
  assert (Hk1 : CutFEMForms.kappa p 1 == 1 - CutFEMForms.CutRatioGF p) by reflexivity.
  split; [lra|]. split; [lra|]. split; [lra|]. split; [exact Ha|].
  rewrite Ha, Hk0, Hk1.
  generalize (flux 0%nat) (flux 1%nat) (CutFEMForms.CutRatioGF p) H0 H1.
  clear. intros f0 f1 k H0 H1.
  split; [|split].
  - intros Hf. split; nra.
  - intros Hf. split; nra.
  - intros Hf. rewrite Hf. ring.
Qed.

(** X15. [P(u) = u - (u*n)*n] is the projection on the tangent plane of
    the unit normal [n]: the result has no normal part, projecting twice
    changes nothing, and the projected inner product is the inner product
    without its normal part. *)
Theorem P_is_tangential_projection (n a b : Vec) :
  dotp n n == 1 ->
  dotp (TraceFEMForms.P n a) n == 0
  /\ veq (TraceFEMForms.P n (TraceFEMForms.P n a)) (TraceFEMForms.P n a)
  /\ dotp (TraceFEMForms.P n a) (TraceFEMForms.P n b)
     == dotp a b - dotp a n * dotp b n
  /\ dotp (TraceFEMForms.P n a) (TraceFEMForms.P n b)
     == dotp (TraceFEMForms.P n a) b.
Proof.
  intros Hn.
  assert (H1 : forall c, dotp (TraceFEMForms.P n c) n == 0).
  { intros c. unfold TraceFEMForms.P, vsub, scale, dotp in *. simpl in *.
    setoid_replace ((fst c - (fst c * fst n + snd c * snd n) * fst n) * fst n
                    + (snd c - (fst c * fst n + snd c * snd n) * snd n) * snd n)
      with ((fst c * fst n + snd c * snd n)
            * (1 - (fst n * fst n + snd n * snd n))) using relation Qeq by ring.
    rewrite Hn. ring. }
  assert (H2 : forall c d, dotp (TraceFEMForms.P n c) (TraceFEMForms.P n d)
                           == dotp (TraceFEMForms.P n c) d).
  { intros c d.
    assert (E : dotp (TraceFEMForms.P n c) (TraceFEMForms.P n d)
                == dotp (TraceFEMForms.P n c) d
                   - dotp d n * dotp (TraceFEMForms.P n c) n).
    { unfold TraceFEMForms.P, vsub, scale, dotp. simpl. ring. }
    rewrite E, H1. ring. }
  split; [apply H1|]. split; [|split].
  - pose proof (H1 a) as Ha.
    unfold veq. unfold TraceFEMForms.P at 1 3. unfold vsub, scale. simpl.
    rewrite Ha. split; ring.
  - rewrite H2. unfold TraceFEMForms.P, vsub, scale, dotp. simpl. ring.
  - apply H2.
Qed.

Lemma form_if_diagonal (dt nu : Q) (p : TraceFEMForms.Point)
    (uh : TraceFEMForms.Function) :
  TraceFEMForms.form_if dt nu p uh uh
  == (1 + dt * (TraceFEMForms.divGw p - (1 # 2) * TraceFEMForms.divGwT p))
     * (TraceFEMForms.val uh * TraceFEMForms.val uh)
     + dt * nu * dotp (TraceFEMForms.P (TraceFEMForms.n p) (TraceFEMForms.grad uh))
                      (TraceFEMForms.P (TraceFEMForms.n p) (TraceFEMForms.grad uh)).
Proof.
  unfold TraceFEMForms.form_if. rewrite !dotp_scale_l.
  setoid_replace 0.5 with (1 # 2) using relation Qeq by reflexivity. ring.
Qed.

(** X16. In the interface integrand of a TraceFEM time step the two
    convection terms are skew: they cancel on the diagonal, where the
    integrand is the mass term, the divergence term and the tangential
    diffusion, and they are all of the difference between the integrand and
    its transpose; the diffusion coefficient [nu = 2*R*R] is one half. *)
Theorem form_if_convection_skew (dt nu : Q) (p : TraceFEMForms.Point)
    (uh vh : TraceFEMForms.Function) :
  let Pn := TraceFEMForms.P (TraceFEMForms.n p) in
  TraceFEMForms.form_if dt nu p uh uh
  == (1 + dt * (TraceFEMForms.divGw p - (1 # 2) * TraceFEMForms.divGwT p))
     * (TraceFEMForms.val uh * TraceFEMForms.val uh)
     + dt * nu * dotp (Pn (TraceFEMForms.grad uh)) (Pn (TraceFEMForms.grad uh))
  /\ TraceFEMForms.form_if dt nu p uh vh - TraceFEMForms.form_if dt nu p vh uh
     == dt * (dotp (Pn (TraceFEMForms.w p)) (Pn (TraceFEMForms.grad uh))
              * TraceFEMForms.val vh
              - dotp (Pn (TraceFEMForms.w p)) (Pn (TraceFEMForms.grad vh))
                * TraceFEMForms.val uh)
  /\ TraceFEMForms.nu == 1 # 2.
Proof.
  intros Pn. split; [|split].
  - apply form_if_diagonal.
  - unfold TraceFEMForms.form_if. fold Pn. rewrite !dotp_scale_l.
    rewrite (dotp_comm (Pn (TraceFEMForms.grad vh)) (Pn (TraceFEMForms.grad uh))).
    setoid_replace 0.5 with (1 # 2) using relation Qeq by reflexivity. ring.
  - reflexivity.
Qed.

(** X17. The normal-derivative stabilization on the band is symmetric, and
    nonnegative on the diagonal when the step, the velocity and the
    diffusion are nonnegative and the mesh size is positive; with the
    diagonal of the interface integrand this bounds the form of one step
    from below by the mass term wherever the divergence term is
    nonnegative. *)
Theorem form_band_nonnegative (dt vel nu : Q) (p : TraceFEMForms.Point)
    (uh vh : TraceFEMForms.Function) :
  0 <= dt -> 0 <= vel -> 0 <= nu -> 0 < TraceFEMForms.h p ->
  TraceFEMForms.form_band dt vel nu p uh vh
  == TraceFEMForms.form_band dt vel nu p vh uh
  /\ 0 <= TraceFEMForms.form_band dt vel nu p uh uh
  /\ (0 <= TraceFEMForms.divGw p - (1 # 2) * TraceFEMForms.divGwT p ->
      TraceFEMForms.val uh * TraceFEMForms.val uh
      <= TraceFEMForms.form_if dt nu p uh uh
         + TraceFEMForms.form_band dt vel nu p uh uh).
Proof.
  intros Hdt Hvel Hnu Hh.
  assert (Hrho : 0 <= TraceFEMForms.rho vel nu p).
  { unfold TraceFEMForms.rho.
    assert (0 <= nu / TraceFEMForms.h p).
    { apply Qle_shift_div_l; [exact Hh|lra]. }
    lra. }
  assert (Hb : 0 <= TraceFEMForms.form_band dt vel nu p uh uh).
  { unfold TraceFEMForms.form_band.
    set (g := dotp (TraceFEMForms.grad uh) (TraceFEMForms.n p)).
    setoid_replace (dt * TraceFEMForms.rho vel nu p * g * g)
      with ((dt * TraceFEMForms.rho vel nu p) * (g * g)) using relation Qeq by ring.
    apply Qmult_le_0_compat; [apply Qmult_le_0_compat; assumption|].
    apply Qsquare_nonneg. }
  split; [|split].
  - unfold TraceFEMForms.form_band. ring.
  - exact Hb.
  - intros Hdiv.
    rewrite form_if_diagonal.
    set (m := TraceFEMForms.val uh * TraceFEMForms.val uh).
    set (g := dotp _ _).
    assert (0 <= m) by apply Qsquare_nonneg.
    assert (0 <= g) by apply dotp_self_nonneg.
    assert (0 <= dt * nu * g).
    { apply Qmult_le_0_compat; [apply Qmult_le_0_compat; assumption|assumption]. }
    assert (0 <= dt * (TraceFEMForms.divGw p - (1 # 2) * TraceFEMForms.divGwT p) * m).
    { apply Qmult_le_0_compat; [apply Qmult_le_0_compat; assumption|assumption]. }
    lra.
Qed.

End FormFacts.

(** ** intlset.ipynb: the error tables and the orders *)

Section ConvergenceFacts.
Import Xfem Deformation.

Variable pi : Q.
Variable Integrate_val : nat -> DOMAIN_TYPE -> bool -> Q.

Local Abbreviation key_body := (IntLset.key_body pi Integrate_val).
Local Abbreviation reflevel_body := (IntLset.reflevel_body pi Integrate_val).
Local Abbreviation refinement_driver := (IntLset.refinement_driver pi Integrate_val).
Local Abbreviation error_of :=
  (fun (curved : bool) (key : DOMAIN_TYPE) (lvl : nat) =>
     Qabs (Integrate_val lvl key curved - IntLset.referencevals pi key)).

Lemma key_body_tables (key : DOMAIN_TYPE) (s : IntLset.State) :
  IntLset.level (key_body key s) = IntLset.level s
  /\ IntLset.deformation (key_body key s) = false
  /\ IntLset.errors_curved (key_body key s)
     = IntLset.append_at (IntLset.errors_curved s) key
         (error_of true key (IntLset.level s))
  /\ IntLset.errors_uncurved (key_body key s)
     = IntLset.append_at (IntLset.errors_uncurved s) key
         (error_of (IntLset.deformation s) key (IntLset.level s)).
Proof. destruct s. repeat split; reflexivity. Qed.

Lemma keys_tables (s : IntLset.State) :
  IntLset.deformation s = false ->
  let s' := for_each [NEG; POS; IF] key_body s in
  IntLset.level s' = IntLset.level s
  /\ IntLset.deformation s' = false
  /\ forall key,
       IntLset.errors_curved s' key
       = IntLset.errors_curved s key ++ [error_of true key (IntLset.level s)]
       /\ IntLset.errors_uncurved s' key
          = IntLset.errors_uncurved s key ++ [error_of false key (IntLset.level s)].
Proof.
  intros Hd s'. unfold s', for_each. cbn [fold_left].
  destruct (key_body_tables NEG s) as (L1 & D1 & C1 & U1).
  set (s1 := key_body NEG s) in *.
  destruct (key_body_tables POS s1) as (L2 & D2 & C2 & U2).
  set (s2 := key_body POS s1) in *.
  destruct (key_body_tables IF s2) as (L3 & D3 & C3 & U3).
  set (s3 := key_body IF s2) in *.
  split; [congruence|]. split; [exact D3|].
  intros key. rewrite C3, U3, C2, U2, C1, U1, D2, D1, Hd, L2, L1.
  unfold IntLset.append_at.
  destruct key; cbn [IntLset.DOMAIN_TYPE_eqb]; split; reflexivity.
Qed.

Lemma reflevel_body_tables (r : nat) (s : IntLset.State) :
  IntLset.deformation s = false ->
  let s' := reflevel_body r s in
  IntLset.level s' = (if Nat.ltb 0 r then S (IntLset.level s) else IntLset.level s)
  /\ IntLset.deformation s' = false
  /\ forall key,
       IntLset.errors_curved s' key
       = IntLset.errors_curved s key ++ [error_of true key (IntLset.level s')]
       /\ IntLset.errors_uncurved s' key
          = IntLset.errors_uncurved s key ++ [error_of false key (IntLset.level s')].
Proof.
  intros Hd s'. unfold s', IntLset.reflevel_body.
  set (s0 := if Nat.ltb 0 r then IntLset.mesh_Refine s else s).
  assert (H0 : IntLset.deformation s0 = false
               /\ IntLset.level s0
                  = (if Nat.ltb 0 r then S (IntLset.level s) else IntLset.level s)
               /\ IntLset.errors_curved s0 = IntLset.errors_curved s
               /\ IntLset.errors_uncurved s0 = IntLset.errors_uncurved s).
  { unfold s0. destruct (Nat.ltb 0 r); destruct s; repeat split; assumption. }
  destruct H0 as (D0 & L0 & C0 & U0).
  destruct (keys_tables s0 D0) as (L1 & D1 & T1).
  set (s1 := for_each [NEG; POS; IF] key_body s0) in *.
  assert (E : IntLset.level (IntLset.emit RefineAtLevelSet s1) = IntLset.level s1
              /\ IntLset.deformation (IntLset.emit RefineAtLevelSet s1)
                 = IntLset.deformation s1
              /\ IntLset.errors_curved (IntLset.emit RefineAtLevelSet s1)
                 = IntLset.errors_curved s1
              /\ IntLset.errors_uncurved (IntLset.emit RefineAtLevelSet s1)
                 = IntLset.errors_uncurved s1).
  { destruct s1. repeat split; reflexivity. }
  destruct E as (L2 & D2 & C2 & U2).
  rewrite L2, D2, C2, U2, L1, <- L0, <- C0, <- U0.
  split; [reflexivity|]. split; [exact D1|]. exact T1.
Qed.

Lemma refinement_driver_tables (n : nat) (s0 : IntLset.State) :
  IntLset.deformation s0 = false ->
  IntLset.level s0 = 0%nat ->
  let s := refinement_driver n s0 in
  IntLset.level s = Nat.pred n
  /\ IntLset.deformation s = false
  /\ forall key,
       IntLset.errors_curved s key
       = IntLset.errors_curved s0 key ++ map (error_of true key) (seq 0 n)
       /\ IntLset.errors_uncurved s key
          = IntLset.errors_uncurved s0 key ++ map (error_of false key) (seq 0 n).
Proof.
  intros Hd Hl. induction n as [|n IH].
  - cbn. split; [exact Hl|]. split; [exact Hd|].
    intros key. rewrite !app_nil_r. split; reflexivity.
  - intros s. unfold s, IntLset.refinement_driver, for_each.
    rewrite seq_S, fold_left_app. cbn [fold_left Nat.add].
    change (fold_left (fun st x => reflevel_body x st) (seq 0 n) s0)
      with (refinement_driver n s0).
    destruct IH as (L & D & T).
    set (sn := refinement_driver n s0) in *.
    destruct (reflevel_body_tables n sn D) as (L' & D' & T').
    assert (Ln : IntLset.level (reflevel_body n sn) = n).
    { rewrite L', L. destruct n; reflexivity. }
    split; [exact Ln|]. split; [exact D'|].
    intros key. destruct (T' key) as [Tc Tu]. destruct (T key) as [Tc0 Tu0].
    rewrite Tc, Tu, Tc0, Tu0, Ln, !map_app, !app_assoc. split; reflexivity.
Qed.

(** X1. After the convergence driver the two error tables hold, for every
    part of the domain, one entry per refinement level in the order of the
    levels: entry [lvl] of [errors_curved[key]] is the error of the integral
    on the deformed mesh of level [lvl], entry [lvl] of
    [errors_uncurved[key]] that on the undeformed mesh of the same level,
    whatever was executed before the driver. *)
Theorem convergence_tables (reruns refinements : nat) (key : DOMAIN_TYPE) :
  let s := IntLset.run pi Integrate_val reruns refinements in
  IntLset.errors_curved s key
  = map (fun lvl => Qabs (Integrate_val lvl key true - IntLset.referencevals pi key))
        (seq 0 refinements)
  /\ IntLset.errors_uncurved s key
     = map (fun lvl => Qabs (Integrate_val lvl key false
                             - IntLset.referencevals pi key))
           (seq 0 refinements)
  /\ length (IntLset.errors_curved s key) = refinements
  /\ length (IntLset.errors_uncurved s key) = refinements
  /\ IntLset.level s = Nat.pred refinements
  /\ IntLset.deformation s = false.
Proof.
  intros s. unfold s, IntLset.run.
  destruct (refinement_driver_tables refinements
              (IntLset.setup (IntLset.first_cells reruns)) eq_refl eq_refl)
    as (L & D & T).
  destruct (T key) as [Tc Tu]. cbn [IntLset.setup IntLset.errors_curved
    IntLset.errors_uncurved app] in Tc, Tu.
  split; [exact Tc|]. split; [exact Tu|].
  split; [rewrite Tc, length_map, length_seq; reflexivity|].
  split; [rewrite Tu, length_map, length_seq; reflexivity|].
  split; [exact L|exact D].
Qed.

End ConvergenceFacts.

Section PostProcessingFacts.

Lemma py_div_None (a b : Q) : py_div a b = None <-> b == 0.
Proof.
  unfold py_div. destruct (Qeq_bool b 0) eqn:E.
  - apply Qeq_bool_iff in E. split; [intros _; exact E|reflexivity].
  - apply Qeq_bool_neq in E. split; [discriminate|intros H; contradiction].
Qed.

Lemma py_div_Some (a b q : Q) : py_div a b = Some q <-> ~ b == 0 /\ q = a / b.
Proof.
  unfold py_div. destruct (Qeq_bool b 0) eqn:E.
  - apply Qeq_bool_iff in E. split; [discriminate|intros [H _]; contradiction].
  - apply Qeq_bool_neq in E. split.
    + intros H. injection H as <-. split; [exact E|reflexivity].
    + intros [_ ->]. reflexivity.
Qed.

Lemma mapM_lookup {A B : Type} (f : A -> option B) (l : list A) :
  (mapM f l = None <-> exists i x, l !! i = Some x /\ f x = None)
  /\ (forall k, mapM f l = Some k ->
        length k = length l
        /\ forall i x, l !! i = Some x -> exists y, k !! i = Some y /\ f x = Some y).
Proof.
  split.
  - rewrite mapM_None, Exists_exists. split.
    + intros (x & Hin & Hx). apply list_elem_of_lookup in Hin as [i Hi].
      exists i, x. split; assumption.
    + intros (i & x & Hi & Hx). exists x. split; [|exact Hx].
      apply list_elem_of_lookup. exists i. exact Hi.
  - intros k Hk. apply mapM_Some_1 in Hk. split.
    + symmetry. eapply Forall2_length. exact Hk.
    + intros i x Hi. destruct (Forall2_lookup_l _ _ _ _ _ Hk Hi) as (y & Hy & Hf).
      exists y. split; assumption.
Qed.

(** The pairs [zip(errors[0:-1], errors[1:])] runs over. *)
Lemma zip_neighbours (l : list Q) :
  length (zip (removelast l) (tail l)) = (length l - 1)%nat
  /\ forall i, (i < length l - 1)%nat ->
       zip (removelast l) (tail l) !! i = Some (nth i l 0, nth (S i) l 0).
Proof.
  induction l as [|a l IH].
  - split; [reflexivity|]. intros i Hi. cbn in Hi. lia.
  - destruct l as [|b l].
    + split; [reflexivity|]. intros i Hi. cbn in Hi. lia.
    + destruct IH as [IHl IHi].
      change (zip (removelast (a :: b :: l)) (tail (a :: b :: l)))
        with ((a, b) :: zip (removelast (b :: l)) (tail (b :: l))).
      split.
      * cbn [length]. rewrite IHl. cbn [length]. lia.
      * intros [|i] Hi; [reflexivity|].
        cbn [length] in Hi.
        rewrite lookup_cons. rewrite IHi by (cbn [length]; lia). reflexivity.
Qed.

Variable log : Q -> Q.

Lemma eoc_table_spec (errors : list Q) :
  ~ log 2 == 0 ->
  (IntLsetPost.eoc_table log errors = None
   <-> exists i, (0 < i < length errors)%nat /\ nth i errors 0 == 0)
  /\ (forall eoc, IntLsetPost.eoc_table log errors = Some eoc ->
        length eoc = (length errors - 1)%nat
        /\ forall i, (i < length errors - 1)%nat ->
             nth i eoc 0 = log (nth i errors 0 / nth (S i) errors 0) / log 2).
Proof.
  intros Hlog.
  destruct (zip_neighbours errors) as [Zl Zi].
  destruct (mapM_lookup
              (fun ab => q ← py_div (fst ab) (snd ab); py_div (log q) (log 2))
              (zip (removelast errors) (tail errors))) as [HN HS].
  fold (IntLsetPost.eoc_table log errors) in HN, HS.
  assert (Hf : forall a b,
             (q ← py_div a b; py_div (log q) (log 2)) = None <-> b == 0).
  { intros a b. destruct (py_div a b) as [q|] eqn:E; cbn.
    - apply py_div_Some in E as [Hb _]. rewrite py_div_None.
      split; intros; contradiction.
    - apply py_div_None in E. split; [intros _; exact E|reflexivity]. }
  split.
  - rewrite HN. split.
    + intros (i & [a b] & Hi & Hx).
      assert (Hlt : (i < length errors - 1)%nat).
      { rewrite <- Zl. eapply lookup_lt_Some. exact Hi. }
      rewrite (Zi i Hlt) in Hi. injection Hi as <- <-.
      exists (S i). split; [lia|]. apply (Hf (nth i errors 0)). exact Hx.
    + intros (i & Hi & H0). destruct i as [|i]; [lia|].
      exists i, (nth i errors 0, nth (S i) errors 0).
      split; [apply Zi; lia|]. apply Hf. exact H0.
  - intros eoc He. destruct (HS eoc He) as [Hl Hi].
    split; [rewrite Hl; exact Zl|].
    intros i Hlt. destruct (Hi i _ (Zi i Hlt)) as (y & Hy & Hfy).
    rewrite nth_lookup, Hy. cbn [default fst snd] in *.
    destruct (py_div (nth i errors 0) (nth (S i) errors 0)) as [q|] eqn:E;
      [|discriminate].
    cbn in Hfy. apply py_div_Some in E as [_ ->].
    apply py_div_Some in Hfy as [_ ->]. reflexivity.
Qed.

(** X3. The table of convergence orders [eoc_curved[key]] (and
    [eoc_uncurved[key]]) has one entry less than the table of errors,
    entry [i] being [log(e_i/e_(i+1))/log(2)]; computing it raises
    (ZeroDivisionError) exactly when an error other than the first is
    zero, so an integral that is exact on some refined level breaks the
    table; with no or one error the table is empty. *)
Theorem eoc_table_raises_iff (errors : list Q) :
  ~ log 2 == 0 ->
  (IntLsetPost.eoc_table log errors = None
   <-> exists i, (0 < i < length errors)%nat /\ nth i errors 0 == 0)
  /\ (forall eoc, IntLsetPost.eoc_table log errors = Some eoc ->
        length eoc = (length errors - 1)%nat
        /\ forall i, (i < length errors - 1)%nat ->
             nth i eoc 0 = log (nth i errors 0 / nth (S i) errors 0) / log 2)
  /\ ((length errors <= 1)%nat -> IntLsetPost.eoc_table log errors = Some []).
Proof.
  intros Hlog. destruct (eoc_table_spec errors Hlog) as [HN HS].
  split; [exact HN|]. split; [exact HS|].
  intros Hle. unfold IntLsetPost.eoc_table.
  destruct errors as [|a [|b l]]; [reflexivity|reflexivity|cbn in Hle; lia].
Qed.

Lemma eoc_of_spec (errors : list Q) :
  ~ log 0.5 == 0 ->
  (IntLsetPost.eoc_of log errors = None
   <-> exists i, (i < length errors - 1)%nat /\ nth i errors 0 == 0)
  /\ (forall eoc, IntLsetPost.eoc_of log errors = Some eoc ->
        length eoc = (length errors - 1)%nat
        /\ forall i, (i < length errors - 1)%nat ->
             nth i eoc 0 = log (nth (S i) errors 0 / nth i errors 0) / log 0.5).
Proof.
  intros Hlog.
  destruct (mapM_lookup
              (fun i => q ← py_div (nth (i + 1) errors 0) (nth i errors 0);
                        py_div (log q) (log 0.5))
              (seq 0 (length errors - 1))) as [HN HS].
  fold (IntLsetPost.eoc_of log errors) in HN, HS.
  assert (Hf : forall a b,
             (q ← py_div a b; py_div (log q) (log 0.5)) = None <-> b == 0).
  { intros a b. destruct (py_div a b) as [q|] eqn:E; cbn.
    - apply py_div_Some in E as [Hb _]. rewrite py_div_None.
      split; intros; contradiction.
    - apply py_div_None in E. split; [intros _; exact E|reflexivity]. }
  split.
  - rewrite HN. split.
    + intros (i & x & Hi & Hx). apply lookup_seq in Hi as [-> Hlt].
      exists i. split; [exact Hlt|]. cbn [Nat.add] in Hx.
      apply (Hf (nth (i + 1) errors 0)). exact Hx.
    + intros (i & Hi & H0). exists i, i.
      split; [apply lookup_seq; split; [reflexivity|exact Hi]|].
      apply Hf. exact H0.
  - intros eoc He. destruct (HS eoc He) as [Hl Hi].
    split; [rewrite Hl, length_seq; reflexivity|].
    intros i Hlt.
    destruct (Hi i i) as (y & Hy & Hfy);
      [apply lookup_seq; split; [reflexivity|exact Hlt]|].
    rewrite nth_lookup, Hy. cbn [default].
    replace (i + 1)%nat with (S i) in Hfy by lia.
    destruct (py_div (nth (S i) errors 0) (nth i errors 0)) as [q|] eqn:E;
      [|discriminate].
    cbn in Hfy. apply py_div_Some in E as [_ ->].
    apply py_div_Some in Hfy as [_ ->]. reflexivity.
Qed.

Variable pi : Q.

(** X4. [AppendResultAndPostProcess] appends the new error to [errors]
    before it computes the orders, and computing the orders raises
    (ZeroDivisionError) exactly when one of the errors collected before is
    zero: the call that records an exact integral succeeds, every later
    call raises and still lengthens the list. *)
Theorem AppendResultAndPostProcess_raises_iff (integral : Q) (errors : list Q) :
  ~ log 0.5 == 0 ->
  let r := IntLsetPost.AppendResultAndPostProcess pi log integral errors in
  fst r = errors ++ [Qabs (integral - pi)]
  /\ (snd r = None <-> exists i, (i < length errors)%nat /\ nth i errors 0 == 0)
  /\ (forall eoc, snd r = Some eoc ->
        length eoc = length errors
        /\ forall i, (i < length errors)%nat ->
             nth i eoc 0 = log (nth (S i) (fst r) 0 / nth i errors 0) / log 0.5).
Proof.
  intros Hlog r. unfold r, IntLsetPost.AppendResultAndPostProcess. cbn [fst snd].
  set (errors' := errors ++ [Qabs (integral - pi)]).
  destruct (eoc_of_spec errors' Hlog) as [HN HS].
  assert (Hlen : (length errors' - 1 = length errors)%nat).
  { unfold errors'. rewrite length_app. cbn [length]. lia. }
  assert (Hnth : forall i, (i < length errors)%nat ->
                           nth i errors' 0 = nth i errors 0).
  { intros i Hi. unfold errors'. apply app_nth1. exact Hi. }
  rewrite Hlen in HN, HS.
  split; [reflexivity|]. split.
  - rewrite HN. split; intros (i & Hi & H0); exists i; (split; [exact Hi|]).
    + rewrite <- (Hnth i Hi). exact H0.
    + rewrite (Hnth i Hi). exact H0.
  - intros eoc He. destruct (HS eoc He) as [Hl Hv]. split; [exact Hl|].
    intros i Hi. rewrite (Hv i Hi), (Hnth i Hi). reflexivity.
Qed.

End PostProcessingFacts.

(** ** intlset.ipynb, second document: the slabs one by one *)

Section SlabFacts.
Import Xfem.

Variable mesh : Mesh.
Variable zero_sign : Sign.
Variable st_fes : FESpace.
Variable levelset : Q -> nat -> Q.
Variable u_exact : Q -> nat -> Q.
Variable solver : SpaceTime.System -> BitArray -> SpaceTime.STGridFunction.
Variable l2error_of : GridFunction -> Q -> GridFunction -> Q.
Variable ci0 : CutInfo.
Variable delta_t : Q.

Local Abbreviation slab :=
  (SpaceTime.slab mesh zero_sign st_fes levelset solver l2error_of delta_t).
Local Abbreviation slabs :=
  (SpaceTime.slabs mesh zero_sign st_fes levelset solver l2error_of delta_t).
Local Abbreviation st_init := (SpaceTime.init mesh u_exact ci0 delta_t).

Ltac slab_proj :=
  cbn [SpaceTime.told SpaceTime.coef_told SpaceTime.coef_delta_t
       SpaceTime.lset_p1 SpaceTime.lset_top SpaceTime.lset_bottom SpaceTime.ci
       SpaceTime.gfu SpaceTime.u_last SpaceTime.hasneg_integrators_a
       SpaceTime.hasneg_integrators_f SpaceTime.patch_integrators_a
       SpaceTime.assembled SpaceTime.printed
       SpaceTime.sys_a SpaceTime.sys_f SpaceTime.sys_coef_told
       SpaceTime.sys_coef_delta_t SpaceTime.sys_lset_p1 SpaceTime.sys_lset_top
       SpaceTime.sys_lset_bottom SpaceTime.sys_u_last
       mbind option_bind].

(** The geometry of one pass of the loop body, and what it prints. *)
Lemma slab_geometry (s : SpaceTime.State) :
  exists s' sys,
    slab s = Some s'
    /\ SpaceTime.assembled s' = Some sys
    /\ SpaceTime.lset_p1 s'
       = SpaceTime.SpaceTimeInterpolateToP1 mesh levelset (SpaceTime.told s) delta_t
    /\ SpaceTime.ci s' = SpaceTime.CutInfo_Update zero_sign mesh (SpaceTime.lset_p1 s')
    /\ SpaceTime.RestrictGFInTime (SpaceTime.lset_p1 s') 0
       = Some (SpaceTime.lset_bottom s')
    /\ SpaceTime.RestrictGFInTime (SpaceTime.lset_p1 s') 1
       = Some (SpaceTime.lset_top s')
    /\ SpaceTime.sys_lset_p1 sys = SpaceTime.lset_p1 s'
    /\ SpaceTime.sys_lset_top sys = SpaceTime.lset_top s'
    /\ SpaceTime.sys_lset_bottom sys = SpaceTime.lset_bottom s'
    /\ SpaceTime.told s' = SpaceTime.told s + delta_t
    /\ SpaceTime.coef_told s' = SpaceTime.told s'
    /\ SpaceTime.printed s'
       = SpaceTime.printed s
         ++ [(SpaceTime.told s',
              l2error_of (SpaceTime.lset_top s') (SpaceTime.told s')
                         (SpaceTime.u_last s'))].
Proof.
  destruct s.
  unfold SpaceTime.slab, SpaceTime.UpdateTimeSlabGeometry.
  rewrite RestrictGFInTime_0, RestrictGFInTime_1. slab_proj.
  unfold SpaceTime.UpdateLinearSystems. slab_proj.
  unfold SpaceTime.SolveForTimeSlab. slab_proj.
  unfold SpaceTime.advance. slab_proj.
  unfold SpaceTime.FinalizeStep. slab_proj.
  rewrite RestrictGFInTime_1. slab_proj.
  eexists. eexists. split; [reflexivity|]. slab_proj.
  split; [reflexivity|]. slab_proj.
  split; [reflexivity|]. split; [reflexivity|].
  split; [apply RestrictGFInTime_0|]. split; [apply RestrictGFInTime_1|].
  repeat (split; [reflexivity|]). reflexivity.
Qed.

Lemma gf_at_SpaceTimeInterpolateToP1 (told tr : Q) (r : GridFunction) (x : nat) :
  SpaceTime.RestrictGFInTime
    (SpaceTime.SpaceTimeInterpolateToP1 mesh levelset told delta_t) tr = Some r ->
  (x < nv mesh)%nat ->
  gf_at r x == (1 - tr) * levelset (SpaceTime.t told delta_t 0) x
               + tr * levelset (SpaceTime.t told delta_t 1) x.
Proof.
  intros Hr Hx. rewrite (RestrictGFInTime_values _ _ _ x Hr).
  unfold SpaceTime.st_eval, SpaceTime.SpaceTimeInterpolateToP1.
  rewrite list_lookup_fmap, lookup_seq_lt by exact Hx. reflexivity.
Qed.

Lemma gf_at_restricted_outside (gf : SpaceTime.STGridFunction) (tr : Q)
    (r : GridFunction) (x : nat) :
  SpaceTime.RestrictGFInTime gf tr = Some r ->
  (length gf <= x)%nat -> gf_at r x == 0.
Proof.
  intros Hr Hx. rewrite (RestrictGFInTime_values _ _ _ x Hr).
  unfold SpaceTime.st_eval. rewrite lookup_ge_None_2 by exact Hx. cbn. ring.
Qed.

Lemma length_SpaceTimeInterpolateToP1 (told : Q) :
  length (SpaceTime.SpaceTimeInterpolateToP1 mesh levelset told delta_t) = nv mesh.
Proof.
  unfold SpaceTime.SpaceTimeInterpolateToP1. rewrite length_map, length_seq.
  reflexivity.
Qed.

(** X6. Whatever state a pass of the loop body starts from, the bottom
    level set of the slab is the level set function at the start time
    [told], the top level set is the level set function at the value
    [told] has after the pass, which is the start time of the next slab,
    and the bottom level set of the next slab is the top level set of this
    one at every vertex: the geometry is continuous across the slab
    boundaries. *)
Theorem slab_geometry_continuous (s0 : SpaceTime.State) :
  Proper (Qeq ==> eq ==> Qeq) levelset ->
  exists s1 s2,
    slab s0 = Some s1
    /\ slab s1 = Some s2
    /\ (forall x, (x < nv mesh)%nat ->
          gf_at (SpaceTime.lset_bottom s1) x == levelset (SpaceTime.told s0) x
          /\ gf_at (SpaceTime.lset_top s1) x == levelset (SpaceTime.told s1) x)
    /\ (forall x, gf_at (SpaceTime.lset_bottom s2) x
                  == gf_at (SpaceTime.lset_top s1) x).
Proof.
  intros Hp.
  destruct (slab_geometry s0)
    as (s1 & _ & E1 & _ & P1 & _ & B1 & T1 & _ & _ & _ & Tt1 & _).
  destruct (slab_geometry s1)
    as (s2 & _ & E2 & _ & P2 & _ & B2 & T2 & _ & _ & _ & Tt2 & _).
  rewrite P1 in B1, T1. rewrite P2 in B2, T2.
  assert (Hb : forall told r x,
             SpaceTime.RestrictGFInTime
               (SpaceTime.SpaceTimeInterpolateToP1 mesh levelset told delta_t) 0
             = Some r ->
             (x < nv mesh)%nat -> gf_at r x == levelset told x).
  { intros told r x Hr Hx. rewrite (gf_at_SpaceTimeInterpolateToP1 _ _ _ _ Hr Hx).
    assert (E : levelset (SpaceTime.t told delta_t 0) x == levelset told x).
    { apply Hp; [unfold SpaceTime.t; ring|reflexivity]. }
    rewrite E. ring. }
  assert (Ht : forall told r x,
             SpaceTime.RestrictGFInTime
               (SpaceTime.SpaceTimeInterpolateToP1 mesh levelset told delta_t) 1
             = Some r ->
             (x < nv mesh)%nat -> gf_at r x == levelset (told + delta_t) x).
  { intros told r x Hr Hx. rewrite (gf_at_SpaceTimeInterpolateToP1 _ _ _ _ Hr Hx).
    assert (E : levelset (SpaceTime.t told delta_t 1) x
                == levelset (told + delta_t) x).
    { apply Hp; [unfold SpaceTime.t; ring|reflexivity]. }
    rewrite E. ring. }
  exists s1, s2.
  split; [exact E1|]. split; [exact E2|]. split.
  - intros x Hx. split; [apply (Hb _ _ _ B1 Hx)|].
    rewrite Tt1. apply (Ht _ _ _ T1 Hx).
  - intros x. destruct (Nat.lt_ge_cases x (nv mesh)) as [Hx|Hx].
    + rewrite (Hb _ _ _ B2 Hx), (Ht _ _ _ T1 Hx), Tt1. reflexivity.
    + rewrite (gf_at_restricted_outside _ _ _ x B2),
        (gf_at_restricted_outside _ _ _ x T1);
        [reflexivity| |]; rewrite length_SpaceTimeInterpolateToP1; exact Hx.
Qed.

Lemma sign_of_Qeq (x y : Q) : x == y -> sign_of zero_sign x = sign_of zero_sign y.
Proof.
  intros E.
  destruct (sign_of zero_sign x) eqn:Ex, (sign_of zero_sign y) eqn:Ey;
    try reflexivity.
  - apply sign_of_Negative in Ex. apply sign_of_Positive in Ey.
    rewrite E in Ex. destruct Ex as [?|[? ?]], Ey as [?|[? ?]]; try lra; congruence.
  - apply sign_of_Positive in Ex. apply sign_of_Negative in Ey.
    rewrite E in Ex. destruct Ex as [?|[? ?]], Ey as [?|[? ?]]; try lra; congruence.
Qed.

(** The restriction to an end of the slab reads one of the two time
    nodes. *)
Lemma restricted_node (gf : SpaceTime.STGridFunction) (r : GridFunction)
    (top : bool) (x : nat) :
  SpaceTime.RestrictGFInTime gf (if top then 1 else 0) = Some r ->
  sign_of zero_sign (gf_at r x)
  = sign_of zero_sign
      ((if top then snd else fst) (default (0, 0) (gf !! x))).
Proof.
  intros Hr. apply sign_of_Qeq. rewrite (RestrictGFInTime_values _ _ _ x Hr).
  unfold SpaceTime.st_eval. destruct (default (0, 0) (gf !! x)) as [c0 c1].
  destruct top; cbn; ring.
Qed.

Lemma restricted_some_sign (gf : SpaceTime.STGridFunction) (r : GridFunction)
    (top : bool) (s : Sign) (el : list nat) :
  SpaceTime.RestrictGFInTime gf (if top then 1 else 0) = Some r ->
  some_sign zero_sign s (el_values r el) ->
  some_sign zero_sign s (SpaceTime.st_el_values gf el).
Proof.
  intros Hr. unfold some_sign, el_values, SpaceTime.st_el_values.
  induction el as [|x el IH]; cbn [map flat_map app].
  - intros H. inversion H.
  - intros H. apply Exists_cons in H. destruct H as [H|H].
    + rewrite (restricted_node gf r top x Hr) in H.
      destruct top; [apply Exists_cons_tl|]; apply Exists_cons_hd; exact H.
    + apply Exists_cons_tl, Exists_cons_tl, IH, H.
Qed.

Lemma restricted_all_sign (gf : SpaceTime.STGridFunction) (r : GridFunction)
    (top : bool) (s : Sign) (el : list nat) :
  SpaceTime.RestrictGFInTime gf (if top then 1 else 0) = Some r ->
  all_sign zero_sign s (SpaceTime.st_el_values gf el) ->
  all_sign zero_sign s (el_values r el).
Proof.
  intros Hr. unfold all_sign, el_values, SpaceTime.st_el_values.
  induction el as [|x el IH]; cbn [map flat_map app].
  - intros _. constructor.
  - intros H. apply Forall_cons in H as [H0 H]. apply Forall_cons in H as [H1 H].
    constructor; [|apply IH, H].
    rewrite (restricted_node gf r top x Hr). destruct top; assumption.
Qed.

Lemma in_type_HASNEG (vals : list Q) :
  in_type HASNEG (classify zero_sign vals) = true
  <-> some_sign zero_sign Negative vals.
Proof. apply existsb_is_neg. Qed.

Lemma in_type_HASPOS (vals : list Q) :
  in_type HASPOS (classify zero_sign vals) = true
  <-> some_sign zero_sign Positive vals.
Proof. apply existsb_is_pos. Qed.

Lemma in_type_NEG (vals : list Q) :
  in_type CDOM_NEG (classify zero_sign vals) = true
  <-> all_sign zero_sign Negative vals.
Proof.
  rewrite <- forallb_is_neg. unfold classify, in_type. cbn [dt].
  destruct (forallb is_neg (map (sign_of zero_sign) vals)).
  - split; reflexivity.
  - destruct (forallb is_pos _); split; discriminate.
Qed.

Lemma restricted_classes (gf : SpaceTime.STGridFunction) (r : GridFunction)
    (top : bool) :
  SpaceTime.RestrictGFInTime gf (if top then 1 else 0) = Some r ->
  let c := SpaceTime.CutInfo_Update zero_sign mesh gf in
  let cr := CutInfo_of zero_sign mesh r in
  ba_subset (GetElementsOfType cr HASNEG) (GetElementsOfType c HASNEG)
  /\ ba_subset (GetElementsOfType cr HASPOS) (GetElementsOfType c HASPOS)
  /\ ba_subset (GetElementsOfType c CDOM_NEG) (GetElementsOfType cr CDOM_NEG).
Proof.
  intros Hr c cr. unfold c, cr, ba_subset.
  split; [|split]; intros e;
    rewrite GetElementsOfType_CutInfo_of, GetElementsOfType_CutInfo_Update;
    destruct (elements mesh !! e) as [el|]; try discriminate.
  - rewrite !in_type_HASNEG. apply (restricted_some_sign gf r top _ el Hr).
  - rewrite !in_type_HASPOS. apply (restricted_some_sign gf r top _ el Hr).
  - rewrite !in_type_NEG. apply (restricted_all_sign gf r top _ el Hr).
Qed.

(** X7. After every pass of the loop body, each element on which the top
    or the bottom level set of the slab takes a negative (positive) value
    is among the HASNEG (HASPOS) elements of the space-time
    classification, and an element that is NEG for the slab is NEG at its
    top and at its bottom: restricting the integrals at the top and at the
    bottom of the slab to the HASNEG elements of [ci] leaves out no element
    they need. *)
Theorem slab_ends_within_classification (s : SpaceTime.State) :
  exists s',
    slab s = Some s'
    /\ (forall lset_end,
          lset_end = SpaceTime.lset_top s' \/ lset_end = SpaceTime.lset_bottom s' ->
          let c_end := CutInfo_of zero_sign mesh lset_end in
          ba_subset (GetElementsOfType c_end HASNEG)
                    (GetElementsOfType (SpaceTime.ci s') HASNEG)
          /\ ba_subset (GetElementsOfType c_end HASPOS)
                       (GetElementsOfType (SpaceTime.ci s') HASPOS)
          /\ ba_subset (GetElementsOfType (SpaceTime.ci s') CDOM_NEG)
                       (GetElementsOfType c_end CDOM_NEG)).
Proof.
  destruct (slab_geometry s) as (s' & _ & E & _ & _ & C & B & T & _).
  exists s'. split; [exact E|].
  intros lset_end [-> | ->]; rewrite C.
  - apply (restricted_classes _ _ true T).
  - apply (restricted_classes _ _ false B).
Qed.

Lemma Forall_SetDefinedOnElements (ba : BitArray) (l : list SpaceTime.Integrator) :
  Forall (fun i => SpaceTime.definedonelements i = Some ba)
         (map (SpaceTime.SetDefinedOnElements ba) l).
Proof. induction l; constructor; [reflexivity|assumption]. Qed.

(** X8. Whatever state a pass of the loop body starts from, the system it
    assembles is consistent with itself: the level set it integrates over
    is the interpolant for the slab that starts at [told], the top and the
    bottom level set are its restrictions, every volume integrator is
    restricted to the HASNEG elements and the ghost penalty to the facets
    of the classification of that very level set, and the solve uses the
    dofs of the same elements; no marking of an earlier slab is left. *)
Theorem slab_system_consistent (s : SpaceTime.State) :
  exists s' sys,
    slab s = Some s'
    /\ SpaceTime.assembled s' = Some sys
    /\ SpaceTime.sys_lset_p1 sys
       = SpaceTime.SpaceTimeInterpolateToP1 mesh levelset (SpaceTime.told s) delta_t
    /\ SpaceTime.RestrictGFInTime (SpaceTime.sys_lset_p1 sys) 0
       = Some (SpaceTime.sys_lset_bottom sys)
    /\ SpaceTime.RestrictGFInTime (SpaceTime.sys_lset_p1 sys) 1
       = Some (SpaceTime.sys_lset_top sys)
    /\ (let c := SpaceTime.CutInfo_Update zero_sign mesh (SpaceTime.sys_lset_p1 sys) in
        SpaceTime.ci s' = c
        /\ (exists ia ip,
              SpaceTime.sys_a sys = ia ++ ip
              /\ length ia = length (SpaceTime.hasneg_integrators_a s)
              /\ length ip = length (SpaceTime.patch_integrators_a s)
              /\ Forall (fun i => SpaceTime.definedonelements i
                                  = Some (GetElementsOfType c HASNEG)) ia
              /\ Forall (fun i => SpaceTime.definedonelements i
                                  = Some (SpaceTime.ba_facets_of mesh c)) ip)
        /\ Forall (fun i => SpaceTime.definedonelements i
                            = Some (GetElementsOfType c HASNEG))
                  (SpaceTime.sys_f sys)
        /\ SpaceTime.gfu s'
           = solver sys (GetDofsOfElements st_fes (GetElementsOfType c HASNEG))).
Proof.
  destruct (slab_geometry s)
    as (s' & sys & E & A & P & C & B & T & Sp & St & Sb & _).
  destruct (slab_effect mesh zero_sign st_fes levelset solver l2error_of delta_t s)
    as (s'' & sys' & E' & A' & _ & _ & _ & _ & _ & Ia & If & Ip & Sa & Sf & _
        & _ & _ & G & _).
  rewrite E in E'. injection E' as <-. rewrite A in A'. injection A' as <-.
  exists s', sys. split; [exact E|]. split; [exact A|].
  rewrite Sp, Sb, St. split; [exact P|]. split; [exact B|]. split; [exact T|].
  cbv zeta. rewrite <- C.
  split; [reflexivity|]. split.
  - exists (SpaceTime.hasneg_integrators_a s'), (SpaceTime.patch_integrators_a s').
    split; [exact Sa|]. rewrite Ia, Ip, !length_map.
    split; [reflexivity|]. split; [reflexivity|].
    split; apply Forall_SetDefinedOnElements.
  - split; [|exact G]. rewrite Sf, If. apply Forall_SetDefinedOnElements.
Qed.

End SlabFacts.

(** ** The lines the space-time loop prints *)

Section LineFacts.
Import Xfem.

Variable mesh : Mesh.
Variable zero_sign : Sign.
Variable st_fes : FESpace.
Variable levelset : Q -> nat -> Q.
Variable u_exact : Q -> nat -> Q.
Variable solver : SpaceTime.System -> BitArray -> SpaceTime.STGridFunction.
Variable l2error_of : GridFunction -> Q -> GridFunction -> Q.
Variable ci0 : CutInfo.
Variable delta_t : Float64.float.

Local Abbreviation st_slab :=
  (SpaceTimeClock.slab mesh zero_sign st_fes levelset solver l2error_of delta_t).
Local Abbreviation st_slabs :=
  (SpaceTimeClock.slabs mesh zero_sign st_fes levelset solver l2error_of delta_t).
Local Abbreviation st_init := (SpaceTimeClock.init mesh u_exact ci0 delta_t).
Local Abbreviation lines_of :=
  (fun s : SpaceTimeClock.State => SpaceTime.printed (SpaceTimeClock.notebook s)).

Lemma st_slabs_snoc (n : nat) (s : SpaceTimeClock.State) :
  st_slabs (Datatypes.S n) s
  = match st_slabs n s with
    | Some s' => st_slab s'
    | None => None
    end.
Proof.
  revert s. induction n as [|n IH]; intros s.
  - cbn [SpaceTimeClock.slabs mbind option_bind].
    destruct (st_slab s); reflexivity.
  - change (st_slabs (Datatypes.S (Datatypes.S n)) s)
      with (match st_slab s with
            | Some s' => st_slabs (Datatypes.S n) s'
            | None => None
            end).
    change (st_slabs (Datatypes.S n) s)
      with (match st_slab s with
            | Some s' => st_slabs n s'
            | None => None
            end).
    destruct (st_slab s) as [s1|]; [apply IH|reflexivity].
Qed.

(** X9. After [k] passes of the space-time loop [k] lines were printed.
    Line [i] holds the value [told] has after pass [i], the float sum of
    [i+1] steps [delta_t] (the time is advanced before [FinalizeStep]), and
    the error of [u_last], the slab solution restricted to reference time
    1, evaluated at that time with the top level set of that slab. *)
Theorem printed_lines (k : nat) :
  let clock i := Float64.accumulate delta_t i (Float64.of_Z 0) in
  exists s,
    st_slabs k st_init = Some s
    /\ SpaceTimeClock.told s = clock k
    /\ length (lines_of s) = k
    /\ forall i, (i < k)%nat ->
         exists si,
           st_slabs (Datatypes.S i) st_init = Some si
           /\ nth i (lines_of s) (0, 0)
              = (Float64.to_Q (clock (Datatypes.S i)),
                 l2error_of (SpaceTime.lset_top (SpaceTimeClock.notebook si))
                            (Float64.to_Q (clock (Datatypes.S i)))
                            (SpaceTime.u_last (SpaceTimeClock.notebook si)))
           /\ SpaceTime.RestrictGFInTime
                (SpaceTime.gfu (SpaceTimeClock.notebook si)) 1
              = Some (SpaceTime.u_last (SpaceTimeClock.notebook si)).
Proof.
  intros clock. induction k as [|k (s & Hs & Ht & Hl & Hi)].
  - exists st_init. split; [reflexivity|]. split; [reflexivity|].
    split; [reflexivity|]. intros i Hlt. lia.
  - destruct (st_slab_spec mesh zero_sign st_fes levelset solver l2error_of
                delta_t s) as (s' & E & T & _ & _ & Pr & R).
    assert (Hs' : st_slabs (Datatypes.S k) st_init = Some s').
    { rewrite st_slabs_snoc, Hs. exact E. }
    assert (Ht' : SpaceTimeClock.told s' = clock (Datatypes.S k)).
    { rewrite T, Ht. reflexivity. }
    exists s'. split; [exact Hs'|]. split; [exact Ht'|].
    split; [rewrite Pr, length_app, Hl; cbn; lia|].
    intros i Hlt. destruct (Nat.eq_dec i k) as [->|Hne].
    + exists s'. split; [exact Hs'|].
      split; [|exact R].
      rewrite Pr, app_nth2, Hl, Nat.sub_diag by lia.
      cbn [nth]. rewrite Ht'. reflexivity.
    + destruct (Hi i ltac:(lia)) as (si & Hsi & Hn & Hri).
      exists si. split; [exact Hsi|].
      split; [rewrite Pr, app_nth1 by lia; exact Hn|exact Hri].
Qed.

End LineFacts.

Section PatchFormFacts.
Import SpaceTime.

Lemma patch_form_value (env : Env) (p : Point) :
  eval env p patch_form
  == coef_delta_t_val env * (1 # 20) * / (h_val env * h_val env)
     * (field env u p
        - field env u {| other_side := negb (other_side p); tref := tref p |})
     * (field env v p
        - field env v {| other_side := negb (other_side p); tref := tref p |}).
Proof.
  cbn. assert (E : 0.05 == 1 # 20) by reflexivity. rewrite E. reflexivity.
Qed.

(** X10. The ghost penalty integrand is a symmetric, positive semidefinite
    form of the jumps across the facet: exchanging the trial and the test
    function, or the two sides of the facet, does not change it; it
    vanishes where the trial function does not jump; and on the diagonal
    it is nonnegative when the time step is. *)
Theorem patch_form_symmetric_psd (env : Env) (p : Point) :
  let q := {| other_side := negb (other_side p); tref := tref p |} in
  eval (SpaceTimeForms.swap_uv env) p patch_form == eval env p patch_form
  /\ eval env q patch_form == eval env p patch_form
  /\ (field env u p == field env u q -> eval env p patch_form == 0)
  /\ (0 <= coef_delta_t_val env ->
      field env v p == field env u p -> field env v q == field env u q ->
      0 <= eval env p patch_form).
Proof.
  intros q. split; [|split; [|split]].
  - rewrite !patch_form_value. cbn. ring.
  - apply patch_form_symmetric.
  - intros H. rewrite patch_form_value. fold q. rewrite H. ring.
  - intros Hdt Hp Hq. rewrite patch_form_value. fold q. rewrite Hp, Hq.
    set (j := field env u p - field env u q).
    set (hh := h_val env * h_val env).
    assert (Hj : 0 <= j * j) by apply Qsquare_nonneg.
    assert (Hh : 0 <= / hh).
    { apply Qinv_le_0_compat. apply Qsquare_nonneg. }
    setoid_replace (coef_delta_t_val env * (1 # 20) * / hh * j * j)
      with ((coef_delta_t_val env * (1 # 20)) * (/ hh * (j * j)))
      using relation Qeq by ring.
    apply Qmult_le_0_compat; [lra|].
    apply Qmult_le_0_compat; assumption.
Qed.

End PatchFormFacts.

(** ** The dofs that are solved for *)

Section DofFacts.
Import Xfem Store.

Variable mesh : Mesh.
Variable zero_sign : Sign.

Lemma GetDofsOfElements_spec (fes : FESpace) (els : BitArray) (d : nat) :
  ba_get (GetDofsOfElements fes els) d = true
  <-> (d < ndof fes)%nat
      /\ exists e dofs, el_dofs fes !! e = Some dofs
                        /\ In d dofs /\ ba_get els e = true.
Proof.
  unfold GetDofsOfElements. rewrite ba_get_map.
  destruct (seq 0 (ndof fes) !! d) as [d'|] eqn:E.
  - apply lookup_seq in E as [-> Hd]. cbn [Nat.add].
    rewrite existsb_exists. split.
    + intros (e & He & Hb). apply in_seq in He.
      apply andb_true_iff in Hb as [Hb Hin].
      destruct (el_dofs fes !! e) as [dofs|] eqn:Ee; [|discriminate].
      cbn [default] in Hin. apply existsb_exists in Hin as (d' & Hd' & Heq).
      apply Nat.eqb_eq in Heq. subst d'.
      split; [exact Hd|]. exists e, dofs. repeat split; assumption.
    + intros (_ & e & dofs & Ee & Hin & Hb). exists e. split.
      * apply in_seq. apply lookup_lt_Some in Ee. lia.
      * rewrite Hb, Ee. cbn [default andb]. apply existsb_exists.
        exists d. split; [exact Hin|apply Nat.eqb_refl].
  - split; [discriminate|]. intros (Hd & _).
    apply lookup_ge_None in E. rewrite length_seq in E. lia.
Qed.

Lemma GetDofsOfElements_length (fes : FESpace) (els : BitArray) :
  length (GetDofsOfElements fes els) = ndof fes.
Proof. unfold GetDofsOfElements. rewrite length_map, length_seq. reflexivity. Qed.

Lemma GetDofsOfElements_mono (fes : FESpace) (a b : BitArray) :
  ba_subset a b -> ba_subset (GetDofsOfElements fes a) (GetDofsOfElements fes b).
Proof.
  intros Hab d. rewrite !GetDofsOfElements_spec.
  intros (Hd & e & dofs & He & Hin & Ha).
  split; [exact Hd|]. exists e, dofs. repeat split; try assumption.
  apply Hab, Ha.
Qed.

Lemma FreeDofs_get (fes : FESpace) (d : nat) :
  (d < ndof fes)%nat -> ba_get (FreeDofs fes) d = negb (dirichlet fes d).
Proof.
  intros Hd. unfold FreeDofs. rewrite ba_get_map, lookup_seq_lt by exact Hd.
  reflexivity.
Qed.

Lemma ba_get_app_l (a b : BitArray) (i : nat) :
  (i < length a)%nat -> ba_get (a ++ b) i = ba_get a i.
Proof. intros Hi. unfold ba_get. rewrite lookup_app_l by exact Hi. reflexivity. Qed.

Lemma ba_get_app_r (a b : BitArray) (i : nat) :
  ba_get (a ++ b) (length a + i) = ba_get b i.
Proof.
  unfold ba_get. rewrite lookup_app_r by lia.
  replace (length a + i - length a)%nat with i by lia. reflexivity.
Qed.

Lemma HASNEG_elements (lset : GridFunction) (e : nat) :
  ba_get (GetElementsOfType (CutInfo_of zero_sign mesh lset) HASNEG) e = true
  <-> exists el, elements mesh !! e = Some el
                 /\ some_sign zero_sign Negative (el_values lset el).
Proof.
  rewrite GetElementsOfType_CutInfo_of.
  destruct (elements mesh !! e) as [el|].
  - cbn [in_type]. unfold classify. cbn [has_neg]. rewrite existsb_is_neg. split.
    + intros H. exists el. split; [reflexivity|exact H].
    + intros (el' & [= <-] & H). exact H.
  - split; [discriminate|]. intros (el & [=] & _).
Qed.

Lemma HASPOS_elements (lset : GridFunction) (e : nat) :
  ba_get (GetElementsOfType (CutInfo_of zero_sign mesh lset) HASPOS) e = true
  <-> exists el, elements mesh !! e = Some el
                 /\ some_sign zero_sign Positive (el_values lset el).
Proof.
  rewrite GetElementsOfType_CutInfo_of.
  destruct (elements mesh !! e) as [el|].
  - cbn [in_type]. unfold classify. cbn [has_pos]. rewrite existsb_is_pos. split.
    + intros H. exists el. split; [reflexivity|exact H].
    + intros (el' & [= <-] & H). exact H.
  - split; [discriminate|]. intros (el & [=] & _).
Qed.

Variable Vh : FESpace.
Variable solution1 : nat -> Q.
Variable assemble_a : bool -> CutFEM.Matrix.
Variable assemble_f : bool -> CutFEM.Vector.

(** X14. In the CutFEM notebook a dof of the first (second) component of
    [VhG] is solved for exactly when no Dirichlet condition fixes it and it
    belongs to an element on which the level set has a negative (positive)
    nodal value; [freedofs] has one bit per dof of [VhG], the two
    components one after the other. *)
Theorem freedofs_dofwise (lsetp1 : GridFunction) (d : nat) :
  (d < ndof Vh)%nat ->
  let s := CutFEM.assemble_cell Vh solution1 assemble_a assemble_f
             (CutFEM.free_dofs_setup Vh
                (CutFEM.cut_fe_space mesh lsetp1 zero_sign Vh)) in
  let touches (sg : Sign) :=
    exists e dofs el,
      el_dofs Vh !! e = Some dofs /\ In d dofs
      /\ elements mesh !! e = Some el
      /\ some_sign zero_sign sg (el_values lsetp1 el) in
  length (CutFEM.freedofs_of s) = (2 * ndof Vh)%nat
  /\ (ba_get (CutFEM.freedofs_of s) d = true
      <-> dirichlet Vh d = false /\ touches Negative)
  /\ (ba_get (CutFEM.freedofs_of s) (ndof Vh + d) = true
      <-> dirichlet Vh d = false /\ touches Positive).
Proof.
  intros Hd s touches. unfold s.
  rewrite (notebook_freedofs mesh zero_sign Vh solution1 assemble_a assemble_f).
  set (c := CutInfo_of zero_sign mesh lsetp1).
  assert (LF : length (FreeDofs Vh) = ndof Vh).
  { unfold FreeDofs. rewrite length_map, length_seq. reflexivity. }
  assert (Lb : length (CutFEM.bc_mask Vh) = (2 * ndof Vh)%nat).
  { unfold CutFEM.bc_mask, CompoundBitArray. cbn [concat].
    rewrite !length_app, LF. cbn [length]. lia. }
  assert (La : length (CutFEM.activity_mask Vh c) = (2 * ndof Vh)%nat).
  { unfold CutFEM.activity_mask, CompoundBitArray. cbn [concat].
    rewrite !length_app, !GetDofsOfElements_length. cbn [length]. lia. }
  split; [rewrite ba_and_length; [exact Lb|rewrite Lb, La; reflexivity]|].
  rewrite !ba_get_and, !andb_true_iff.
  unfold CutFEM.bc_mask, CutFEM.activity_mask, CompoundBitArray. cbn [concat].
  rewrite !app_nil_r.
  split.
  - rewrite !ba_get_app_l by (rewrite ?LF, ?GetDofsOfElements_length; exact Hd).
    rewrite FreeDofs_get, negb_true_iff, GetDofsOfElements_spec by exact Hd.
    split.
    + intros (Hf & _ & e & dofs & He & Hin & Hb).
      apply HASNEG_elements in Hb as (el & Hel & Hs).
      split; [exact Hf|]. exists e, dofs, el. repeat split; assumption.
    + intros (Hf & e & dofs & el & He & Hin & Hel & Hs).
      split; [exact Hf|]. split; [exact Hd|]. exists e, dofs.
      split; [exact He|]. split; [exact Hin|].
      apply HASNEG_elements. exists el. split; assumption.
  - assert (E1 : forall a b : BitArray,
               length a = ndof Vh -> ba_get (a ++ b) (ndof Vh + d) = ba_get b d).
    { intros a b <-. apply ba_get_app_r. }
    rewrite !E1 by (rewrite ?LF, ?GetDofsOfElements_length; reflexivity).
    rewrite FreeDofs_get, negb_true_iff, GetDofsOfElements_spec by exact Hd.
    split.
    + intros (Hf & _ & e & dofs & He & Hin & Hb).
      apply HASPOS_elements in Hb as (el & Hel & Hs).
      split; [exact Hf|]. exists e, dofs, el. repeat split; assumption.
    + intros (Hf & e & dofs & el & He & Hin & Hel & Hs).
      split; [exact Hf|]. split; [exact Hd|]. exists e, dofs.
      split; [exact He|]. split; [exact Hin|].
      apply HASPOS_elements. exists el. split; assumption.
Qed.

End DofFacts.

(** ** MoL_TraceFEM.ipynb: the band and the active dofs *)

Section BandMoreFacts.
Import Xfem Store.

Variable mesh : Mesh.
Variable zero_sign : Sign.

Local Abbreviation UpdateBand := (TraceFEM.UpdateBand mesh zero_sign).

Lemma load_iand_ne (l l' : loc) (ba : BitArray) (st : Store) :
  l <> l' -> load l' (iand l ba st) = load l' st.
Proof. intros H. unfold iand. apply load_store_ne. exact H. Qed.

Lemma ba_clear_same_length (a b : BitArray) :
  length a = length b -> ba_clear a = ba_clear b.
Proof.
  revert b. induction a as [|x a IH]; intros [|y b] H; try discriminate.
  - reflexivity.
  - cbn. f_equal. apply IH. cbn in H. lia.
Qed.

Lemma ba_or_clear_l (a b : BitArray) :
  length a = length b -> ba_or (ba_clear a) b = b.
Proof.
  revert b. induction a as [|x a IH]; intros [|y b] H; try discriminate.
  - reflexivity.
  - cbn. f_equal. apply IH. cbn in H. lia.
Qed.

(** What [UpdateBand] does to the rest of the store, and the [visband] it
    returns. *)
Lemma UpdateBand_others (lset : nat -> Q) (offset : Q) (l : loc) (st : Store) :
  (l < fresh st)%nat ->
  let r := UpdateBand lset offset l st in
  (forall l', (l' < fresh st)%nat -> l' <> l -> load l' (fst r) = load l' st)
  /\ snd r = map (fun i => if ba_get (load l (fst r)) i then 1 else 0)
                 (seq 0 (ne mesh)).
Proof.
  intros Hl r. unfold r, TraceFEM.UpdateBand.
  set (st1 := Clear l st).
  assert (F1 : fresh st1 = fresh st) by reflexivity.
  destruct (copy_spec l st1) as (E2 & F2 & L2 & N2).
  rewrite E2. set (lP := fresh st1) in *. set (st2 := snd (copy l st1)) in *.
  set (st3 := Clear lP st2).
  assert (F3 : fresh st3 = S (fresh st)) by (unfold st3; simpl; congruence).
  destruct (copy_spec l st3) as (E4 & F4 & L4 & N4).
  rewrite E4. set (lM := fresh st3) in *. set (st4 := snd (copy l st3)) in *.
  cbn [fst snd]. split; [|reflexivity].
  intros l' Hl' Hne.
  assert (HP : lP <> l') by (unfold lP; lia).
  assert (HM : lM <> l') by (unfold lM; lia).
  assert (Hne' : l <> l') by congruence.
  rewrite load_iand_ne by exact Hne'.
  repeat first [ rewrite load_ior_ne by assumption
               | rewrite load_Clear_ne by assumption ].
  unfold st4. rewrite N4 by lia. unfold st3.
  rewrite load_Clear_ne by assumption. unfold st2.
  rewrite N2 by lia. unfold st1. apply load_Clear_ne. exact Hne'.
Qed.

(** X18. [UpdateBand] overwrites the band and nothing else: the BitArray
    it is given ends up with a content that depends on its previous content
    only through its length, every other BitArray that existed before the
    call keeps its content (the global [ba_band_IF_P] and [ba_band_IF_M]
    are never written: the function works on two new copies under the same
    names), and [visband] is the 0/1 indicator of the new band over the
    elements of the mesh. *)
Theorem UpdateBand_overwrites (lset : nat -> Q) (offset : Q) (l : loc) (st : Store) :
  (l < fresh st)%nat ->
  let r := UpdateBand lset offset l st in
  (forall l', (l' < fresh st)%nat -> l' <> l -> load l' (fst r) = load l' st)
  /\ (forall l2 st2,
        (l2 < fresh st2)%nat -> length (load l2 st2) = length (load l st) ->
        load l2 (fst (UpdateBand lset offset l2 st2)) = load l (fst r))
  /\ length (snd r) = ne mesh
  /\ (forall e, (e < ne mesh)%nat ->
        nth e (snd r) 0 = if ba_get (load l (fst r)) e then 1 else 0).
Proof.
  intros Hl r.
  destruct (UpdateBand_others lset offset l st Hl) as [Ho Hv]. fold r in Ho, Hv.
  split; [exact Ho|]. split; [|split].
  - intros l2 st2 Hl2 Hlen. unfold r.
    destruct (UpdateBand_load mesh zero_sign lset offset l st Hl) as [-> _].
    destruct (UpdateBand_load mesh zero_sign lset offset l2 st2 Hl2) as [-> _].
    rewrite (ba_clear_same_length _ _ Hlen). reflexivity.
  - rewrite Hv, length_map, length_seq. reflexivity.
  - intros e He. rewrite Hv, nth_lookup, list_lookup_fmap, lookup_seq_lt by exact He.
    reflexivity.
Qed.

(** The two halves of the band in terms of the signs of the shifted level
    set. *)
Lemma upper_half (vals : list Q) :
  in_type CDOM_POS (classify zero_sign vals)
  || in_type CDOM_IF (classify zero_sign vals) = true
  <-> ~ all_sign zero_sign Negative vals.
Proof.
  rewrite <- forallb_is_neg. unfold classify, in_type. cbn [dt].
  destruct (forallb is_neg (map (sign_of zero_sign) vals)).
  - split; [discriminate|]. intros H. exfalso. apply H. reflexivity.
  - destruct (forallb is_pos _); (split; [intros _; discriminate|reflexivity]).
Qed.

Lemma lower_half (vals : list Q) :
  in_type CDOM_NEG (classify zero_sign vals)
  || in_type CDOM_IF (classify zero_sign vals) = true
  <-> all_sign zero_sign Negative vals \/ ~ all_sign zero_sign Positive vals.
Proof.
  rewrite <- forallb_is_neg, <- forallb_is_pos. unfold classify, in_type. cbn [dt].
  destruct (forallb is_neg (map (sign_of zero_sign) vals)).
  - split; [intros _; left; reflexivity|reflexivity].
  - destruct (forallb is_pos _).
    + split; [discriminate|]. intros [H|H]; [discriminate|].
      exfalso. apply H. reflexivity.
    + split; [intros _; right; discriminate|reflexivity].
Qed.

Lemma all_sign_transfer (s : Sign) (g1 g2 : GridFunction) (el : list nat) :
  (forall x, sign_of zero_sign (gf_at g1 x) = s ->
             sign_of zero_sign (gf_at g2 x) = s) ->
  all_sign zero_sign s (el_values g1 el) ->
  all_sign zero_sign s (el_values g2 el).
Proof.
  intros H. unfold all_sign, el_values. rewrite !List.Forall_forall.
  intros Ha y Hy. apply in_map_iff in Hy as (x & <- & Hx).
  apply H. apply Ha. apply in_map_iff. exists x. split; [reflexivity|exact Hx].
Qed.

Lemma shift_keeps_Positive (f g : nat -> Q) (x : nat) :
  (forall y, f y <= g y) ->
  sign_of zero_sign (gf_at (InterpolateToP1 mesh f) x) = Positive ->
  sign_of zero_sign (gf_at (InterpolateToP1 mesh g) x) = Positive.
Proof.
  intros Hfg. rewrite !gf_at_InterpolateToP1.
  destruct (Nat.ltb x (nv mesh)); [|exact (fun H => H)].
  rewrite !sign_of_Positive. specialize (Hfg x).
  intros [H|[H Hz]].
  - left. lra.
  - destruct (Qlt_le_dec 0 (g x)) as [Hg|Hg]; [left; exact Hg|].
    right. split; [lra|exact Hz].
Qed.

Lemma shift_keeps_Negative (f g : nat -> Q) (x : nat) :
  (forall y, g y <= f y) ->
  sign_of zero_sign (gf_at (InterpolateToP1 mesh f) x) = Negative ->
  sign_of zero_sign (gf_at (InterpolateToP1 mesh g) x) = Negative.
Proof.
  intros Hfg. rewrite !gf_at_InterpolateToP1.
  destruct (Nat.ltb x (nv mesh)); [|exact (fun H => H)].
  rewrite !sign_of_Negative. specialize (Hfg x).
  intros [H|[H Hz]].
  - left. lra.
  - destruct (Qlt_le_dec (g x) 0) as [Hg|Hg]; [left; exact Hg|].
    right. split; [lra|exact Hz].
Qed.

Lemma same_sign (f g : nat -> Q) (s : Sign) (x : nat) :
  (forall y, f y == g y) ->
  sign_of zero_sign (gf_at (InterpolateToP1 mesh f) x) = s ->
  sign_of zero_sign (gf_at (InterpolateToP1 mesh g) x) = s.
Proof.
  intros Hfg. destruct s.
  - apply shift_keeps_Negative. intros y. rewrite Hfg. apply Qle_refl.
  - apply shift_keeps_Positive. intros y. rewrite Hfg. apply Qle_refl.
Qed.

(** The bit of the band for the element [e], in terms of the nodal values
    of the two shifted level sets. *)
Lemma band_bit (lset : nat -> Q) (offset : Q) (l : loc) (st : Store) (e : nat) :
  (l < fresh st)%nat ->
  length (load l st) = ne mesh ->
  ba_get (load l (fst (UpdateBand lset offset l st))) e = true
  <-> exists el,
        elements mesh !! e = Some el
        /\ ~ all_sign zero_sign Negative
               (el_values (InterpolateToP1 mesh (fun x => lset x + offset)) el)
        /\ (all_sign zero_sign Negative
              (el_values (InterpolateToP1 mesh (fun x => lset x - offset)) el)
            \/ ~ all_sign zero_sign Positive
                   (el_values (InterpolateToP1 mesh (fun x => lset x - offset)) el)).
Proof.
  intros Hl Hlen.
  destruct (UpdateBand_bits mesh zero_sign lset offset l st Hl Hlen) as (Hb & _).
  rewrite Hb, !GetElementsOfType_CutInfo_of.
  destruct (elements mesh !! e) as [el|].
  - rewrite andb_true_iff, upper_half, lower_half. split.
    + intros [H1 H2]. exists el. split; [reflexivity|]. split; assumption.
    + intros (el' & [= <-] & H1 & H2). split; assumption.
  - split; [discriminate|]. intros (el & [=] & _).
Qed.

(** X19. The band grows with the offset, starting from the cut elements:
    with offset zero [UpdateBand] marks exactly the elements the level set
    cuts, and a larger offset marks at least the elements a smaller one
    marks. *)
Theorem band_grows_with_offset (lset : nat -> Q) (offset1 offset2 : Q)
    (l : loc) (st : Store) :
  0 <= offset1 -> offset1 <= offset2 ->
  (l < fresh st)%nat ->
  length (load l st) = ne mesh ->
  let band offset := load l (fst (UpdateBand lset offset l st)) in
  ba_subset (band offset1) (band offset2)
  /\ (forall e, ba_get (band 0) e
                = ba_get (GetElementsOfType
                            (CutInfo_of zero_sign mesh (InterpolateToP1 mesh lset))
                            CDOM_IF) e).
Proof.
  intros H1 H12 Hl Hlen band. split.
  - intros e. unfold band. rewrite !band_bit by assumption.
    intros (el & Hel & Hup & Hlow). exists el. split; [exact Hel|]. split.
    + intros Hall. apply Hup. revert Hall. apply all_sign_transfer.
      intros x. apply shift_keeps_Negative. intros y. lra.
    + destruct Hlow as [Hn|Hp].
      * left. revert Hn. apply all_sign_transfer.
        intros x. apply shift_keeps_Negative. intros y. lra.
      * right. intros Hall. apply Hp. revert Hall. apply all_sign_transfer.
        intros x. apply shift_keeps_Positive. intros y. lra.
  - intros e. unfold band.
    destruct (UpdateBand_bits mesh zero_sign lset 0 l st Hl Hlen) as (Hb & _).
    rewrite Hb, !GetElementsOfType_CutInfo_of.
    destruct (elements mesh !! e) as [el|]; [|reflexivity].
    assert (Hsame : forall f : nat -> Q, (forall y, f y == lset y) ->
              map (sign_of zero_sign) (el_values (InterpolateToP1 mesh f) el)
              = map (sign_of zero_sign) (el_values (InterpolateToP1 mesh lset) el)).
    { intros f Hf. unfold el_values. rewrite !map_map. apply map_ext.
      intros x. symmetry. eapply same_sign; [|reflexivity]. exact Hf. }
    unfold classify, in_type. cbn [dt].
    rewrite (Hsame (fun x => lset x + 0)) by (intros y; ring).
    rewrite (Hsame (fun x => lset x - 0)) by (intros y; ring).
    destruct (forallb is_neg _); [reflexivity|].
    destruct (forallb is_pos _); reflexivity.
Qed.

Section Steps.

Variable VhG : FESpace.
Variables vel dt : Q.
Variable levelset_function : Q -> nat -> Q.
Variable junk : nat -> bool.
Variable solve_step :
  Q -> GridFunction -> BitArray -> BitArray -> TraceFEM.Vector -> BitArray
  -> TraceFEM.Vector.

Local Abbreviation step :=
  (TraceFEM.step mesh zero_sign VhG vel dt levelset_function junk solve_step).

Lemma step_active_dofs (s : TraceFEM.State) :
  TraceFEM.active_dofs (step s)
  = GetDofsOfElements VhG
      (load (TraceFEM.ba_band_IF (step s)) (TraceFEM.heap (step s)))
  /\ TraceFEM.visband (step s)
     = snd (TraceFEM.UpdateBand mesh zero_sign
              (levelset_function (TraceFEM.told s + dt)) (vel * dt)
              (TraceFEM.ba_band_IF s) (TraceFEM.heap s))
  /\ TraceFEM.gfu (step s)
     = solve_step (TraceFEM.told s + dt) (TraceFEM.lset_approx (step s))
         (load (TraceFEM.ba_band_IF (step s)) (TraceFEM.heap (step s)))
         (TraceFEM.ba_new_IF (step s)) (TraceFEM.gfu s)
         (TraceFEM.active_dofs (step s)).
Proof.
  unfold TraceFEM.step.
  destruct (TraceFEM.UpdateBand mesh zero_sign
              (levelset_function (TraceFEM.told s + dt)) (vel * dt)
              (TraceFEM.ba_band_IF s) (TraceFEM.heap s)) as [st vis].
  cbn [TraceFEM.active_dofs TraceFEM.ba_band_IF TraceFEM.heap TraceFEM.visband
       TraceFEM.gfu TraceFEM.lset_approx TraceFEM.ba_new_IF snd].
  split; [|split; reflexivity].
  apply ba_or_clear_l.
  rewrite BitArray_new_length, GetDofsOfElements_length. reflexivity.
Qed.

(** X20. In every time step the mask of the solve is exactly the dofs of
    the elements of the band: it has one bit per dof of [VhG], nothing of
    what [BitArray(VhG.ndof)] held before [Clear()] is left in it, and it
    contains the dofs of every element cut by the new level set, so every
    dof the interface integrals touch is solved for. *)
Theorem active_dofs_are_band_dofs (s : TraceFEM.State) :
  0 <= vel * dt ->
  TraceFEM.band_inv mesh s ->
  let s' := step s in
  let band := load (TraceFEM.ba_band_IF s') (TraceFEM.heap s') in
  TraceFEM.active_dofs s' = GetDofsOfElements VhG band
  /\ length (TraceFEM.active_dofs s') = ndof VhG
  /\ (forall d, ba_get (TraceFEM.active_dofs s') d = true
                <-> (d < ndof VhG)%nat
                    /\ exists e dofs, el_dofs VhG !! e = Some dofs
                                      /\ In d dofs /\ ba_get band e = true)
  /\ ba_subset (GetDofsOfElements VhG (TraceFEM.ba_new_IF s'))
               (TraceFEM.active_dofs s')
  /\ TraceFEM.gfu s'
     = solve_step (TraceFEM.told s + dt) (TraceFEM.lset_approx s') band
         (TraceFEM.ba_new_IF s') (TraceFEM.gfu s) (GetDofsOfElements VhG band).
Proof.
  intros Hv Hinv s' band.
  destruct (step_active_dofs s) as (Ha & _ & Hg). fold s' band in Ha, Hg.
  destruct (step_inv mesh zero_sign VhG vel dt levelset_function junk solve_step
              s Hv Hinv) as [_ Hsub]. fold s' band in Hsub.
  split; [exact Ha|]. rewrite Hg, Ha.
  split; [apply GetDofsOfElements_length|].
  split; [intros d; apply GetDofsOfElements_spec|].
  split; [apply GetDofsOfElements_mono; exact Hsub|reflexivity].
Qed.

End Steps.
End BandMoreFacts.

(** ** CutFEM.ipynb: what the solve achieves *)

Section SolveFacts.
Import Xfem Store.

Variable solver : CutFEM.BlockSolver.

Lemma dot_add (r x y : CutFEM.Vector) :
  length x = length y ->
  CutFEM.dot r (zip_with Qplus x y) == CutFEM.dot r x + CutFEM.dot r y.
Proof.
  unfold CutFEM.dot. revert x y.
  induction r as [|a r IH]; intros [|b x] [|c y] H; try discriminate; cbn;
    try ring.
  rewrite IH by (cbn in H; lia). ring.
Qed.

Lemma vec_sub_spec (x y z : CutFEM.Vector) :
  CutFEM.vec_sub x y = Some z ->
  length x = length y
  /\ forall i, CutFEM.vec_at z i == CutFEM.vec_at x i - CutFEM.vec_at y i.
Proof.
  unfold CutFEM.vec_sub. destruct (Nat.eqb_spec (length x) (length y)) as [Hl|];
    [|discriminate].
  intros [= <-]. split; [exact Hl|].
  intros i. unfold CutFEM.vec_at. rewrite lookup_zip_with.
  destruct (x !! i) as [a|] eqn:Hx, (y !! i) as [b|] eqn:Hy; simpl; try lra.
  - apply lookup_lt_Some in Hx. apply lookup_ge_None in Hy. lia.
  - apply lookup_lt_Some in Hy. apply lookup_ge_None in Hx. lia.
Qed.

Lemma mat_vec_spec (A : CutFEM.Matrix) (x y : CutFEM.Vector) :
  CutFEM.mat_vec A x = Some y ->
  y = map (fun r => CutFEM.dot r x) A
  /\ forall x', length x' = length x ->
                CutFEM.mat_vec A x' = Some (map (fun r => CutFEM.dot r x') A).
Proof.
  unfold CutFEM.mat_vec.
  destruct (forallb (fun r => Nat.eqb (length r) (length x)) A) eqn:E;
    [|discriminate].
  intros [= <-]. split; [reflexivity|].
  intros x' Hx'. rewrite Hx', E. reflexivity.
Qed.

(** X21. [SolveLinearSystem] solves the system on the free dofs: when the
    update the solver returns satisfies the rows of the free dofs for the
    residual [f - a*gfu], the new [gfu] satisfies those rows for [f]
    itself, whatever values [gfu] held on the other dofs before (the
    boundary data are accounted for through the residual). *)
Theorem SolveLinearSystem_residual (s s' : CutFEM.State) :
  CutFEM.SolveLinearSystem solver s = Some s' ->
  (forall a_gfu rhs upd,
     CutFEM.mat_vec (CutFEM.a_mat s) (CutFEM.gfu s) = Some a_gfu ->
     CutFEM.vec_sub (CutFEM.f_vec s) a_gfu = Some rhs ->
     CutFEM.Inverse solver (CutFEM.a_mat s) (CutFEM.freedofs_of s) rhs = Some upd ->
     forall i r, CutFEM.a_mat s !! i = Some r ->
                 ba_get (CutFEM.freedofs_of s) i = true ->
                 CutFEM.dot r upd == CutFEM.vec_at rhs i) ->
  exists a_gfu',
    CutFEM.mat_vec (CutFEM.a_mat s') (CutFEM.gfu s') = Some a_gfu'
    /\ length a_gfu' = length (CutFEM.f_vec s')
    /\ forall i, ba_get (CutFEM.freedofs_of s') i = true ->
                 CutFEM.vec_at a_gfu' i == CutFEM.vec_at (CutFEM.f_vec s') i.
Proof.
  unfold CutFEM.SolveLinearSystem, CutFEM.freedofs_of.
  destruct (CutFEM.mat_vec _ _) as [a_gfu|] eqn:Hmv; [|discriminate].
  cbn [mbind option_bind].
  destruct (CutFEM.vec_sub _ _) as [rhs|] eqn:Hsub; [|discriminate].
  cbn [mbind option_bind].
  destruct (CutFEM.Inverse _ _ _ _) as [upd|] eqn:Hinv; [|discriminate].
  cbn [mbind option_bind].
  destruct (CutFEM.vec_add _ _) as [gfu'|] eqn:Hadd; [|discriminate].
  cbn [mbind option_bind]. intros [= <-] Hex.
  cbn [CutFEM.a_mat CutFEM.gfu CutFEM.f_vec CutFEM.freedofs CutFEM.heap].
  specialize (Hex a_gfu rhs upd eq_refl Hsub Hinv).
  destruct (mat_vec_spec _ _ _ Hmv) as [Ha Hany].
  destruct (vec_sub_spec _ _ _ Hsub) as [Hlf Hrhs].
  destruct (vec_add_spec _ _ _ Hadd) as [Hlen _].
  assert (Hg : gfu' = zip_with Qplus (CutFEM.gfu s) upd
               /\ length (CutFEM.gfu s) = length upd).
  { unfold CutFEM.vec_add in Hadd.
    destruct (Nat.eqb_spec (length (CutFEM.gfu s)) (length upd)) as [Hl|];
      [|discriminate].
    injection Hadd as <-. split; [reflexivity|exact Hl]. }
  destruct Hg as [Hg Hlu].
  eexists. split; [apply Hany; exact Hlen|].
  split; [rewrite length_map, Hlf, Ha, length_map; reflexivity|].
  intros i Hi. unfold CutFEM.vec_at at 1. rewrite list_lookup_fmap.
  destruct (CutFEM.a_mat s !! i) as [r|] eqn:Hr; cbn [fmap option_fmap option_map default].
  - rewrite Hg, dot_add by exact Hlu. rewrite (Hex i r Hr Hi), Hrhs.
    assert (Hai : CutFEM.vec_at a_gfu i = CutFEM.dot r (CutFEM.gfu s)).
    { rewrite Ha. unfold CutFEM.vec_at. rewrite list_lookup_fmap, Hr. reflexivity. }
    rewrite Hai. unfold id. ring.
  - apply lookup_ge_None in Hr.
    unfold CutFEM.vec_at. rewrite lookup_ge_None_2; [reflexivity|].
    rewrite Hlf, Ha, length_map. exact Hr.
Qed.

End SolveFacts.

(** ** The further properties on the small instance *)

Section MoreConcreteInput.
Import Xfem Store Example FormExample Vec2.

Example eoc_table_example :
  option_map (map Qred) (IntLsetPost.eoc_table toy_log [1; 1 # 2; 1 # 4])
  = Some [1; 1]
  /\ IntLsetPost.eoc_table toy_log [1; 0; 1 # 4] = None
  /\ IntLsetPost.eoc_table toy_log [5] = Some [].
Proof. repeat split; vm_compute; reflexivity. Qed.

Lemma CutFEM_forms_diagonal_witness :
  0 < CutFEMForms.h cut_point
  /\ CutFEMForms.stab cut_point == 300
  /\ 0 <= CutFEMForms.form_stab cut_point cut_fn cut_fn.
Proof.
  split; [reflexivity|].
  destruct (CutFEM_forms_diagonal cut_point cut_fn eq_refl)
    as (_ & _ & Hs & _ & Hn & _).
  split; [rewrite Hs; reflexivity|exact Hn].
Defined.

Lemma average_flux_convex_witness :
  0 <= CutFEMForms.CutRatioGF cut_point
  /\ CutFEMForms.CutRatioGF cut_point <= 1
  /\ CutFEMForms.kappa cut_point 0 + CutFEMForms.kappa cut_point 1 == 1
  /\ -4 <= CutFEMForms.average_flux cut_point cut_fn
  /\ CutFEMForms.average_flux cut_point cut_fn <= -1.
Proof.
  split; [discriminate|]. split; [discriminate|].
  destruct (average_flux_convex cut_point cut_fn) as (_ & _ & Hk & _ & _ & Hb & _).
  - discriminate.
  - discriminate.
  - split; [exact Hk|]. apply Hb. discriminate.
Defined.

Lemma P_is_tangential_projection_witness :
  dotp (3 # 5, 4 # 5) (3 # 5, 4 # 5) == 1
  /\ dotp (TraceFEMForms.P (3 # 5, 4 # 5) (1, 1)) (3 # 5, 4 # 5) == 0.
Proof.
  split; [reflexivity|].
  apply (P_is_tangential_projection (3 # 5, 4 # 5) (1, 1) (1, 1)). reflexivity.
Defined.

Lemma form_band_nonnegative_witness :
  0 <= 0.0025 /\ 0 <= 1 /\ 0 <= TraceFEMForms.nu /\ 0 < TraceFEMForms.h band_point
  /\ 0 <= TraceFEMForms.form_band 0.0025 1 TraceFEMForms.nu band_point band_fn band_fn.
Proof.
  assert (H1 : 0 <= 0.0025) by discriminate.
  assert (H2 : 0 <= 1) by discriminate.
  assert (H3 : 0 <= TraceFEMForms.nu) by discriminate.
  assert (H4 : 0 < TraceFEMForms.h band_point) by reflexivity.
  split; [exact H1|]. split; [exact H2|]. split; [exact H3|]. split; [exact H4|].
  destruct (form_band_nonnegative 0.0025 1 TraceFEMForms.nu band_point band_fn
              band_fn H1 H2 H3 H4) as (_ & H & _).
  exact H.
Defined.

Lemma eoc_table_raises_iff_witness :
  ~ toy_log 2 == 0
  /\ IntLsetPost.eoc_table toy_log [1; 0; 1 # 4] = None.
Proof.
  assert (H : ~ toy_log 2 == 0) by discriminate.
  split; [exact H|].
  apply (eoc_table_raises_iff toy_log [1; 0; 1 # 4] H).
  exists 1%nat. split; [simpl; lia|reflexivity].
Defined.

Lemma AppendResultAndPostProcess_raises_iff_witness :
  ~ toy_log 0.5 == 0
  /\ fst (IntLsetPost.AppendResultAndPostProcess 3 toy_log 5 [0]) = [0; 2]
  /\ snd (IntLsetPost.AppendResultAndPostProcess 3 toy_log 5 [0]) = None.
Proof.
  assert (H : ~ toy_log 0.5 == 0) by discriminate.
  split; [exact H|].
  destruct (AppendResultAndPostProcess_raises_iff toy_log 3 5 [0] H)
    as (Hf & Hs & _).
  split; [exact Hf|]. apply Hs.
  exists 0%nat. split; [simpl; lia|reflexivity].
Defined.

Lemma slab_geometry_continuous_witness :
  Proper (Qeq ==> eq ==> Qeq) (fun _ : Q => lset_fun)
  /\ exists s1 s2,
       SpaceTime.slab mesh2 Positive P1 (fun _ => lset_fun) st_solver
         (fun _ _ _ => 0) (1 # 32)
         (SpaceTime.init mesh2 (fun _ => lset_fun) no_ci (1 # 32)) = Some s1
       /\ SpaceTime.slab mesh2 Positive P1 (fun _ => lset_fun) st_solver
            (fun _ _ _ => 0) (1 # 32) s1 = Some s2
       /\ forall x, gf_at (SpaceTime.lset_bottom s2) x
                    == gf_at (SpaceTime.lset_top s1) x.
Proof.
  assert (Hp : Proper (Qeq ==> eq ==> Qeq) (fun _ : Q => lset_fun)).
  { intros a b _ x y ->. reflexivity. }
  split; [exact Hp|].
  destruct (slab_geometry_continuous mesh2 Positive P1 (fun _ => lset_fun)
              st_solver (fun _ _ _ => 0) (1 # 32)
              (SpaceTime.init mesh2 (fun _ => lset_fun) no_ci (1 # 32)) Hp)
    as (s1 & s2 & H1 & H2 & _ & Hc).
  exists s1, s2. split; [exact H1|]. split; [exact H2|exact Hc].
Defined.

Lemma freedofs_dofwise_witness :
  (1 < ndof P1)%nat
  /\ ba_get (CutFEM.freedofs_of
               (CutFEM.assemble_cell P1 (fun _ => 7) assemble_a assemble_f
                  (CutFEM.free_dofs_setup P1
                     (CutFEM.cut_fe_space mesh2 lset Positive P1)))) 1 = true.
Proof.
  assert (Hd : (1 < ndof P1)%nat) by (simpl; lia).
  split; [exact Hd|].
  destruct (freedofs_dofwise mesh2 Positive P1 (fun _ => 7) assemble_a assemble_f
              lset 1%nat Hd) as (_ & [_ H] & _).
  apply H. split; [reflexivity|].
  exists 0%nat, [0; 1; 2]%nat, [0; 1; 2]%nat.
  split; [reflexivity|]. split; [simpl; tauto|]. split; [reflexivity|].
  apply Exists_cons_hd. reflexivity.
Defined.

Lemma UpdateBand_overwrites_witness :
  (0 < fresh (snd (alloc [true; true] Store.empty)))%nat
  /\ length (snd (TraceFEM.UpdateBand mesh2 Positive lset_fun 0.1 0%nat
                    (snd (alloc [true; true] Store.empty)))) = ne mesh2.
Proof.
  split; [simpl; lia|].
  apply (UpdateBand_overwrites mesh2 Positive lset_fun 0.1 0%nat
           (snd (alloc [true; true] Store.empty))).
  simpl. lia.
Defined.

Lemma band_grows_with_offset_witness :
  0 <= 0.1 /\ 0.1 <= 1.5
  /\ ba_subset
       (load 0%nat (fst (TraceFEM.UpdateBand mesh2 Positive lset_fun 0.1 0%nat
                           (snd (alloc [true; true] Store.empty)))))
       (load 0%nat (fst (TraceFEM.UpdateBand mesh2 Positive lset_fun 1.5 0%nat
                           (snd (alloc [true; true] Store.empty))))).
Proof.
  split; [discriminate|]. split; [discriminate|].
  apply (band_grows_with_offset mesh2 Positive lset_fun 0.1 1.5 0%nat
           (snd (alloc [true; true] Store.empty))).
  - discriminate.
  - discriminate.
  - simpl. lia.
  - reflexivity.
Defined.

Lemma active_dofs_are_band_dofs_witness :
  0 <= 1 * 0.0025
  /\ length (TraceFEM.active_dofs
               (TraceFEM.step mesh2 Positive P1 1 0.0025 (fun _ => lset_fun)
                  (fun _ => true) (fun _ _ _ _ g _ => g)
                  (TraceFEM.init mesh2 Positive (fun _ => lset_fun)
                     (fun _ => true) []))) = ndof P1.
Proof.
  split; [discriminate|].
  apply (active_dofs_are_band_dofs mesh2 Positive P1 1 0.0025 (fun _ => lset_fun)
           (fun _ => true) (fun _ _ _ _ g _ => g)
           (TraceFEM.init mesh2 Positive (fun _ => lset_fun) (fun _ => true) [])).
  - discriminate.
  - apply init_inv.
Defined.

Lemma SolveLinearSystem_residual_witness :
  exists s' a_gfu',
    CutFEM.SolveLinearSystem solver two_dofs = Some s'
    /\ CutFEM.mat_vec (CutFEM.a_mat s') (CutFEM.gfu s') = Some a_gfu'
    /\ CutFEM.vec_at a_gfu' 0 == CutFEM.vec_at (CutFEM.f_vec s') 0.
Proof.
  destruct (CutFEM.SolveLinearSystem solver two_dofs) as [s'|] eqn:E;
    [|vm_compute in E; discriminate].
  destruct (SolveLinearSystem_residual solver two_dofs s' E) as (a & Ha & _ & Hv).
  - intros a_gfu rhs upd H1 H2 H3 i r Hr Hi.
    vm_compute in H1. injection H1 as <-.
    vm_compute in H2. injection H2 as <-.
    vm_compute in H3. injection H3 as <-.
    destruct i as [|[|i]]; vm_compute in Hr; try discriminate.
    injection Hr as <-. reflexivity.
  - exists s', a. split; [reflexivity|]. split; [exact Ha|].
    apply Hv.
    assert (Ef : CutFEM.freedofs_of s' = [true; false]).
    { vm_compute in E. injection E as <-. reflexivity. }
    rewrite Ef. reflexivity.
Defined.

End MoreConcreteInput.
